(** * Streaming top-K ranker and metric reducer of [project/utils/score.py]

    The development embeds [rank], [recall_score], [ndcg_coefs],
    [ndcg_score] and [composite] and settles the properties the
    specification states about them.

    Modelling choices.
    - A tensor of rank one is a [list], a tensor of rank two a list of rows.
    - A score is a float by kind: [-inf], a finite value, [+inf] or NaN.
      Of the finite values only the order matters to the ranker, so an
      integer stands for each.  The buffers are filled with [-inf], which
      is also a score the model can hand in.
    - Labels are the numbers stored in the label tensors (expected 0 or 1),
      taken as integers.
    - [torch.argsort] and [torch.topk(sorted=False)] do not fix the order of
      equal elements; [torch.empty] does not fix the contents of the memory
      it returns.  The three are the fields of the class [Backend]; the laws
      PyTorch documents for the first two are the class [BackendLaws].
      Theorems hold for every lawful backend; examples run on one of two
      insertion sorts.
    - [pos_cnt] has dtype [torch.int]: 32-bit two's complement, written out
      as [wrap32].  The cast [edge_label.int()] is the cast of an integer
      tensor, which keeps the low 32 bits; the cast of a floating-point
      tensor agrees with it on the 32-bit range and is not pinned down
      outside, so what is proved of the values of the counts is proved for
      labels within that range.
    - An exception ([IndexError], the maximum of an empty tensor, shapes
      that do not broadcast) is the result [None].
    - [recall_score] and the mean of [composite] are on binary floats,
      where division by zero has its IEEE-754 meaning; [ndcg_score] is on
      the reals, where its formula can be compared with the specification's.
      A real quotient says nothing of a division by zero, so what is proved
      of the values of [ndcg_score] is proved where the normaliser is
      positive.
    - A matrix without rows has no width of its own: it stands for the
      tensor of shape [0, 0], and statements on [ndcg_score] that depend on
      the width ask for a row.
    - The score functions handed to [composite] are total, as
      [recall_score] is on what [rank] returns; a score function that
      raises is outside the model.

    Layout: the definitions ([Tensor], [Ranker], [RankerProps], [Examples],
    [EdgeExamples], [Reducer], [Gain]), then the facts, the ranker's
    first. *)

From Stdlib Require Import List ZArith Lia Bool Arith Permutation Sorted.
From Stdlib Require Reals Lra.
From Stdlib Require Uint63 Floats.
Import ListNotations.

Set Implicit Arguments.

(** ** Tensor primitives *)
Module Tensor.

Abbreviation matrix A := (list (list A)) (only parsing).

(** [torch.full([r, c], x)] *)
Definition full {A} (r c : nat) (x : A) : matrix A := repeat (repeat x c) r.

(** [row.gather(-1, idx)]; every index list used below is in range. *)
Definition gather {A} (d : A) (row : list A) (idx : list nat) : list A :=
  map (fun i => nth i row d) idx.

Fixpoint map2 {A B C} (f : A -> B -> C) (l : list A) (m : list B) : list C :=
  match l, m with
  | a :: l', b :: m' => f a b :: map2 f l' m'
  | _, _ => []
  end.

(** In-place write of one cell. *)
Fixpoint upd {A} (i : nat) (x : A) (l : list A) : list A :=
  match l, i with
  | [], _ => []
  | _ :: t, O => x :: t
  | y :: t, S i' => y :: upd i' x t
  end.

(** [m[r, c] = x]; an index out of range raises. *)
Definition set2 {A} (m : matrix A) (r c : nat) (x : A) : option (matrix A) :=
  match nth_error m r with
  | Some row => if c <? length row then Some (upd r (upd c x row) m) else None
  | None => None
  end.

(** [m[rows, cols] = vals], the writes taken in order; a cell written
    twice keeps the later value, which matters only for batches that
    [batch_ok] below excludes. *)
Fixpoint index_put {A} (m : matrix A) (rows cols : list nat) (vals : list A)
  : option (matrix A) :=
  match rows, cols, vals with
  | [], [], [] => Some m
  | r :: rs, c :: cs, v :: vs =>
      match set2 m r c v with
      | Some m' => index_put m' rs cs vs
      | None => None
      end
  | _, _, _ => None
  end.

(** A value tensor with a single element is broadcast over the indices. *)
Definition broadcast {A} (n : nat) (vals : list A) : list A :=
  match vals with
  | [v] => repeat v n
  | _ => vals
  end.

(** [t[idx]] for a tensor of rank one; an index out of range raises. *)
Fixpoint index_select {A} (t : list A) (idx : list nat) : option (list A) :=
  match idx with
  | [] => Some []
  | i :: idx' =>
      match nth_error t i, index_select t idx' with
      | Some x, Some r => Some (x :: r)
      | _, _ => None
      end
  end.

(** [buf[msk] = f(buf[msk], tmp)]: the rows selected by the mask, in
    order, are paired with the rows of [tmp], in order. *)
Fixpoint masked_update {A B} (f : A -> B -> A) (buf : list A)
  (msk : list bool) (tmp : list B) : list A :=
  match buf, msk with
  | row :: buf', true :: msk' =>
      match tmp with
      | t :: tmp' => f row t :: masked_update f buf' msk' tmp'
      | [] => row :: masked_update f buf' msk' []
      end
  | row :: buf', false :: msk' => row :: masked_update f buf' msk' tmp
  | _, _ => buf
  end.

(** [msk.sum()] *)
Definition mask_sum (msk : list bool) : nat := length (filter (fun b => b) msk).

(** 32-bit two's complement. *)
Definition wrap32 (z : Z) : Z := ((z + 2 ^ 31) mod 2 ^ 32 - 2 ^ 31)%Z.

(** [acc.scatter_add(0, idx, src)] on [torch.int] tensors. *)
Fixpoint scatter_add (acc : list Z) (idx : list nat) (src : list Z)
  : option (list Z) :=
  match idx with
  | [] => Some acc
  | i :: idx' =>
      match src with
      | [] => None
      | v :: src' =>
          if i <? length acc
          then scatter_add (upd i (wrap32 (nth i acc 0%Z + v)) acc) idx' src'
          else None
      end
  end.

(** [t.unique(return_counts=True)]: the distinct values in ascending
    order, each with its number of occurrences. *)
Fixpoint insert_count (x : Z) (l : list (Z * nat)) : list (Z * nat) :=
  match l with
  | [] => [(x, 1)]
  | (y, c) :: t =>
      if (x <? y)%Z then (x, 1) :: l
      else if (x =? y)%Z then (y, S c) :: t
      else (y, c) :: insert_count x t
  end.

Definition unique_counts (l : list Z) : list (Z * nat) :=
  fold_right insert_count [] l.

Definition unique (l : list Z) : list Z := map fst (unique_counts l).

End Tensor.
Import Tensor.

(** ** The ranker *)
Module Ranker.

(** A score by kind: [-inf], a finite number, [+inf], not a number.
    An integer stands for each finite float: the ranker only compares
    scores.  [-torch.inf], the filling of the score buffers, is [NInf]. *)
Inductive score : Type :=
| NInf
| Fin (z : Z)
| PInf
| NaN.

(** The value of a label cell. *)
Abbreviation label := Z (only parsing).

(** [a <= b] in the order [torch.sort] and [torch.topk] go by, which
    put NaN above every number. *)
Definition sle (a b : score) : bool :=
  match a, b with
  | NInf, _ => true
  | _, NaN => true
  | Fin x, Fin y => (x <=? y)%Z
  | Fin _, PInf => true
  | PInf, PInf => true
  | _, _ => false
  end.

(** What PyTorch leaves open. *)
Class Backend : Type := {
  (** [row.argsort(descending=True)] *)
  argsort : list score -> list nat;
  (** the index part of [torch.topk(row, k, sorted=False)] *)
  topk : nat -> list score -> list nat;
  (** the contents of cell [(r, c)] of the [n]-th [torch.empty] tensor *)
  empty_cell : nat -> nat -> nat -> label
}.

(** [torch.empty(r, c)], the [n]-th allocation of the run. *)
Definition torch_empty `{Backend} (n r c : nat) : matrix label :=
  map (fun i => map (fun j => empty_cell n i j) (seq 0 c)) (seq 0 r).

(** One element of the loader, with the scores [pred_fn] gives it. *)
Record batch : Type := {
  n_id : list Z;            (* batch[src_node].n_id *)
  src_idx : list nat;       (* batch[edge_type].edge_label_index[0] *)
  edge_label : list label;  (* batch[edge_type].edge_label *)
  edge_score : list score   (* pred_fn(module, batch, ...) *)
}.

Record state : Type := {
  scr_buf : matrix score;
  lbl_buf : matrix label;
  pos_cnt : list Z
}.

Definition init_state `{Backend} (gbl_cnt at_k : nat) : state :=
  {| scr_buf := full gbl_cnt (2 * at_k) NInf;
     lbl_buf := torch_empty 0 gbl_cnt (2 * at_k);
     pos_cnt := repeat 0%Z gbl_cnt |}.

Definition gbl_mask (gbl_uid src_uid : list Z) : list bool :=
  map (fun g => existsb (Z.eqb g) src_uid) gbl_uid.

(** [t.max()]; the maximum of an empty tensor raises. *)
Definition tensor_max (l : list nat) : option nat :=
  match l with
  | [] => None
  | _ :: _ => Some (list_max l)
  end.

(** What one batch contributes, before it touches the buffers: the mask
    of its entities, its own top-k scores and labels, and its positives
    per entity. *)
Record local : Type := {
  gbl_msk : list bool;
  scr_top : matrix score;
  lbl_top : matrix label;
  pos_add : list Z
}.

(** The batch-local part of the loop body (lines 93-135 and the
    [scatter_add] of lines 147-154); [t] counts the batches done.
    [map wrap32] is [edge_label.int()] on an integer tensor. *)
Definition batch_local `{Backend} (gbl_uid : list Z) (at_k : nat) (t : nat)
  (b : batch) : option local :=
  match index_select (n_id b) (src_idx b) with
  | None => None
  | Some src_ids =>
      let uc := unique_counts src_ids in
      let src_uid := map fst uc in
      let uid_cnt := map snd uc in
      let gbl_msk := gbl_mask gbl_uid src_uid in
      let row_cnt := mask_sum gbl_msk in
      match tensor_max uid_cnt with
      | None => None
      | Some cnt_max =>
          let col_cnt := Nat.max at_k cnt_max in
          let scr_tmp := full row_cnt col_cnt NInf in
          let lbl_tmp := torch_empty (S t) row_cnt col_cnt in
          let col_idx := concat (map (seq 0) uid_cnt) in
          let n := length (src_idx b) in
          match index_put scr_tmp (src_idx b) col_idx
                  (broadcast n (edge_score b)),
                index_put lbl_tmp (src_idx b) col_idx
                  (broadcast n (edge_label b)),
                scatter_add (repeat 0%Z row_cnt) (src_idx b)
                  (map wrap32 (edge_label b)) with
          | Some scr_tmp, Some lbl_tmp, Some add =>
              let top_idx := map (topk at_k) scr_tmp in
              Some {| gbl_msk := gbl_msk;
                      scr_top := map2 (gather NInf) scr_tmp top_idx;
                      lbl_top := map2 (gather 0%Z) lbl_tmp top_idx;
                      pos_add := add |}
          | _, _, _ => None
          end
      end
  end.

(** The update of the buffers (lines 137-154): the batch's top-k goes to
    the second half of the rows of its entities, every row is sorted, and
    the positives are added to the counts of its entities. *)
Definition merge `{Backend} (at_k : nat) (st : state) (loc : local) : state :=
  let scr1 := masked_update (fun row t => firstn at_k row ++ t)
                (scr_buf st) (gbl_msk loc) (scr_top loc) in
  let lbl1 := masked_update (fun row t => firstn at_k row ++ t)
                (lbl_buf st) (gbl_msk loc) (lbl_top loc) in
  let buf_idx := map argsort scr1 in
  {| scr_buf := map2 (gather NInf) scr1 buf_idx;
     lbl_buf := map2 (gather 0%Z) lbl1 buf_idx;
     pos_cnt := masked_update (fun p a => wrap32 (p + a))
                  (pos_cnt st) (gbl_msk loc) (pos_add loc) |}.

(** The body of the loop over the loader. *)
Definition rank_step `{Backend} (gbl_uid : list Z) (at_k : nat) (t : nat)
  (st : state) (b : batch) : option state :=
  match batch_local gbl_uid at_k t b with
  | Some loc => Some (merge at_k st loc)
  | None => None
  end.

Fixpoint rank_loop `{Backend} (gbl_uid : list Z) (at_k : nat) (t : nat)
  (st : state) (loader : list batch) : option state :=
  match loader with
  | [] => Some st
  | b :: rest =>
      match rank_step gbl_uid at_k t st b with
      | Some st' => rank_loop gbl_uid at_k (S t) st' rest
      | None => None
      end
  end.

(** The registry: [loader.data[edge_type].edge_label_index[0].unique()]. *)
Definition registry (data_src : list Z) : list Z := unique data_src.

Definition rank_state `{Backend} (data_src : list Z) (loader : list batch)
  (at_k : nat) : option state :=
  let gbl_uid := registry data_src in
  rank_loop gbl_uid at_k 0 (init_state (length gbl_uid) at_k) loader.

(** [rank]: the pair [(lbl_buf, pos_cnt)]. *)
Definition rank `{Backend} (data_src : list Z) (loader : list batch)
  (at_k : nat) : option (matrix label * list Z) :=
  match rank_state data_src loader at_k with
  | Some st => Some (lbl_buf st, pos_cnt st)
  | None => None
  end.

(** *** Two backends

    Both sort by insertion.  [stable_backend] keeps equal scores in index
    order, as [torch.sort(stable=True)] does; [reverse_backend] puts the
    larger index first among equal scores, which [stable=False] allows. *)

Fixpoint insert_by (goes_after : nat -> nat -> bool) (i : nat) (l : list nat)
  : list nat :=
  match l with
  | [] => [i]
  | j :: t => if goes_after i j then j :: insert_by goes_after i t else i :: l
  end.

Definition argsort_by (goes_after : list score -> nat -> nat -> bool)
  (row : list score) : list nat :=
  fold_right (insert_by (goes_after row)) [] (seq 0 (length row)).

Definition after_stable (row : list score) (i j : nat) : bool :=
  negb (sle (nth j row NInf) (nth i row NInf)).

Definition after_reverse (row : list score) (i j : nat) : bool :=
  sle (nth i row NInf) (nth j row NInf).

Definition argsort_stable := argsort_by after_stable.
Definition argsort_reverse := argsort_by after_reverse.

Definition stable_backend (mem : nat -> nat -> nat -> label) : Backend :=
  {| argsort := argsort_stable;
     topk := fun k row => firstn k (argsort_stable row);
     empty_cell := mem |}.

Definition reverse_backend (mem : nat -> nat -> nat -> label) : Backend :=
  {| argsort := argsort_reverse;
     topk := fun k row => firstn k (argsort_reverse row);
     empty_cell := mem |}.

(** *** What the stream holds for one entity *)

(** The scores of a tensor whose elements are all finite. *)
Fixpoint finite_scores (l : list score) : option (list Z) :=
  match l with
  | [] => Some []
  | Fin z :: t =>
      match finite_scores t with
      | Some zs => Some (z :: zs)
      | None => None
      end
  | _ :: _ => None
  end.

(** The scores of a batch, when every one of them is finite. *)
Definition score_vals (b : batch) : list Z :=
  match finite_scores (edge_score b) with
  | Some zs => zs
  | None => []
  end.

(** The triples of a batch with finite scores: entity id, score, label. *)
Definition triples (b : batch) : list (Z * (Z * label)) :=
  match index_select (n_id b) (src_idx b) with
  | Some src_ids => combine src_ids (combine (score_vals b) (edge_label b))
  | None => []
  end.

(** The scored items of entity [id] in batch [b], in encounter order. *)
Definition batch_items (b : batch) (id : Z) : list (Z * label) :=
  map snd (filter (fun t => (fst t =? id)%Z) (triples b)).

(** The scored items of entity [id] in the whole stream. *)
Definition seen (loader : list batch) (id : Z) : list (Z * label) :=
  flat_map (fun b => batch_items b id) loader.

(** The labels of the triples of entity [id] in batch [b], whatever
    their scores are. *)
Definition batch_labels (b : batch) (id : Z) : list label :=
  match index_select (n_id b) (src_idx b) with
  | Some src_ids =>
      map snd (filter (fun t => (fst t =? id)%Z)
                 (combine src_ids (edge_label b)))
  | None => []
  end.

(** The labels of the triples of entity [id] in the whole stream. *)
Definition seen_labels (loader : list batch) (id : Z) : list label :=
  flat_map (fun b => batch_labels b id) loader.

(** *** The batches the loop is written for *)

(** Each index is the previous one or its successor. *)
Fixpoint steps (r : nat) (l : list nat) : bool :=
  match l with
  | [] => true
  | x :: t => ((x =? r) || (x =? S r)) && steps x t
  end.

(** The source indices are [0..m-1], each a contiguous group, in order. *)
Definition compact_grouped (l : list nat) : bool :=
  match l with
  | [] => false
  | x :: t => (x =? 0) && steps 0 t
  end.

Fixpoint ascending (l : list Z) : bool :=
  match l with
  | x :: (y :: _) as t => (x <? y)%Z && ascending t
  | _ => true
  end.

(** The number of distinct source indices of a compact batch. *)
Definition active_count (b : batch) : nat := S (list_max (src_idx b)).

(** The ids of the local source nodes [0..m-1]. *)
Definition active_ids (b : batch) : list Z := firstn (active_count b) (n_id b).

(** The score is a finite number. *)
Definition finite (s : score) : bool :=
  match s with
  | Fin _ => true
  | _ => false
  end.

(** The source indices are [0..m-1] in contiguous groups, the ids of
    these nodes are ascending and registered, and there is one finite
    score and one label per triple. *)
Definition batch_ok (gbl_uid : list Z) (b : batch) : bool :=
  compact_grouped (src_idx b)
  && (active_count b <=? length (n_id b))
  && ascending (active_ids b)
  && forallb (fun g => existsb (Z.eqb g) gbl_uid) (active_ids b)
  && (length (edge_score b) =? length (src_idx b))
  && (length (edge_label b) =? length (src_idx b))
  && forallb finite (edge_score b).

(** *** The batches whose rows are aligned

    What the counts need of a batch is less: the source indices are
    [0..m-1] in any order, the triples of an entity need not be next to
    each other, and the scores may be anything. *)

(** Every index up to the largest occurs. *)
Definition covers (l : list nat) : bool :=
  match l with
  | [] => false
  | _ :: _ => forallb (fun r => existsb (Nat.eqb r) l) (seq 0 (S (list_max l)))
  end.

Definition rows_ok (gbl_uid : list Z) (b : batch) : bool :=
  covers (src_idx b)
  && (active_count b <=? length (n_id b))
  && ascending (active_ids b)
  && forallb (fun g => existsb (Z.eqb g) gbl_uid) (active_ids b)
  && ((length (edge_score b) =? length (src_idx b))
      || (length (edge_score b) =? 1))
  && (length (edge_label b) =? length (src_idx b)).

End Ranker.
Import Ranker.

(** ** Notions the proofs about the ranker use *)
Module RankerProps.

(** A row of scores in descending order. *)
Definition desc (l : list score) : Prop :=
  StronglySorted (fun a b => sle b a = true) l.

(** A cell of the score buffer with the cell of the label buffer at the
    same place. *)
Abbreviation entry := (score * label)%type (only parsing).

Definition desc_entries (l : list entry) : Prop :=
  StronglySorted (fun a b => sle (fst b) (fst a) = true) l.

(** What PyTorch documents: [argsort] returns a permutation of the
    indices under which the row is in descending order; [topk] returns
    [k] distinct indices of the row such that no element left out is
    above an element taken. *)
Class BackendLaws (B : Backend) : Prop := {
  argsort_perm : forall row, Permutation (argsort row) (seq 0 (length row));
  argsort_desc : forall row, desc (gather NInf row (argsort row));
  topk_length : forall k row, k <= length row -> length (topk k row) = k;
  topk_nodup : forall k row, NoDup (topk k row);
  topk_range : forall k row i, In i (topk k row) -> i < length row;
  topk_best : forall k row i j,
    In i (topk k row) -> j < length row -> ~ In j (topk k row) ->
    sle (nth j row NInf) (nth i row NInf) = true
}.

(** An entry that no item of the stream wrote. *)
Definition pad (x : entry) : Prop := fst x = NInf.

(** The entry an item of the stream makes. *)
Definition real (it : Z * label) : entry := (Fin (fst it), snd it).

(** No entry of [rest] is above an entry of the first [K] of [row]. *)
Definition below (K : nat) (rest row : list entry) : Prop :=
  forall x, In x rest -> forall y, In y (firstn K row) ->
  sle (fst x) (fst y) = true.

(** The row and what it has dropped ([rest]) are the items [A] and
    padding, and nothing dropped is above the first [K] of the row. *)
Definition holds (K : nat) (A : list (Z * label)) (row : list entry) : Prop :=
  exists rest pads,
    Permutation (row ++ rest) (map real A ++ pads)
    /\ Forall pad pads /\ below K rest row.

(** The invariant of one row of the buffers after the items [A]. *)
Record row_ok (K : nat) (A : list (Z * label)) (srow : list score)
  (lrow : list label) : Prop := {
  row_scr_length : length srow = 2 * K;
  row_lbl_length : length lrow = 2 * K;
  row_desc : desc srow;
  row_holds : holds K A (combine srow lrow)
}.

(** [T] is a choice of [K] entries among the items [B] and padding, and
    nothing left out is above an entry chosen. *)
Definition selection (K : nat) (B : list (Z * label)) (T : list entry) : Prop :=
  length T = K /\
  exists unsel pads,
    Permutation (T ++ unsel) (map real B ++ pads)
    /\ Forall pad pads
    /\ forall x, In x unsel -> forall t, In t T -> sle (fst x) (fst t) = true.

(** The entry holds a finite score. *)
Definition is_fin (x : entry) : bool := finite (fst x).

(** The item behind an entry with a finite score. *)
Definition unreal (x : entry) : Z * label :=
  match fst x with
  | Fin z => (z, snd x)
  | _ => (0%Z, snd x)
  end.

(** The first [K] labels of [lrow] are the labels of [sel], the [K]
    highest-scored items of [A] (all of them when there are fewer) in
    descending order of score, followed by whatever fills the unused
    slots. *)
Definition top_labels (K : nat) (A : list (Z * label)) (lrow : list label)
  : Prop :=
  exists sel others filler,
    Permutation (sel ++ others) A
    /\ length sel = Nat.min K (length A)
    /\ StronglySorted (fun a b => (fst b <= fst a)%Z) sel
    /\ (forall x, In x others -> forall y, In y sel -> (fst x <= fst y)%Z)
    /\ firstn K lrow = map snd sel ++ filler.

(** [xs[0]] repeated [cnts[0]] times, then [xs[1]] repeated [cnts[1]]
    times, and so on. *)
Definition spread {A} (xs : list A) (cnts : list nat) : list A :=
  concat (map2 (fun x c => repeat x c) xs cnts).

(** A list cut into consecutive pieces of the given lengths. *)
Fixpoint chunks {A} (cnts : list nat) (l : list A) : list (list A) :=
  match cnts with
  | [] => []
  | c :: t => firstn c l :: chunks t (skipn c l)
  end.

(** Lookup by entity id. *)
Fixpoint assoc {V} (g : Z) (l : list (Z * V)) : option V :=
  match l with
  | [] => None
  | (k, v) :: t => if (g =? k)%Z then Some v else assoc g t
  end.

(** Ids in strictly ascending order, as [unique] returns them. *)
Definition asc (l : list Z) : Prop := StronglySorted Z.lt l.

(** The sum of a list of labels, unbounded. *)
Definition zsum (l : list Z) : Z := fold_right Z.add 0%Z l.

(** What the loop body does to the row of entity [g]: either the entity
    is not in the batch and the row is sorted again, or the second half
    of the row is replaced by a selection of the batch's items and the
    count grows by the labels of the batch. *)
Definition step_row `{Backend} (K : nat) (b : batch) (g : Z)
  (srow : list score) (lrow : list Z) (p : Z)
  (srow' : list score) (lrow' : list Z) (p' : Z) : Prop :=
  (~ In g (active_ids b)
   /\ batch_items b g = []
   /\ srow' = gather NInf srow (argsort srow)
   /\ lrow' = gather 0%Z lrow (argsort srow)
   /\ p' = p)
  \/ (In g (active_ids b)
      /\ exists st lt,
          length st = K /\ length lt = K
          /\ selection K (batch_items b g) (combine st lt)
          /\ srow' = gather NInf (firstn K srow ++ st)
                              (argsort (firstn K srow ++ st))
          /\ lrow' = gather 0%Z (firstn K lrow ++ lt)
                              (argsort (firstn K srow ++ st))
          /\ p' = wrap32 (p + wrap32 (zsum (map snd (batch_items b g))))).

(** The shape of a batch that passes [batch_ok], with the sizes of its
    groups made explicit. *)
Record batch_shape (gbl_uid : list Z) (b : batch) (cnts : list nat) : Prop := {
  bs_pos : Forall (lt 0) cnts;
  bs_ne : cnts <> [];
  bs_idx : src_idx b = spread (seq 0 (length cnts)) cnts;
  bs_nid : length cnts <= length (n_id b);
  bs_ids : active_ids b = firstn (length cnts) (n_id b);
  bs_asc : asc (active_ids b);
  bs_incl : incl (active_ids b) gbl_uid;
  bs_fin : edge_score b = map Fin (score_vals b);
  bs_scr : length (score_vals b) = list_sum cnts;
  bs_lbl : length (edge_label b) = list_sum cnts
}.

(** The temporary score rows of a compact batch: the scores of the
    group, then [-inf]. *)
Definition scr_rows (b : batch) (cnts : list nat) (col_cnt : nat)
  : list (list score) :=
  map2 (fun row ch => ch ++ skipn (length ch) row)
    (full (length cnts) col_cnt NInf)
    (chunks cnts (edge_score b)).

(** The temporary label rows: the labels of the group, then what the
    memory held. *)
Definition lbl_rows `{Backend} (t : nat) (b : batch) (cnts : list nat)
  (col_cnt : nat) : list (list Z) :=
  map2 (fun row ch => ch ++ skipn (length ch) row)
    (torch_empty (S t) (length cnts) col_cnt)
    (chunks cnts (edge_label b)).

(** The invariant of the loop: after the batches [done], the row of every
    registered entity holds the best of its items seen so far, and its
    count is the 32-bit sum of their labels. *)
Definition inv `{Backend} (gbl_uid : list Z) (K : nat) (done : list batch)
  (st : state) : Prop :=
  length (scr_buf st) = length gbl_uid
  /\ length (lbl_buf st) = length gbl_uid
  /\ length (pos_cnt st) = length gbl_uid
  /\ forall i g, nth_error gbl_uid i = Some g ->
       exists srow lrow,
         nth_error (scr_buf st) i = Some srow
         /\ nth_error (lbl_buf st) i = Some lrow
         /\ nth_error (pos_cnt st) i
            = Some (wrap32 (zsum (map snd (seen done g))))
         /\ row_ok K (seen done g) srow lrow.

(** The active set of a batch: [src_uid]. *)
Definition batch_uids (b : batch) : list Z :=
  match index_select (n_id b) (src_idx b) with
  | Some src_ids => unique src_ids
  | None => []
  end.

(** The number of triples with label 1 that the stream holds for [g]. *)
Definition positives (loader : list batch) (g : Z) : nat :=
  length (filter (Z.eqb 1) (seen_labels loader g)).

(** Every label of the batch is in the range of a 32-bit integer, where
    the cast of line 153 changes nothing. *)
Definition int32_labels (b : batch) : Prop :=
  Forall (fun l => (- 2 ^ 31 <= l < 2 ^ 31)%Z) (edge_label b).

(** The relevance labels of the batch are 0 or 1. *)
Definition binary_labels (b : batch) : Prop :=
  Forall (fun l => l = 0%Z \/ l = 1%Z) (edge_label b).


(** Every score row is sorted and as long as its label row. *)
Definition sorted_state (st : state) : Prop :=
  forall i srow lrow,
    nth_error (scr_buf st) i = Some srow ->
    nth_error (lbl_buf st) i = Some lrow ->
    desc srow /\ length lrow = length srow.

(** An [argsort] that keeps the order of equal elements leaves a sorted
    row as it is. *)
Definition keeps_sorted `{Backend} : Prop :=
  forall row, desc row -> argsort row = seq 0 (length row).

(** Column [j] of a row holds a score that no other column holds. *)
Definition untied (srow : list score) (j : nat) : Prop :=
  forall j', j' < length srow -> nth j' srow NInf = nth j srow NInf -> j' = j.

(** The keys of a count list are all above [x]. *)
Definition keys_above (x : Z) (l : list (Z * nat)) : Prop :=
  Forall (fun kv => (x < fst kv)%Z) l.

(** Addition on the 32-bit counter. *)
Definition wadd (acc v : Z) : Z := wrap32 (acc + v).

(** The source elements that [scatter_add] adds to cell [k]. *)
Definition picked {V} (k : nat) (idx : list nat) (src : list V) : list V :=
  map snd (filter (fun p => fst p =? k) (combine idx src)).


End RankerProps.
Import RankerProps.

(** ** The data of the examples *)
Module Examples.
Local Open Scope Z_scope.

(** Memory that holds zeros, and memory whose first column holds a one. *)
Definition zero_mem (n r c : nat) : Z := 0.
Definition one_mem (n r c : nat) : Z := if (c =? 0)%nat then 1 else 0.
Definition seven_mem (n r c : nat) : Z := 7.

(** The scenario of the specification, scores in tenths: entity 5 with
    the items 9/1, 7/0, 5/1, 2/1 in two batches of two. *)
Definition scenario_1 : batch :=
  {| n_id := [5]; src_idx := [0; 0]%nat;
     edge_label := [1; 0]; edge_score := [Fin 9; Fin 7] |}.
Definition scenario_2 : batch :=
  {| n_id := [5]; src_idx := [0; 0]%nat;
     edge_label := [1; 1]; edge_score := [Fin 5; Fin 2] |}.

(** Entity 1 with two items of equal score, then a batch of entity 2. *)
Definition tie_1 : batch :=
  {| n_id := [1]; src_idx := [0]%nat; edge_label := [1]; edge_score := [Fin 5] |}.
Definition tie_2 : batch :=
  {| n_id := [1]; src_idx := [0]%nat; edge_label := [0]; edge_score := [Fin 5] |}.
Definition other : batch :=
  {| n_id := [2]; src_idx := [0]%nat; edge_label := [1]; edge_score := [Fin 3] |}.

(** A batch whose only source index is not 0. *)
Definition sparse : batch :=
  {| n_id := [7; 9]; src_idx := [1]%nat;
     edge_label := [1]; edge_score := [Fin 4] |}.

(** A run in which the only entity has no positive item: the ranker
    reports the count 0, and the memory behind the unused label slot
    holds 0. *)
Definition no_positive_batch : batch :=
  {| n_id := [5]; src_idx := [0]%nat; edge_label := [0]; edge_score := [Fin 3] |}.

End Examples.


(** ** The metric reducer *)

(** *** Recall and the mean, on IEEE-754 numbers

    What happens at a zero denominator is a matter of the floating-point
    special values, so [recall_score] and the mean of [composite] are
    embedded on binary floats ([torch] computes in binary32; the special
    values behave alike). *)
Module Reducer.
Import Ranker.

Definition float := PrimFloat.float.

(** Conversion of an integer tensor element (type promotion). *)
Definition of_Z (z : Z) : float :=
  match z with
  | Z0 => PrimFloat.zero
  | Zpos _ => PrimFloat.of_uint63 (Uint63.of_Z z)
  | Zneg _ => PrimFloat.opp (PrimFloat.of_uint63 (Uint63.of_Z (- z)))
  end.

(** [t.sum(dim=-1)] *)
Definition fsum (l : list float) : float :=
  fold_left PrimFloat.add l PrimFloat.zero.

(** [recall_score]: [score.sum(dim=-1) / total], for one row and one
    total per entity, as [rank] returns them. *)
Definition recall_score (score : matrix label) (total : list Z) : list float :=
  map2 (fun row t => PrimFloat.div (fsum (map of_Z row)) (of_Z t)) score total.

(** [t.mean()] *)
Definition mean (l : list float) : float :=
  PrimFloat.div (fsum l) (of_Z (Z.of_nat (length l))).

(** [composite]: one mean per score function, in the order given; the
    score functions are total. *)
Definition composite `{Backend} (data_src : list Z) (loader : list batch)
  (at_k : nat) (score_fns : list (matrix label -> list Z -> list float))
  : option (list float) :=
  match rank data_src loader at_k with
  | Some (labels, counts) =>
      Some (map (fun score_fn => mean (score_fn labels counts)) score_fns)
  | None => None
  end.

(** The value is not a number. *)
Definition is_nan (x : float) : Prop := FloatOps.Prim2SF x = SpecFloat.S754_nan.

End Reducer.

(** *** The discounted gain, on real numbers

    [ndcg_score] is embedded on the reals: the claims about it concern the
    formula, not rounding. *)
Module Gain.
Import Reals.
Local Open Scope R_scope.

Definition log2 (x : R) : R := ln x / ln 2.

(** [ndcg_coefs]: [log2(arange(count) + 2)]. *)
Definition ndcg_coefs (count : nat) : list R :=
  map (fun r => log2 (INR r + 2)) (seq 0 count).

Definition rsum (l : list R) : R := fold_right Rplus 0 l.

(** The [total] argument: a Python [int] or a tensor of counts. *)
Inductive total_arg : Type :=
| TotalInt (n : Z)
| TotalTensor (t : list Z).

(** Broadcasting of two tensors of rank one under a binary operation. *)
Definition bcast2 {A B C} (f : A -> B -> C) (l : list A) (m : list B)
  : option (list C) :=
  if length l =? length m then Some (map2 f l m)
  else match l, m with
       | [a], _ => Some (map (f a) m)
       | _, [b] => Some (map (fun a => f a b) l)
       | _, _ => None
       end.

(** [coefs.unsqueeze(-2).expand(batch, count)] *)
Definition expand_coefs (count : nat) (coefs : list R) : option (list R) :=
  if length coefs =? count then Some coefs
  else match coefs with
       | [c] => Some (repeat c count)
       | _ => None
       end.

(** One row of [terms.sum(-1)]: the mask [arange(count) < min(total, count)]
    times the coefficients, summed. *)
Definition norm_sum (count : nat) (coefs : list R) (t : Z) : R :=
  rsum (map2 (fun r c => if (Z.of_nat r <? Z.min t (Z.of_nat count))%Z
                         then c else 0)
          (seq 0 count) coefs).

(** One row of [(score / coefs).sum(-1)]. *)
Definition gain_sum (coefs : list R) (row : list R) : R :=
  rsum (map2 Rdiv row coefs).

(** The last dimension of [score.shape]; a matrix without rows stands
    for the tensor of shape [0, 0]. *)
Definition columns {A} (score : matrix A) : nat :=
  match score with
  | row :: _ => length row
  | [] => 0%nat
  end.

(** [ndcg_score]: [None] when the shapes do not broadcast.  The
    quotient is the real one, which stands for the value the code
    computes where the normaliser is not zero. *)
Definition ndcg_score (score : matrix R) (total : total_arg)
  (coefs : option (list R)) : option (list R) :=
  let count := columns score in
  let total := match total with
               | TotalInt _ => repeat (Z.of_nat count) count
               | TotalTensor t => t
               end in
  let coefs := match coefs with
               | Some c => c
               | None => ndcg_coefs count
               end in
  match expand_coefs count coefs with
  | Some coefs =>
      bcast2 Rdiv (map (gain_sum coefs) score)
                  (map (norm_sum count coefs) total)
  | None => None
  end.

(** The formula of the specification, for one entity: the discounted sum
    of the labels over the ideal sum for [p] positives and [K] slots. *)
Definition ndcg_formula (K : nat) (row : list R) (p : Z) : R :=
  rsum (map (fun r => nth r row 0 / log2 (INR r + 2)) (seq 0 K))
  / rsum (map (fun r => 1 / log2 (INR r + 2))
            (seq 0 (Nat.min (Z.to_nat p) K))).

(** The labels of a row are 0 or 1. *)
Definition binary (row : list R) : Prop := Forall (fun x => x = 0 \/ x = 1) row.

End Gain.

(** ** Batches at the edges *)
Module EdgeExamples.
Local Open Scope Z_scope.

(** A batch without triples. *)
Definition hollow : batch :=
  {| n_id := [5]; src_idx := []; edge_label := []; edge_score := [] |}.

(** A batch whose second source index has no node behind it. *)
Definition stray : batch :=
  {| n_id := [5]; src_idx := [0; 1]%nat;
     edge_label := [1; 0]; edge_score := [Fin 3; Fin 2] |}.

(** Two triples with a single label, and three triples with two
    scores. *)
Definition short_labels : batch :=
  {| n_id := [5]; src_idx := [0; 0]%nat;
     edge_label := [1]; edge_score := [Fin 9; Fin 7] |}.
Definition short_scores : batch :=
  {| n_id := [5]; src_idx := [0; 0; 0]%nat;
     edge_label := [1; 0; 1]; edge_score := [Fin 9; Fin 7] |}.

(** Two nodes whose ids are not ascending: source index 0 is entity 8,
    source index 1 is entity 3. *)
Definition crossed : batch :=
  {| n_id := [8; 3]; src_idx := [0; 1]%nat;
     edge_label := [1; 0]; edge_score := [Fin 5; Fin 4] |}.

(** The triples of entity 5 are not next to each other. *)
Definition ungrouped : batch :=
  {| n_id := [5; 6]; src_idx := [0; 1; 0]%nat;
     edge_label := [1; 0; 0]; edge_score := [Fin 9; Fin 4; Fin 7] |}.

(** The only item is scored [-inf]. *)
Definition minus_inf : batch :=
  {| n_id := [5]; src_idx := [0]%nat;
     edge_label := [1]; edge_score := [NInf] |}.


(** Labels whose sum leaves the range of the 32-bit counter. *)
Definition heavy : batch :=
  {| n_id := [5]; src_idx := [0; 0]%nat;
     edge_label := [2147483520; 128]; edge_score := [Fin 2; Fin 1] |}.

End EdgeExamples.

(** ** Facts about the tensor primitives *)
Module TensorFacts.

Lemma map2_length {A B C} (f : A -> B -> C) l : forall m,
  length (map2 f l m) = Nat.min (length l) (length m).
Proof.
  induction l as [| a l IH]; intros [| b m]; simpl; auto.
Qed.

Lemma nth_error_map2 {A B C} (f : A -> B -> C) l : forall m i a b,
  nth_error l i = Some a -> nth_error m i = Some b ->
  nth_error (map2 f l m) i = Some (f a b).
Proof.
  induction l as [| x l IH]; intros [| y m] [| i] a b Ha Hb;
    simpl in *; try discriminate.
  - congruence.
  - eauto.
Qed.

End TensorFacts.
Import TensorFacts.

(** ** Facts about the ranker *)
Module OrderFacts.

Lemma sle_refl a : sle a a = true.
Proof. destruct a; simpl; try reflexivity. apply Z.leb_refl. Qed.

Lemma sle_trans a b c : sle a b = true -> sle b c = true -> sle a c = true.
Proof.
  destruct a, b, c; simpl; try congruence.
  rewrite !Z.leb_le. lia.
Qed.

Lemma sle_total a b : sle a b = false -> sle b a = true.
Proof.
  destruct a, b; simpl; try congruence.
  rewrite Z.leb_gt, Z.leb_le. lia.
Qed.

Lemma sle_ninf a : sle NInf a = true.
Proof. reflexivity. Qed.

Lemma sle_fin_ninf z : sle (Fin z) NInf = false.
Proof. reflexivity. Qed.

Lemma strongly_sorted_app {A} (R : A -> A -> Prop) l1 : forall l2,
  StronglySorted R (l1 ++ l2) ->
  StronglySorted R l1 /\ StronglySorted R l2
  /\ forall a b, In a l1 -> In b l2 -> R a b.
Proof.
  induction l1 as [| x l1 IH]; intros l2 H; simpl in *.
  - repeat split; [constructor | assumption | contradiction].
  - apply StronglySorted_inv in H. destruct H as [Hs Hall].
    destruct (IH _ Hs) as [H1 [H2 H12]].
    rewrite Forall_app in Hall. destruct Hall as [Hx1 Hx2].
    repeat split.
    + constructor; assumption.
    + assumption.
    + intros a b [<- | Ha] Hb.
      * rewrite Forall_forall in Hx2. auto.
      * auto.
Qed.

Lemma desc_entries_combine srow : forall lrow,
  desc srow -> desc_entries (combine srow lrow).
Proof.
  unfold desc, desc_entries.
  induction srow as [| s srow IH]; intros [| l lrow] H; simpl;
    try constructor.
  - apply IH. apply StronglySorted_inv in H. tauto.
  - apply StronglySorted_inv in H. destruct H as [_ Hall].
    rewrite Forall_forall in *. intros [s' l'] Hin. simpl.
    apply Hall. eapply in_combine_l, Hin.
Qed.

Lemma permutation_filter {A} (f : A -> bool) l l' :
  Permutation l l' -> Permutation (filter f l) (filter f l').
Proof.
  induction 1 as [| x l l' _ IH | x y l | l l' l'' _ IH1 _ IH2]; simpl.
  - constructor.
  - destruct (f x); [constructor |]; assumption.
  - destruct (f x), (f y); try reflexivity. constructor.
  - etransitivity; eassumption.
Qed.

Lemma filter_all {A} (f : A -> bool) l :
  (forall x, In x l -> f x = true) -> filter f l = l.
Proof.
  induction l as [| x l IH]; intros H; simpl; [reflexivity |].
  rewrite (H x) by (left; reflexivity). f_equal. apply IH.
  intros y Hy. apply H. right. assumption.
Qed.

Lemma filter_none {A} (f : A -> bool) l :
  (forall x, In x l -> f x = false) -> filter f l = [].
Proof.
  induction l as [| x l IH]; intros H; simpl; [reflexivity |].
  rewrite (H x) by (left; reflexivity). apply IH.
  intros y Hy. apply H. right. assumption.
Qed.

Lemma filter_length_le {A} (f : A -> bool) l :
  length (filter f l) <= length l.
Proof.
  induction l as [| x l IH]; simpl; [lia |]. destruct (f x); simpl; lia.
Qed.

Lemma filter_drops {A} (f : A -> bool) l y :
  In y l -> f y = false -> length (filter f l) < length l.
Proof.
  induction l as [| x l IH]; intros Hin Hy; [contradiction |].
  simpl. destruct Hin as [-> | Hin].
  - rewrite Hy. pose proof (filter_length_le f l). lia.
  - specialize (IH Hin Hy). destruct (f x); simpl; lia.
Qed.

(** The counting argument of the merge: whatever is below [K] entries of
    a sorted row is below each of its first [K] entries. *)
Lemma below_first_k (s T T' : list entry) K x :
  desc_entries s -> Permutation s (T ++ T') -> length T = K ->
  (forall t, In t T -> sle x (fst t) = true) ->
  forall y, In y (firstn K s) -> sle x (fst y) = true.
Proof.
  intros Hs Hperm HT Hx y Hy.
  destruct (sle x (fst y)) eqn:Hxy; [reflexivity | exfalso].
  set (above := fun t : entry => negb (sle (fst t) (fst y))).
  rewrite <- (firstn_skipn K s) in Hs, Hperm.
  apply strongly_sorted_app in Hs. destruct Hs as [_ [_ Hcross]].
  assert (Hlow : filter above (skipn K s) = []).
  { apply filter_none. intros z Hz. unfold above.
    rewrite (Hcross y z Hy Hz). reflexivity. }
  assert (Htop : length (filter above (firstn K s)) < K).
  { eapply Nat.lt_le_trans.
    - apply (filter_drops above _ y Hy). unfold above.
      rewrite sle_refl. reflexivity.
    - rewrite length_firstn. lia. }
  assert (HT' : filter above T = T).
  { apply filter_all. intros t Ht. unfold above.
    destruct (sle (fst t) (fst y)) eqn:Hty; [| reflexivity].
    rewrite (sle_trans _ _ _ (Hx t Ht) Hty) in Hxy. discriminate. }
  apply (permutation_filter above) in Hperm.
  apply Permutation_length in Hperm.
  rewrite !filter_app, !length_app, Hlow, HT' in Hperm. simpl in Hperm. lia.
Qed.

End OrderFacts.

Module MergeFacts.
Import OrderFacts.

Lemma gather_length {A} (d : A) row idx : length (gather d row idx) = length idx.
Proof. apply length_map. Qed.

Lemma gather_seq {A} (d : A) row : gather d row (seq 0 (length row)) = row.
Proof.
  unfold gather. induction row as [| x row IH]; simpl; [reflexivity |].
  f_equal. rewrite <- seq_shift, map_map. exact IH.
Qed.

Lemma gather_perm {A} (d : A) row idx :
  Permutation idx (seq 0 (length row)) -> Permutation (gather d row idx) row.
Proof.
  intros H. rewrite <- (gather_seq d row) at 2.
  apply Permutation_map. assumption.
Qed.

Lemma combine_gather {A B} (da : A) (db : B) s l idx :
  length s = length l ->
  combine (gather da s idx) (gather db l idx)
  = gather (da, db) (combine s l) idx.
Proof.
  intros Hlen. unfold gather. induction idx as [| i idx IH]; simpl.
  - reflexivity.
  - rewrite IH, combine_nth by assumption. reflexivity.
Qed.

Lemma combine_app {A B} (l1 : list A) : forall (m1 : list B) l2 m2,
  length l1 = length m1 ->
  combine (l1 ++ l2) (m1 ++ m2) = combine l1 m1 ++ combine l2 m2.
Proof.
  induction l1 as [| a l1 IH]; intros [| b m1] l2 m2 H; simpl in *;
    try discriminate; [reflexivity |].
  f_equal. apply IH. lia.
Qed.

Lemma map_snd_combine {A B} (l : list A) : forall (m : list B),
  length l = length m -> map snd (combine l m) = m.
Proof.
  induction l as [| a l IH]; intros [| b m] H; simpl in *;
    try discriminate; [reflexivity |].
  f_equal. apply IH. lia.
Qed.

Section Resort.
Context `{B : Backend} {L : BackendLaws B}.

Lemma argsort_length row : length (argsort row) = length row.
Proof.
  rewrite (Permutation_length (argsort_perm row)). apply length_seq.
Qed.

(** Sorting a row whose halves dominate [rest] keeps [rest] below the
    new first half. *)
Lemma resort_below K (T1 T2 rest s : list entry) :
  desc_entries s -> Permutation s (T1 ++ T2) ->
  length T1 = K -> length T2 = K ->
  (forall x, In x rest ->
     (forall t, In t T1 -> sle (fst x) (fst t) = true)
     \/ (forall t, In t T2 -> sle (fst x) (fst t) = true)) ->
  below K rest s.
Proof.
  intros Hs Hperm H1 H2 Hrest x Hx y Hy.
  destruct (Hrest x Hx) as [Hdom | Hdom].
  - eapply below_first_k; eassumption.
  - eapply below_first_k with (T := T2) (T' := T1); try eassumption.
    rewrite Hperm. apply Permutation_app_comm.
Qed.

(** The sorted row, as a list of entries. *)
Lemma sorted_entries srow lrow :
  length srow = length lrow ->
  let idx := argsort srow in
  let s := combine (gather NInf srow idx) (gather 0%Z lrow idx) in
  desc_entries s /\ Permutation s (combine srow lrow).
Proof.
  intros Hlen idx s. split.
  - apply desc_entries_combine, argsort_desc.
  - unfold s. rewrite combine_gather by assumption.
    apply gather_perm. rewrite length_combine, <- Hlen, Nat.min_id.
    apply argsort_perm.
Qed.

(** An entity that is not in the batch: its row is sorted again. *)
Lemma row_resort K A srow lrow :
  row_ok K A srow lrow ->
  row_ok K A (gather NInf srow (argsort srow))
             (gather 0%Z lrow (argsort srow)).
Proof.
  intros [Hs Hl Hd [rest [pads [Hperm [Hpads Hbelow]]]]].
  assert (Hlen : length srow = length lrow) by lia.
  destruct (sorted_entries srow lrow Hlen) as [Hds Hps].
  constructor.
  - rewrite gather_length, argsort_length. assumption.
  - rewrite gather_length, argsort_length. assumption.
  - apply argsort_desc.
  - exists rest, pads. split; [| split; [assumption |]].
    + rewrite Hps. assumption.
    + set (w := combine srow lrow) in *.
      apply resort_below with (T1 := firstn K w) (T2 := skipn K w);
        try assumption.
      * rewrite firstn_skipn. assumption.
      * rewrite length_firstn. unfold w. rewrite length_combine. lia.
      * rewrite length_skipn. unfold w. rewrite length_combine. lia.
      * intros x Hx. left. intros t Ht. apply (Hbelow x Hx t Ht).
Qed.

(** An entity of the batch: the second half of its row is replaced by a
    selection of [K] entries of the batch, then the row is sorted. *)
Lemma row_merge K A Bt srow lrow st lt :
  row_ok K A srow lrow ->
  length st = K -> length lt = K ->
  selection K Bt (combine st lt) ->
  let srow1 := firstn K srow ++ st in
  let lrow1 := firstn K lrow ++ lt in
  row_ok K (A ++ Bt) (gather NInf srow1 (argsort srow1))
                     (gather 0%Z lrow1 (argsort srow1)).
Proof.
  intros [Hs Hl Hd [rest [pads [Hperm [Hpads Hbelow]]]]] Hst Hlt
    [_ [unsel [padsB [HpermB [HpadsB HbelowB]]]]] srow1 lrow1.
  assert (Hf1 : length (firstn K srow) = K) by (rewrite length_firstn; lia).
  assert (Hf2 : length (firstn K lrow) = K) by (rewrite length_firstn; lia).
  assert (Hlen1 : length srow1 = length lrow1)
    by (unfold srow1, lrow1; rewrite !length_app; lia).
  destruct (sorted_entries srow1 lrow1 Hlen1) as [Hds Hps].
  set (w := combine srow lrow) in *.
  set (T2 := combine st lt) in *.
  assert (Hw1 : combine srow1 lrow1 = firstn K w ++ T2).
  { unfold srow1, lrow1. rewrite combine_app by lia.
    unfold w. rewrite combine_firstn. reflexivity. }
  rewrite Hw1 in Hps.
  pose proof (desc_entries_combine lrow Hd) as Hdw. fold w in Hdw.
  rewrite <- (firstn_skipn K w) in Hdw.
  apply strongly_sorted_app in Hdw. destruct Hdw as [_ [_ Hcross]].
  constructor.
  - rewrite gather_length, argsort_length. unfold srow1.
    rewrite length_app. lia.
  - rewrite gather_length, argsort_length. unfold srow1.
    rewrite length_app. lia.
  - apply argsort_desc.
  - exists (rest ++ skipn K w ++ unsel), (pads ++ padsB).
    split; [| split].
    + rewrite Hps, map_app.
      transitivity (((firstn K w ++ skipn K w) ++ rest) ++ (T2 ++ unsel)).
      * rewrite <- !app_assoc.
        apply Permutation_app_head.
        rewrite (Permutation_app_swap_app T2 rest).
        rewrite (Permutation_app_swap_app (skipn K w) rest).
        apply Permutation_app_head.
        apply Permutation_app_swap_app.
      * rewrite firstn_skipn, Hperm, HpermB, <- !app_assoc.
        apply Permutation_app_head.
        apply Permutation_app_swap_app.
    + apply Forall_app. split; assumption.
    + apply resort_below with (T1 := firstn K w) (T2 := T2);
        try assumption.
      * rewrite length_firstn. unfold w. rewrite length_combine. lia.
      * unfold T2. rewrite length_combine. lia.
      * intros x Hx. apply in_app_or in Hx. destruct Hx as [Hx | Hx];
          [| apply in_app_or in Hx; destruct Hx as [Hx | Hx]].
        -- left. intros t Ht. apply (Hbelow x Hx t Ht).
        -- left. intros t Ht. apply (Hcross t x Ht Hx).
        -- right. intros t Ht. apply (HbelowB x Hx t Ht).
Qed.

End Resort.
End MergeFacts.

Module ReadoutFacts.
Import OrderFacts MergeFacts.

Lemma unreal_real it : unreal (real it) = it.
Proof. destruct it. reflexivity. Qed.

Lemma map_unreal_real A : map unreal (map real A) = A.
Proof.
  rewrite map_map. rewrite <- (map_id A) at 2.
  apply map_ext. apply unreal_real.
Qed.

Lemma is_fin_real it : is_fin (real it) = true.
Proof. reflexivity. Qed.

Lemma pad_not_fin x : pad x -> is_fin x = false.
Proof. unfold pad, is_fin. intros ->. reflexivity. Qed.

(** Rows and what they drop hold items and padding, nothing else. *)
Lemma item_or_pad (w : list entry) A pads x :
  Permutation w (map real A ++ pads) -> Forall pad pads -> In x w ->
  is_fin x = true \/ pad x.
Proof.
  intros Hperm Hpads Hx. apply (Permutation_in _ Hperm) in Hx.
  apply in_app_or in Hx. destruct Hx as [Hx | Hx].
  - left. apply in_map_iff in Hx. destruct Hx as [it [<- _]]. reflexivity.
  - right. rewrite Forall_forall in Hpads. apply Hpads, Hx.
Qed.

Lemma below_pad_not_fin x y :
  is_fin y = true \/ pad y ->
  sle (fst x) (fst y) = true -> is_fin y = false -> is_fin x = false.
Proof.
  unfold is_fin, pad. intros [Hy | Hy] Hle Hn; [congruence |].
  rewrite Hy in Hle. destruct (fst x); simpl in *; congruence.
Qed.

Lemma sle_unreal x y :
  is_fin x = true -> is_fin y = true -> sle (fst x) (fst y) = true ->
  (fst (unreal x) <= fst (unreal y))%Z.
Proof.
  unfold is_fin, unreal. destruct (fst x), (fst y); simpl; try congruence.
  intros _ _ H. apply Z.leb_le. assumption.
Qed.

(** In a sorted row of items and padding the items come first. *)
Lemma fin_prefix (w : list entry) :
  (forall x, In x w -> is_fin x = true \/ pad x) ->
  desc_entries w ->
  exists r, r <= length w
    /\ (forall x, In x (firstn r w) -> is_fin x = true)
    /\ (forall x, In x (skipn r w) -> is_fin x = false).
Proof.
  induction w as [| x w IH]; intros Hk Hd.
  - exists 0. simpl. repeat split; [lia | contradiction | contradiction].
  - apply StronglySorted_inv in Hd. destruct Hd as [Hd Hall].
    assert (Hk' : forall y, In y w -> is_fin y = true \/ pad y)
      by (intros y Hy; apply Hk; right; assumption).
    destruct (is_fin x) eqn:Hx.
    + destruct (IH Hk' Hd) as [r [Hr [Hfin Hpad]]]. exists (S r). simpl.
      repeat split; [lia | | assumption].
      intros y [<- | Hy]; auto.
    + exists 0. simpl. repeat split; [lia | contradiction |].
      intros y [<- | Hy]; [assumption |].
      rewrite Forall_forall in Hall.
      eapply below_pad_not_fin;
        [apply Hk; left; reflexivity | apply Hall, Hy | assumption].
Qed.

Lemma filter_fin_real_pads A pads :
  Forall pad pads -> filter is_fin (map real A ++ pads) = map real A.
Proof.
  intros Hp. rewrite filter_app.
  rewrite (filter_all is_fin (map real A)).
  - rewrite filter_none; [apply app_nil_r |].
    rewrite Forall_forall in Hp. intros x Hx. apply pad_not_fin, Hp, Hx.
  - intros x Hx. apply in_map_iff in Hx. destruct Hx as [it [<- _]].
    reflexivity.
Qed.

Lemma sorted_unreal (l : list entry) :
  desc_entries l -> (forall x, In x l -> is_fin x = true) ->
  StronglySorted (fun a b => (fst b <= fst a)%Z) (map unreal l).
Proof.
  induction l as [| x l IH]; intros Hd Hfin; simpl; constructor.
  - apply StronglySorted_inv in Hd. apply IH; [tauto |].
    intros y Hy. apply Hfin. right. assumption.
  - apply StronglySorted_inv in Hd. destruct Hd as [_ Hall].
    rewrite Forall_forall in *. intros y' Hy'.
    apply in_map_iff in Hy'. destruct Hy' as [y [<- Hy]].
    apply sle_unreal.
    + apply Hfin. right. assumption.
    + apply Hfin. left. reflexivity.
    + apply Hall, Hy.
Qed.

Lemma in_firstn_le {A} (l : list A) : forall n m x,
  n <= m -> In x (firstn n l) -> In x (firstn m l).
Proof.
  induction l as [| y l IH]; intros [| n] [| m] x Hle Hin; simpl in *;
    try contradiction; try lia.
  destruct Hin as [-> | Hin]; [left; reflexivity | right].
  apply (IH n m); [lia | assumption].
Qed.

Lemma nth_in_skipn {A} (l : list A) : forall r d,
  r < length l -> In (nth r l d) (skipn r l).
Proof.
  induction l as [| y l IH]; intros [| r] d Hr; simpl in *; try lia.
  - left. reflexivity.
  - apply IH. lia.
Qed.

Lemma nth_in_firstn {A} (l : list A) : forall r K d,
  r < K -> r < length l -> In (nth r l d) (firstn K l).
Proof.
  induction l as [| y l IH]; intros [| r] [| K] d HK Hr; simpl in *;
    try lia.
  - left. reflexivity.
  - right. apply IH; lia.
Qed.

Lemma firstn_split {A} (l : list A) : forall n K,
  n <= K -> firstn K l = firstn n l ++ firstn (K - n) (skipn n l).
Proof.
  induction l as [| x l IH]; intros [| n] [| K] H; simpl;
    try reflexivity; try lia.
  - destruct (K - n); reflexivity.
  - f_equal. apply IH. lia.
Qed.

(** The first [K] labels of a row that satisfies the invariant are the
    labels of the best [K] items seen. *)
Lemma row_ok_top_labels K A srow lrow :
  row_ok K A srow lrow -> top_labels K A lrow.
Proof.
  intros [Hs Hl Hd [rest [pads [Hperm [Hpads Hbelow]]]]].
  set (w := combine srow lrow) in *.
  assert (Hwlen : length w = 2 * K)
    by (unfold w; rewrite length_combine; lia).
  pose proof (desc_entries_combine lrow Hd) as Hdw. fold w in Hdw.
  assert (Hkind : forall x, In x (w ++ rest) -> is_fin x = true \/ pad x)
    by (intros x Hx; eapply item_or_pad; eassumption).
  assert (Hkw : forall x, In x w -> is_fin x = true \/ pad x)
    by (intros x Hx; apply Hkind, in_or_app; left; assumption).
  destruct (fin_prefix Hkw Hdw) as [r [Hr [Hfin Hnot]]].
  set (n := Nat.min r K).
  assert (Hsplit : w = firstn n w ++ skipn n w)
    by (symmetry; apply firstn_skipn).
  assert (Hfin_n : forall x, In x (firstn n w) -> is_fin x = true).
  { intros x Hx. apply Hfin. eapply in_firstn_le; [| exact Hx]. lia. }
  assert (Hn_len : length (firstn n w) = n)
    by (rewrite length_firstn; lia).
  (* the finite entries on both sides *)
  pose proof (permutation_filter is_fin Hperm) as Hf.
  rewrite (filter_fin_real_pads A Hpads) in Hf.
  rewrite Hsplit, <- app_assoc, filter_app in Hf.
  rewrite (filter_all is_fin (firstn n w) Hfin_n) in Hf.
  set (low := filter is_fin (skipn n w ++ rest)) in *.
  pose proof (Permutation_map unreal Hf) as Hu.
  rewrite map_unreal_real, map_app in Hu.
  pose proof (strongly_sorted_app _ _
                (eq_ind _ desc_entries Hdw _ Hsplit)) as [Hd1 [_ Hcross]].
  exists (map unreal (firstn n w)), (map unreal low),
         (firstn (K - n) (skipn n lrow)).
  split; [exact Hu |]. rewrite length_map, Hn_len.
  split; [| split; [| split]].
  - (* the number of selected items *)
    pose proof (Permutation_length Hf) as Hlen.
    rewrite length_app, Hn_len, length_map in Hlen.
    destruct (Nat.le_gt_cases K r) as [HKr | HrK]; [unfold n in *; lia |].
    assert (Hlow : low = []).
    { set (y := nth r w (NInf, 0%Z)).
      assert (Hy1 : In y (firstn K w)) by (apply nth_in_firstn; lia).
      assert (Hy2 : is_fin y = false)
        by (apply Hnot, nth_in_skipn; lia).
      apply filter_none. intros x Hx. apply in_app_or in Hx.
      destruct Hx as [Hx | Hx].
      - apply Hnot. replace r with n by (unfold n; lia). assumption.
      - eapply below_pad_not_fin;
          [| apply (Hbelow x Hx y Hy1) | exact Hy2].
        apply Hkw. unfold y. apply nth_In. lia. }
    rewrite Hlow in Hlen. simpl in Hlen. unfold n in *. lia.
  - apply sorted_unreal; assumption.
  - intros x' Hx' y' Hy'.
    apply in_map_iff in Hx'. destruct Hx' as [x [<- Hx]].
    apply in_map_iff in Hy'. destruct Hy' as [y [<- Hy]].
    unfold low in Hx. apply filter_In in Hx. destruct Hx as [Hx Hxf].
    apply sle_unreal; [assumption | auto |].
    apply in_app_or in Hx. destruct Hx as [Hx | Hx].
    + apply (Hcross y x Hy Hx).
    + apply (Hbelow x Hx). eapply in_firstn_le; [| exact Hy]. lia.
  - rewrite (@firstn_split _ lrow n K) by (unfold n; lia). f_equal.
    rewrite map_map.
    rewrite <- (map_snd_combine srow lrow) at 1 by lia. fold w.
    rewrite firstn_map. apply map_ext_in.
    intros x Hx. unfold unreal. destruct (fst x); reflexivity.
Qed.
End ReadoutFacts.

Module BatchFacts.

Lemma spread_cons_S {A} (x : A) xs c cnts :
  spread (x :: xs) (S c :: cnts) = x :: spread (x :: xs) (c :: cnts).
Proof. reflexivity. Qed.

Lemma spread_cons {A} (x : A) xs c cnts :
  spread (x :: xs) (c :: cnts) = repeat x c ++ spread xs cnts.
Proof. reflexivity. Qed.

Lemma steps_spread l : forall r,
  steps r l = true ->
  exists c cnts,
    Forall (lt 0) cnts
    /\ r :: l = spread (seq r (S (length cnts))) (S c :: cnts)
    /\ list_max (r :: l) = r + length cnts.
Proof.
  induction l as [| x t IH]; intros r Hs.
  - exists 0, []. repeat split; [constructor | simpl; lia].
  - simpl in Hs. apply andb_prop in Hs. destruct Hs as [Hx Hs].
    destruct (IH x Hs) as [c [cnts [Hpos [Heq Hmax]]]].
    apply orb_prop in Hx. destruct Hx as [Hx | Hx];
      apply Nat.eqb_eq in Hx; subst x.
    + exists (S c), cnts. repeat split; [assumption | |].
      * rewrite Heq at 1. reflexivity.
      * change (list_max (r :: r :: t)) with (Nat.max r (list_max (r :: t))).
        rewrite Hmax. lia.
    + exists 0, (S c :: cnts). repeat split.
      * constructor; [lia | assumption].
      * rewrite Heq at 1. reflexivity.
      * change (list_max (r :: S r :: t))
          with (Nat.max r (list_max (S r :: t))).
        rewrite Hmax. simpl. lia.
Qed.

Lemma compact_spread l :
  compact_grouped l = true ->
  exists cnts,
    Forall (lt 0) cnts /\ cnts <> []
    /\ l = spread (seq 0 (length cnts)) cnts
    /\ S (list_max l) = length cnts.
Proof.
  destruct l as [| x t]; [discriminate |]. simpl.
  intros H. apply andb_prop in H. destruct H as [Hx Hs].
  apply Nat.eqb_eq in Hx. subst x.
  destruct (steps_spread _ _ Hs) as [c [cnts [Hpos [Heq Hmax]]]].
  exists (S c :: cnts). repeat split.
  - constructor; [lia | assumption].
  - discriminate.
  - exact Heq.
  - change (Nat.max 0 (list_max t)) with (list_max (0 :: t)).
    rewrite Hmax. reflexivity.
Qed.

Lemma ascending_asc l : ascending l = true -> asc l.
Proof.
  unfold asc. induction l as [| x l IH]; intros H; [constructor |].
  destruct l as [| y l]; [repeat constructor |].
  simpl in H. apply andb_prop in H. destruct H as [Hxy Hl].
  apply Z.ltb_lt in Hxy. specialize (IH Hl).
  constructor; [assumption |].
  apply StronglySorted_inv in IH. destruct IH as [_ Hall].
  constructor; [assumption |].
  rewrite Forall_forall in *. intros z Hz. specialize (Hall z Hz). lia.
Qed.

Lemma map_spread {A B} (f : A -> B) xs : forall cnts,
  map f (spread xs cnts) = spread (map f xs) cnts.
Proof.
  unfold spread. induction xs as [| x xs IH]; intros [| c cnts]; simpl;
    try reflexivity.
  rewrite map_app, map_repeat, IH. reflexivity.
Qed.

Lemma index_select_map {A} (t : list A) d idx :
  Forall (fun i => i < length t) idx ->
  index_select t idx = Some (map (fun i => nth i t d) idx).
Proof.
  induction 1 as [| i idx Hi _ IH]; simpl; [reflexivity |].
  rewrite IH, (nth_error_nth' t d Hi). reflexivity.
Qed.

Lemma in_spread {A} (x : A) xs : forall cnts,
  In x (spread xs cnts) -> In x xs.
Proof.
  unfold spread. induction xs as [| y xs IH]; intros [| c cnts] H;
    simpl in *; try contradiction.
  apply in_app_or in H. destruct H as [H | H].
  - left. symmetry. eapply repeat_spec, H.
  - right. eapply IH, H.
Qed.

Lemma map_nth_seq {A} (t : list A) d m :
  m <= length t -> map (fun i => nth i t d) (seq 0 m) = firstn m t.
Proof.
  revert m. induction t as [| x t IH]; intros [| m] Hm; simpl in *;
    try reflexivity; try lia.
  f_equal. rewrite <- seq_shift, map_map. apply IH. lia.
Qed.

(** The entity ids of the triples of a compact batch. *)
Lemma index_select_spread (t : list Z) cnts :
  length cnts <= length t ->
  index_select t (spread (seq 0 (length cnts)) cnts)
  = Some (spread (firstn (length cnts) t) cnts).
Proof.
  intros Hlen. rewrite (index_select_map t 0%Z).
  - rewrite map_spread, map_nth_seq by assumption. reflexivity.
  - apply Forall_forall. intros i Hi. apply in_spread in Hi.
    apply in_seq in Hi. lia.
Qed.


(** *** [unique] *)

Lemma insert_count_fresh x l :
  keys_above x l -> insert_count x l = (x, 1) :: l.
Proof.
  destruct l as [| [y c] l]; intros H; simpl; [reflexivity |].
  inversion H as [| ? ? Hy _]; subst. simpl in Hy.
  apply Z.ltb_lt in Hy. rewrite Hy. reflexivity.
Qed.

Lemma insert_count_head x c l :
  insert_count x ((x, c) :: l) = (x, S c) :: l.
Proof. simpl. rewrite Z.ltb_irrefl, Z.eqb_refl. reflexivity. Qed.

Lemma unique_counts_app l1 l2 :
  unique_counts (l1 ++ l2) = fold_right insert_count (unique_counts l2) l1.
Proof. unfold unique_counts. apply fold_right_app. Qed.

Lemma fold_insert_repeat x c l :
  keys_above x l ->
  fold_right insert_count l (repeat x (S c)) = (x, S c) :: l.
Proof.
  intros H. induction c as [| c IH].
  - simpl. apply insert_count_fresh, H.
  - change (repeat x (S (S c))) with (x :: repeat x (S c)).
    simpl fold_right. simpl in IH. rewrite IH.
    apply insert_count_head.
Qed.

Lemma unique_counts_spread ids : forall cnts,
  asc ids -> Forall (lt 0) cnts -> length ids = length cnts ->
  unique_counts (spread ids cnts) = combine ids cnts.
Proof.
  unfold asc. induction ids as [| x ids IH]; intros [| c cnts] Ha Hp Hl;
    simpl in Hl; try discriminate; [reflexivity |].
  apply StronglySorted_inv in Ha. destruct Ha as [Ha Hx].
  inversion Hp as [| ? ? Hc Hp']; subst.
  rewrite spread_cons, unique_counts_app, IH by (assumption || lia).
  destruct c as [| c]; [lia |]. simpl combine.
  apply fold_insert_repeat.
  unfold keys_above. apply Forall_forall. intros [k v] Hin. simpl.
  rewrite Forall_forall in Hx. apply Hx. eapply in_combine_l, Hin.
Qed.

Lemma insert_count_keys x l k :
  In k (map fst (insert_count x l)) -> k = x \/ In k (map fst l).
Proof.
  induction l as [| [y c] l IH]; simpl.
  - intros [<- | []]. left. reflexivity.
  - destruct (x <? y)%Z; [| destruct (Z.eqb_spec x y)]; simpl.
    + intros [<- | H]; auto.
    + intros [<- | H]; auto.
    + intros [<- | H]; auto. destruct (IH H); auto.
Qed.

Lemma insert_count_asc x l :
  asc (map fst l) -> asc (map fst (insert_count x l)).
Proof.
  unfold asc. induction l as [| [y c] l IH]; intros Ha; simpl.
  - repeat constructor.
  - destruct (Z.ltb_spec x y) as [Hlt | Hge].
    + simpl. constructor; [assumption |].
      simpl in Ha. apply StronglySorted_inv in Ha. destruct Ha as [_ Hy].
      constructor; [assumption |].
      rewrite Forall_forall in *. intros z Hz. specialize (Hy z Hz). lia.
    + simpl in Ha. apply StronglySorted_inv in Ha. destruct Ha as [Ha Hy].
      destruct (Z.eqb_spec x y) as [-> | Hne]; simpl.
      * constructor; assumption.
      * constructor; [apply IH, Ha |].
        rewrite Forall_forall in *. intros z Hz.
        apply insert_count_keys in Hz. destruct Hz as [-> | Hz];
          [lia | apply Hy, Hz].
Qed.

Lemma unique_asc l : asc (unique l).
Proof.
  unfold unique, unique_counts. induction l as [| x l IH]; simpl.
  - constructor.
  - apply insert_count_asc, IH.
Qed.

(** *** The mask and the masked update *)

Lemma asc_head_notin x l : asc (x :: l) -> ~ In x l.
Proof.
  unfold asc. intros H Hin. apply StronglySorted_inv in H.
  destruct H as [_ H]. rewrite Forall_forall in H.
  specialize (H x Hin). lia.
Qed.

Lemma existsb_eqb_in g l : existsb (Z.eqb g) l = true <-> In g l.
Proof.
  rewrite existsb_exists. split.
  - intros [x [Hin Heq]]. apply Z.eqb_eq in Heq. subst. assumption.
  - intros Hin. exists g. split; [assumption | apply Z.eqb_refl].
Qed.

Lemma existsb_eqb_notin g l : ~ In g l -> existsb (Z.eqb g) l = false.
Proof.
  intros H. destruct (existsb (Z.eqb g) l) eqn:E; [| reflexivity].
  apply existsb_eqb_in in E. contradiction.
Qed.

(** Walking the registry and the ids of the batch, both ascending, side
    by side: either the heads agree, or the head of the registry is not
    in the batch. *)
Lemma asc_incl_head g G u U :
  asc (g :: G) -> asc (u :: U) -> incl (u :: U) (g :: G) ->
  (g = u /\ incl U G) \/ (~ In g (u :: U) /\ incl (u :: U) G).
Proof.
  intros HG HU Hincl.
  pose proof (asc_head_notin HU) as HuU.
  unfold asc in *.
  apply StronglySorted_inv in HG. destruct HG as [_ HgG].
  apply StronglySorted_inv in HU. destruct HU as [_ HuU'].
  rewrite Forall_forall in HgG, HuU'.
  destruct (Z.eq_dec g u) as [-> | Hne].
  - left. split; [reflexivity |]. intros z Hz.
    destruct (Hincl z (or_intror Hz)) as [<- | Hin]; [| assumption].
    specialize (HuU' _ Hz). lia.
  - right.
    assert (HuG : In u G).
    { destruct (Hincl u (or_introl eq_refl)) as [Heq | Hin];
        [congruence | assumption]. }
    pose proof (HgG _ HuG) as Hgu.
    split.
    + intros [Heq | Hin]; [congruence |]. specialize (HuU' _ Hin). lia.
    + intros z [<- | Hz]; [assumption |].
      destruct (Hincl z (or_intror Hz)) as [<- | Hin]; [| assumption].
      specialize (HuU' _ Hz). lia.
Qed.

Lemma gbl_mask_cons g G U :
  gbl_mask (g :: G) U = existsb (Z.eqb g) U :: gbl_mask G U.
Proof. reflexivity. Qed.

Lemma gbl_mask_skip G u U :
  ~ In u G -> gbl_mask G (u :: U) = gbl_mask G U.
Proof.
  intros Hn. unfold gbl_mask. apply map_ext_in. intros g Hg. simpl.
  destruct (Z.eqb_spec g u) as [-> | _]; [contradiction | reflexivity].
Qed.

Lemma mask_sum_incl G : forall U,
  asc G -> asc U -> incl U G -> mask_sum (gbl_mask G U) = length U.
Proof.
  induction G as [| g G IH]; intros U HG HU Hincl.
  - destruct U as [| u U]; [reflexivity |].
    destruct (Hincl u (or_introl eq_refl)).
  - destruct U as [| u U].
    + unfold gbl_mask, mask_sum. simpl.
      assert (IH0 := IH [] (proj1 (StronglySorted_inv HG)) HU
                       (incl_nil_l _)). exact IH0.
    + rewrite gbl_mask_cons.
      pose proof (proj1 (StronglySorted_inv HG)) as HG'.
      pose proof (proj1 (StronglySorted_inv HU)) as HU'.
      destruct (asc_incl_head HG HU Hincl) as [[-> HUG] | [Hn HUG]].
      * rewrite (proj2 (existsb_eqb_in u (u :: U)))
          by (left; reflexivity).
        rewrite gbl_mask_skip by (apply asc_head_notin, HG).
        unfold mask_sum in *. simpl. f_equal. apply IH; assumption.
      * rewrite existsb_eqb_notin by assumption.
        unfold mask_sum in *. simpl. apply IH; assumption.
Qed.

Lemma masked_update_nth {A B} (f : A -> B -> A) G : forall U buf T i g x,
  asc G -> asc U -> incl U G -> length T = length U ->
  nth_error G i = Some g -> nth_error buf i = Some x ->
  nth_error (masked_update f buf (gbl_mask G U) T) i
  = Some (match assoc g (combine U T) with
          | Some t => f x t
          | None => x
          end).
Proof.
  induction G as [| g0 G IH]; intros U buf T i g x HG HU Hincl Hlen Hg Hx.
  - destruct i; discriminate.
  - destruct buf as [| x0 buf]; [destruct i; discriminate |].
    pose proof (proj1 (StronglySorted_inv HG)) as HG'.
    rewrite gbl_mask_cons.
    destruct U as [| u U].
    + destruct T; [| discriminate]. simpl.
      destruct i as [| i]; simpl in *; [congruence |].
      specialize (IH [] buf [] i g x HG' HU (incl_nil_l _) eq_refl Hg Hx).
      simpl in IH. exact IH.
    + destruct T as [| t T]; [discriminate |]. simpl in Hlen.
      pose proof (proj1 (StronglySorted_inv HU)) as HU'.
      destruct (asc_incl_head HG HU Hincl) as [[-> HUG] | [Hn HUG]].
      * rewrite (proj2 (existsb_eqb_in u (u :: U)))
          by (left; reflexivity).
        rewrite gbl_mask_skip by (apply asc_head_notin, HG).
        destruct i as [| i]; simpl in Hg, Hx |- *.
        -- injection Hg as <-. injection Hx as <-.
           rewrite Z.eqb_refl. reflexivity.
        -- assert (Hne : g <> u).
           { intros ->. apply (asc_head_notin HG).
             eapply nth_error_In, Hg. }
           apply Z.eqb_neq in Hne. rewrite Hne.
           apply IH; (assumption || lia).
      * rewrite existsb_eqb_notin by assumption.
        destruct i as [| i]; simpl in Hg, Hx |- *.
        -- injection Hg as <-. injection Hx as <-.
           destruct (Z.eqb_spec g0 u) as [-> | _].
           ++ exfalso. apply Hn. left. reflexivity.
           ++ assert (Hnone : assoc g0 (combine U T) = None).
              { clear -Hn. revert T. induction U as [| v U IHU];
                  intros [| t' T]; simpl; try reflexivity.
                destruct (Z.eqb_spec g0 v) as [-> | _].
                - exfalso. apply Hn. right. left. reflexivity.
                - apply IHU. intros [H | H]; apply Hn; [left | right; right];
                    assumption. }
              rewrite Hnone. reflexivity.
        -- apply (IH (u :: U) buf (t :: T)); simpl; (assumption || lia).
Qed.

End BatchFacts.

Module ScatterFacts.
Import BatchFacts.

Lemma upd_app {A} (pre : list A) x tl v :
  upd (length pre) v (pre ++ x :: tl) = pre ++ v :: tl.
Proof. induction pre as [| y pre IH]; simpl; [reflexivity | f_equal; exact IH]. Qed.

Lemma set2_app {A} (done : matrix A) row M c v :
  c < length row ->
  set2 (done ++ row :: M) (length done) c v
  = Some (done ++ upd c v row :: M).
Proof.
  intros Hc. unfold set2.
  rewrite nth_error_app2, Nat.sub_diag by lia. simpl.
  apply Nat.ltb_lt in Hc. rewrite Hc, upd_app. reflexivity.
Qed.

Lemma write_chunk {A} (post : list A) : forall pre old done M rs cs vs,
  length post <= length old ->
  index_put (done ++ (pre ++ old) :: M)
    (repeat (length done) (length post) ++ rs)
    (seq (length pre) (length post) ++ cs) (post ++ vs)
  = index_put (done ++ (pre ++ post ++ skipn (length post) old) :: M)
      rs cs vs.
Proof.
  induction post as [| v post IH]; intros pre old done M rs cs vs Hlen.
  - reflexivity.
  - destruct old as [| x old]; [simpl in Hlen; lia |].
    simpl in Hlen. simpl length. simpl repeat. simpl seq.
    rewrite <- !app_comm_cons. simpl index_put.
    rewrite set2_app by (rewrite length_app; simpl; lia).
    rewrite upd_app.
    replace (pre ++ v :: old) with ((pre ++ [v]) ++ old)
      by (rewrite <- app_assoc; reflexivity).
    replace (S (length pre)) with (length (pre ++ [v]))
      by (rewrite length_app; simpl; lia).
    rewrite IH by lia. rewrite <- !app_assoc. reflexivity.
Qed.

Lemma spread_seq_cons r n c cnts :
  spread (seq r (S n)) (c :: cnts) = repeat r c ++ spread (seq (S r) n) cnts.
Proof. reflexivity. Qed.

Lemma chunks_length {A} cnts : forall (l : list A),
  length (chunks cnts l) = length cnts.
Proof. induction cnts as [| c cnts IH]; intros l; simpl; auto. Qed.

Lemma chunks_map {A B} (f : A -> B) cnts : forall l,
  chunks cnts (map f l) = map (map f) (chunks cnts l).
Proof.
  induction cnts as [| c cnts IH]; intros l; simpl; [reflexivity |].
  rewrite firstn_map, skipn_map, IH. reflexivity.
Qed.

(** The writes of a compact batch fill row [r] with the values of the
    [r]-th group, from column 0 on. *)
Lemma index_put_groups {A} cnts : forall done (M : matrix A) vals,
  Forall2 (fun row c => c <= length row) M cnts ->
  length vals = list_sum cnts ->
  index_put (done ++ M) (spread (seq (length done) (length cnts)) cnts)
    (concat (map (seq 0) cnts)) vals
  = Some (done ++ map2 (fun row ch => ch ++ skipn (length ch) row)
                    M (chunks cnts vals)).
Proof.
  induction cnts as [| c cnts IH]; intros done M vals HM Hlen.
  - inversion HM; subst. destruct vals; [reflexivity | discriminate].
  - inversion HM as [| row ? M' ? Hc HM']; subst.
    simpl in Hlen. simpl length. rewrite spread_seq_cons.
    simpl map. simpl concat.
    rewrite <- (firstn_skipn c vals) at 1.
    assert (Hf : length (firstn c vals) = c)
      by (rewrite length_firstn; lia).
    pose proof (@write_chunk A (firstn c vals) [] row done M'
                  (spread (seq (S (length done)) (length cnts)) cnts)
                  (concat (map (seq 0) cnts)) (skipn c vals)) as Hw.
    rewrite Hf in Hw. simpl in Hw. rewrite Hw by lia.
    replace (done ++ (firstn c vals ++ skipn c row) :: M')
      with ((done ++ [firstn c vals ++ skipn c row]) ++ M')
      by (rewrite <- app_assoc; reflexivity).
    replace (S (length done))
      with (length (done ++ [firstn c vals ++ skipn c row]))
      by (rewrite length_app; simpl; lia).
    rewrite IH by (assumption || (rewrite length_skipn; lia)).
    rewrite <- app_assoc. simpl. rewrite Hf. reflexivity.
Qed.

Lemma broadcast_same {A} n (vals : list A) :
  length vals = n -> broadcast n vals = vals.
Proof.
  destruct vals as [| v [| w vals]]; intros H; simpl in *; try reflexivity.
  subst n. reflexivity.
Qed.

(** *** 32-bit addition *)

Lemma wrap32_add_l a b : wrap32 (wrap32 a + b) = wrap32 (a + b).
Proof.
  unfold wrap32. f_equal.
  replace ((a + 2 ^ 31) mod 2 ^ 32 - 2 ^ 31 + b + 2 ^ 31)%Z
    with ((a + 2 ^ 31) mod 2 ^ 32 + b)%Z by lia.
  rewrite Zplus_mod_idemp_l. f_equal. lia.
Qed.

Lemma wrap32_add_r a b : wrap32 (a + wrap32 b) = wrap32 (a + b).
Proof. rewrite Z.add_comm, wrap32_add_l. f_equal. lia. Qed.

Lemma wrap32_small z :
  (- 2 ^ 31 <= z < 2 ^ 31)%Z -> wrap32 z = z.
Proof. intros H. unfold wrap32. rewrite Z.mod_small; lia. Qed.

Lemma wrap32_0 : wrap32 0 = 0%Z.
Proof. reflexivity. Qed.

Lemma fold_wadd ch : forall a,
  fold_left wadd (map wrap32 ch) (wrap32 a) = wrap32 (a + zsum ch).
Proof.
  induction ch as [| v ch IH]; intros a; simpl.
  - f_equal. lia.
  - unfold wadd at 2. rewrite wrap32_add_l, wrap32_add_r, IH.
    f_equal. lia.
Qed.

Lemma scatter_chunk post : forall done a accs rs vs,
  scatter_add (done ++ a :: accs)
    (repeat (length done) (length post) ++ rs) (post ++ vs)
  = scatter_add (done ++ fold_left wadd post a :: accs) rs vs.
Proof.
  induction post as [| v post IH]; intros done a accs rs vs.
  - reflexivity.
  - simpl length. simpl repeat. rewrite <- !app_comm_cons. simpl scatter_add.
    assert (Hlt : (length done <? length (done ++ a :: accs)) = true)
      by (apply Nat.ltb_lt; rewrite length_app; simpl; lia).
    rewrite Hlt, upd_app, app_nth2, Nat.sub_diag by lia.
    simpl nth. rewrite IH. reflexivity.
Qed.

Lemma scatter_groups cnts : forall done accs vals,
  length accs = length cnts -> length vals = list_sum cnts ->
  scatter_add (done ++ accs) (spread (seq (length done) (length cnts)) cnts)
    vals
  = Some (done ++ map2 (fold_left wadd) (chunks cnts vals) accs).
Proof.
  induction cnts as [| c cnts IH]; intros done accs vals Ha Hlen.
  - destruct accs; [| discriminate]. reflexivity.
  - destruct accs as [| a accs]; [discriminate |].
    simpl in Hlen, Ha. simpl length. rewrite spread_seq_cons.
    rewrite <- (firstn_skipn c vals) at 1.
    assert (Hf : length (firstn c vals) = c)
      by (rewrite length_firstn; lia).
    pose proof (scatter_chunk (firstn c vals) done a accs
                  (spread (seq (S (length done)) (length cnts)) cnts)
                  (skipn c vals)) as Hw.
    rewrite Hf in Hw. rewrite Hw.
    replace (done ++ fold_left wadd (firstn c vals) a :: accs)
      with ((done ++ [fold_left wadd (firstn c vals) a]) ++ accs)
      by (rewrite <- app_assoc; reflexivity).
    replace (S (length done))
      with (length (done ++ [fold_left wadd (firstn c vals) a]))
      by (rewrite length_app; simpl; lia).
    rewrite IH by (rewrite ?length_skipn; lia).
    rewrite <- app_assoc. reflexivity.
Qed.

End ScatterFacts.

Module GroupFacts.
Import OrderFacts MergeFacts BatchFacts ScatterFacts.

Lemma assoc_notin {V} g ids : forall (T : list V),
  ~ In g ids -> assoc g (combine ids T) = None.
Proof.
  induction ids as [| x ids IH]; intros [| t T] Hn; simpl; try reflexivity.
  destruct (Z.eqb_spec g x) as [-> | _].
  - exfalso. apply Hn. left. reflexivity.
  - apply IH. intros H. apply Hn. right. assumption.
Qed.

Lemma assoc_nth {V} ids : forall (T : list V) r g,
  asc ids -> length T = length ids -> nth_error ids r = Some g ->
  assoc g (combine ids T) = nth_error T r.
Proof.
  induction ids as [| x ids IH]; intros [| t T] r g Ha Hl Hr;
    simpl in Hl; try discriminate.
  - destruct r; discriminate.
  - destruct r as [| r]; simpl in Hr |- *.
    + injection Hr as ->. rewrite Z.eqb_refl. reflexivity.
    + assert (Hne : g <> x).
      { intros ->. apply (asc_head_notin Ha). eapply nth_error_In, Hr. }
      apply Z.eqb_neq in Hne. rewrite Hne.
      apply IH; [apply (StronglySorted_inv Ha) | lia | assumption].
Qed.

Lemma combine_app_l {A V} (l1 : list A) : forall l2 (E : list V),
  combine (l1 ++ l2) E
  = combine l1 (firstn (length l1) E) ++ combine l2 (skipn (length l1) E).
Proof.
  induction l1 as [| a l1 IH]; intros l2 E; simpl; [reflexivity |].
  destruct E as [| e E]; simpl.
  - destruct l2; reflexivity.
  - f_equal. apply IH.
Qed.

Lemma filter_combine_repeat {V} g x c : forall (F : list V),
  length F = c ->
  map snd (filter (fun t => (fst t =? g)%Z) (combine (repeat x c) F))
  = if (g =? x)%Z then F else [].
Proof.
  induction c as [| c IH]; intros [| e F] H; simpl in *; try discriminate.
  - destruct (g =? x)%Z; reflexivity.
  - rewrite (Z.eqb_sym x g). specialize (IH F ltac:(lia)).
    destruct (g =? x)%Z; simpl; [f_equal |]; exact IH.
Qed.

(** The triples of entity [g] in a compact batch are one group. *)
Lemma items_of_spread {V} g ids : forall cnts (E : list V),
  asc ids -> length ids = length cnts -> list_sum cnts <= length E ->
  map snd (filter (fun t => (fst t =? g)%Z) (combine (spread ids cnts) E))
  = match assoc g (combine ids (chunks cnts E)) with
    | Some ch => ch
    | None => []
    end.
Proof.
  induction ids as [| x ids IH]; intros [| c cnts] E Ha Hl Hs;
    simpl in Hl; try discriminate; [reflexivity |].
  simpl in Hs. rewrite spread_cons, combine_app_l, filter_app, map_app.
  rewrite repeat_length.
  rewrite filter_combine_repeat by (rewrite length_firstn; lia).
  rewrite IH by
    (try apply (StronglySorted_inv Ha); rewrite ?length_skipn; lia).
  simpl. destruct (Z.eqb_spec g x) as [-> | Hne]; [| reflexivity].
  rewrite assoc_notin by (apply asc_head_notin, Ha).
  apply app_nil_r.
Qed.

Lemma spread_length {A} (xs : list A) : forall cnts,
  length xs = length cnts -> length (spread xs cnts) = list_sum cnts.
Proof.
  unfold spread. induction xs as [| x xs IH]; intros [| c cnts] H;
    simpl in *; try discriminate; [reflexivity |].
  rewrite length_app, repeat_length, IH by lia. reflexivity.
Qed.

Lemma chunk_length {A} cnts : forall (l : list A) r ch,
  list_sum cnts <= length l ->
  nth_error (chunks cnts l) r = Some ch ->
  nth_error cnts r = Some (length ch).
Proof.
  induction cnts as [| c cnts IH]; intros l r ch Hs Hr; simpl in *.
  - destruct r; discriminate.
  - destruct r as [| r]; simpl in *.
    + injection Hr as <-. rewrite length_firstn. f_equal. lia.
    + eapply IH; [| eassumption]. rewrite length_skipn. lia.
Qed.

Lemma chunk_map {A B} (f : A -> B) cnts l r :
  nth_error (chunks cnts (map f l)) r
  = option_map (map f) (nth_error (chunks cnts l) r).
Proof. rewrite chunks_map. apply nth_error_map. Qed.

Lemma combine_real (ch : list (Z * Z)) :
  combine (map Fin (map fst ch)) (map snd ch) = map real ch.
Proof. induction ch as [| [s l] ch IH]; simpl; [| rewrite IH]; reflexivity. Qed.

Lemma pads_combine n (X : list Z) :
  Forall pad (combine (repeat NInf n) X).
Proof.
  apply Forall_forall. intros [s l] Hin. apply in_combine_l in Hin.
  apply repeat_spec in Hin. exact Hin.
Qed.

Section Selection.
Context `{B : Backend} {L : BackendLaws B}.

Lemma complement_perm sel n :
  NoDup sel -> (forall i, In i sel -> i < n) ->
  Permutation
    (sel ++ filter (fun j => negb (existsb (Nat.eqb j) sel)) (seq 0 n))
    (seq 0 n).
Proof.
  intros Hnd Hr.
  assert (Hmem : forall j, existsb (Nat.eqb j) sel = true <-> In j sel).
  { intros j. rewrite existsb_exists. split.
    - intros [x [Hin Heq]]. apply Nat.eqb_eq in Heq. subst. assumption.
    - intros Hin. exists j. split; [assumption | apply Nat.eqb_refl]. }
  apply NoDup_Permutation.
  - apply NoDup_app; [assumption | apply NoDup_filter, seq_NoDup |].
    intros a Ha Hb. apply filter_In in Hb. destruct Hb as [_ Hb].
    apply Hmem in Ha. rewrite Ha in Hb. discriminate.
  - apply seq_NoDup.
  - intros j. rewrite in_app_iff, filter_In, in_seq. split.
    + intros [Hj | [Hj _]]; [specialize (Hr j Hj) |]; lia.
    + intros Hj. destruct (existsb (Nat.eqb j) sel) eqn:E.
      * left. apply Hmem. assumption.
      * right. split; [lia | reflexivity].
Qed.

(** The batch-local top-K of one temporary row. *)
Lemma tmp_selection K C (ch : list (Z * Z)) (junk : list Z) :
  K <= C -> length ch <= C -> length junk = C ->
  let ts := map Fin (map fst ch) ++ repeat NInf (C - length ch) in
  let tl := map snd ch ++ skipn (length ch) junk in
  let sel := topk K ts in
  length (gather NInf ts sel) = K
  /\ length (gather 0%Z tl sel) = K
  /\ selection K ch (combine (gather NInf ts sel) (gather 0%Z tl sel)).
Proof.
  intros HK Hch Hjunk ts tl sel.
  assert (Hts : length ts = C).
  { unfold ts. rewrite length_app, !length_map, repeat_length. lia. }
  assert (Htl : length tl = C).
  { unfold tl. rewrite length_app, length_map, length_skipn. lia. }
  assert (Hsel : length sel = K) by (apply topk_length; lia).
  set (W := combine ts tl).
  assert (HW : W = map real ch
                   ++ combine (repeat NInf (C - length ch))
                        (skipn (length ch) junk)).
  { unfold W, ts, tl. rewrite combine_app by (rewrite !length_map; lia).
    rewrite combine_real. reflexivity. }
  assert (HWlen : length W = C)
    by (unfold W; rewrite length_combine; lia).
  rewrite !gather_length. split; [assumption |]. split; [assumption |].
  rewrite combine_gather by lia. fold W.
  set (compl := filter (fun j => negb (existsb (Nat.eqb j) sel)) (seq 0 C)).
  split; [rewrite gather_length; assumption |].
  exists (gather (NInf, 0%Z) W compl),
         (combine (repeat NInf (C - length ch)) (skipn (length ch) junk)).
  split; [| split].
  - rewrite <- HW. unfold gather. rewrite <- map_app.
    apply (gather_perm (NInf, 0%Z) W). rewrite HWlen.
    apply complement_perm; [apply topk_nodup |].
    intros i Hi. rewrite <- Hts. apply (topk_range _ _ _ Hi).
  - apply pads_combine.
  - intros x Hx t Ht. unfold gather in Hx, Ht.
    apply in_map_iff in Hx. destruct Hx as [j [<- Hj]].
    apply in_map_iff in Ht. destruct Ht as [i [<- Hi]].
    unfold W. rewrite !combine_nth by lia. simpl.
    unfold compl in Hj. apply filter_In in Hj. destruct Hj as [Hj Hn].
    apply in_seq in Hj.
    eapply topk_best; [exact Hi | lia |].
    intros Hin. apply negb_true_iff in Hn.
    assert (existsb (Nat.eqb j) sel = true).
    { apply existsb_exists. exists j. split;
        [assumption | apply Nat.eqb_refl]. }
    congruence.
Qed.

End Selection.
End GroupFacts.

Module StepFacts.
Import OrderFacts MergeFacts BatchFacts ScatterFacts GroupFacts.

(** A tensor of finite scores is the image of its values. *)
Lemma finite_scores_all l :
  forallb finite l = true ->
  exists zs, finite_scores l = Some zs /\ l = map Fin zs.
Proof.
  induction l as [| s l IH]; intros H; simpl in *.
  - exists []. auto.
  - apply andb_true_iff in H. destruct H as [Hs Hl].
    destruct (IH Hl) as [zs [Hz ->]].
    destruct s; try discriminate.
    exists (z :: zs). rewrite Hz. auto.
Qed.

Lemma score_vals_finite b :
  forallb finite (edge_score b) = true ->
  edge_score b = map Fin (score_vals b)
  /\ length (score_vals b) = length (edge_score b).
Proof.
  intros H. destruct (finite_scores_all _ H) as [zs [Hz He]].
  unfold score_vals. rewrite Hz. split; [assumption |].
  rewrite He. rewrite length_map. reflexivity.
Qed.

Lemma batch_ok_shape gbl b :
  batch_ok gbl b = true -> exists cnts, batch_shape gbl b cnts.
Proof.
  unfold batch_ok. rewrite !andb_true_iff.
  intros [[[[[[Hc Hn] Ha] Hi] Hs] Hl] Hf].
  destruct (compact_spread _ Hc) as [cnts [Hpos [Hne [Hidx Hmax]]]].
  apply Nat.leb_le in Hn. apply Nat.eqb_eq in Hs, Hl.
  destruct (score_vals_finite _ Hf) as [Hfin Hvals].
  assert (Hcnt : active_count b = length cnts) by exact Hmax.
  assert (Hlen : length (src_idx b) = list_sum cnts).
  { rewrite Hidx at 1. apply spread_length. apply length_seq. }
  exists cnts. constructor; try assumption.
  - lia.
  - unfold active_ids. rewrite Hcnt. reflexivity.
  - apply ascending_asc, Ha.
  - intros g Hg. rewrite forallb_forall in Hi.
    apply existsb_eqb_in, Hi, Hg.
  - lia.
  - lia.
Qed.

Lemma map_fst_combine {A B} (l : list A) : forall (m : list B),
  length l = length m -> map fst (combine l m) = l.
Proof.
  induction l as [| a l IH]; intros [| b m] H; simpl in *;
    try discriminate; [reflexivity |].
  f_equal. apply IH. lia.
Qed.

Lemma tensor_max_nonempty l :
  l <> [] -> tensor_max l = Some (list_max l).
Proof. destruct l; [contradiction | reflexivity]. Qed.

Lemma full_rows {A} m C (x : A) cnts :
  length cnts = m -> list_max cnts <= C ->
  Forall2 (fun row c => c <= length row) (full m C x) cnts.
Proof.
  intros <- Hmax. apply list_max_le in Hmax. unfold full.
  induction cnts as [| c cnts IH]; simpl; constructor.
  - rewrite repeat_length. inversion Hmax; assumption.
  - apply IH. inversion Hmax; assumption.
Qed.

Section Step.
Context `{B : Backend}.

Lemma empty_rows n m C cnts :
  length cnts = m -> list_max cnts <= C ->
  Forall2 (fun row c => c <= length row) (torch_empty n m C) cnts.
Proof.
  intros <- Hmax. apply list_max_le in Hmax. unfold torch_empty.
  generalize 0 at 2. induction cnts as [| c cnts IH]; intros a; simpl;
    constructor.
  - rewrite length_map, length_seq. inversion Hmax; assumption.
  - apply IH. inversion Hmax; assumption.
Qed.

(** On a compact batch the batch-local part succeeds, and its result is
    known in closed form. *)
Lemma batch_local_shape gbl K t b cnts :
  asc gbl -> batch_shape gbl b cnts ->
  let C := Nat.max K (list_max cnts) in
  let scr_tmp := scr_rows b cnts C in
  let lbl_tmp := lbl_rows t b cnts C in
  batch_local gbl K t b
  = Some {| gbl_msk := gbl_mask gbl (active_ids b);
            scr_top := map2 (gather NInf) scr_tmp (map (topk K) scr_tmp);
            lbl_top := map2 (gather 0%Z) lbl_tmp (map (topk K) scr_tmp);
            pos_add := map2 (fold_left wadd)
                         (chunks cnts (map wrap32 (edge_label b)))
                         (repeat 0%Z (length cnts)) |}.
Proof.
  intros Hgbl Sh C scr_tmp lbl_tmp.
  pose proof (bs_asc Sh) as Hasc. pose proof (bs_incl Sh) as Hincl.
  assert (Hidlen : length (active_ids b) = length cnts).
  { rewrite (bs_ids Sh), length_firstn. pose proof (bs_nid Sh). lia. }
  unfold batch_local.
  rewrite (bs_idx Sh), (index_select_spread _ _ (bs_nid Sh)), <- (bs_ids Sh).
  rewrite (unique_counts_spread Hasc (bs_pos Sh) Hidlen).
  rewrite map_fst_combine, map_snd_combine by assumption.
  rewrite (tensor_max_nonempty (bs_ne Sh)).
  rewrite (mask_sum_incl Hgbl Hasc Hincl), Hidlen.
  rewrite spread_length by apply length_seq.
  assert (Hscr : length (edge_score b) = list_sum cnts)
    by (rewrite (bs_fin Sh), length_map; apply (bs_scr Sh)).
  rewrite !broadcast_same
    by (rewrite ?length_map; first [apply Hscr | apply (bs_lbl Sh)]).
  fold C.
  pose proof (@index_put_groups score cnts [] (full (length cnts) C NInf)
                (edge_score b)) as Hs.
  simpl in Hs. rewrite Hs; clear Hs.
  2: { apply full_rows; [reflexivity | lia]. }
  2: { apply Hscr. }
  pose proof (@index_put_groups Z cnts []
                (torch_empty (S t) (length cnts) C) (edge_label b)) as Hl.
  simpl in Hl. rewrite Hl; clear Hl.
  2: { apply empty_rows; [reflexivity | lia]. }
  2: { apply (bs_lbl Sh). }
  pose proof (@scatter_groups cnts [] (repeat 0%Z (length cnts))
                (map wrap32 (edge_label b))) as Ha.
  simpl in Ha. rewrite Ha; clear Ha.
  2: { apply repeat_length. }
  2: { rewrite length_map. apply (bs_lbl Sh). }
  reflexivity.
Qed.


Lemma skipn_repeat {A} (x : A) n : forall C,
  skipn n (repeat x C) = repeat x (C - n).
Proof.
  induction n as [| n IH]; intros [| C]; simpl; try reflexivity.
  apply IH.
Qed.

Lemma nth_error_full {A} m C (x : A) r :
  r < m -> nth_error (full m C x) r = Some (repeat x C).
Proof. intros H. unfold full. apply nth_error_repeat, H. Qed.

Lemma nth_error_empty n m C r :
  r < m ->
  exists junk, nth_error (torch_empty n m C) r = Some junk
               /\ length junk = C.
Proof.
  intros H. unfold torch_empty. eexists. split.
  - apply map_nth_error. rewrite nth_error_seq.
    apply Nat.ltb_lt in H. rewrite H. reflexivity.
  - rewrite length_map, length_seq. reflexivity.
Qed.

Lemma nth_error_exists {A} (l : list A) r :
  r < length l -> exists x, nth_error l r = Some x.
Proof.
  intros H. destruct (nth_error l r) eqn:E; [eauto |].
  apply nth_error_None in E. lia.
Qed.

(** The items of an entity of a compact batch are its group. *)
Lemma batch_items_chunk gbl b cnts g :
  batch_shape gbl b cnts ->
  batch_items b g
  = match assoc g (combine (active_ids b)
                     (chunks cnts (combine (score_vals b) (edge_label b))))
    with
    | Some ch => ch
    | None => []
    end.
Proof.
  intros Sh.
  assert (Hidlen : length (active_ids b) = length cnts).
  { rewrite (bs_ids Sh), length_firstn. pose proof (bs_nid Sh). lia. }
  unfold batch_items, triples.
  rewrite (bs_idx Sh), (index_select_spread _ _ (bs_nid Sh)), <- (bs_ids Sh).
  apply items_of_spread; [apply (bs_asc Sh) | assumption |].
  rewrite length_combine, (bs_scr Sh), (bs_lbl Sh). lia.
Qed.

Context {L : BackendLaws B}.

(** Row [r] of the batch-local result is a selection of the items of the
    [r]-th entity of the batch, with the sum of its labels. *)
Lemma local_row gbl K t b cnts r g :
  batch_shape gbl b cnts ->
  nth_error (active_ids b) r = Some g ->
  let C := Nat.max K (list_max cnts) in
  let scr_tmp := scr_rows b cnts C in
  let lbl_tmp := lbl_rows t b cnts C in
  exists st lt,
    nth_error (map2 (gather NInf) scr_tmp (map (topk K) scr_tmp)) r = Some st
    /\ nth_error (map2 (gather 0%Z) lbl_tmp (map (topk K) scr_tmp)) r
       = Some lt
    /\ nth_error (map2 (fold_left wadd)
                    (chunks cnts (map wrap32 (edge_label b)))
                    (repeat 0%Z (length cnts))) r
       = Some (wrap32 (zsum (map snd (batch_items b g))))
    /\ length st = K /\ length lt = K
    /\ selection K (batch_items b g) (combine st lt).
Proof.
  intros Sh Hr C scr_tmp lbl_tmp.
  assert (Hidlen : length (active_ids b) = length cnts).
  { rewrite (bs_ids Sh), length_firstn. pose proof (bs_nid Sh). lia. }
  assert (Hrm : r < length cnts).
  { rewrite <- Hidlen. apply nth_error_Some. congruence. }
  set (E := combine (score_vals b) (edge_label b)).
  assert (HE : length E = list_sum cnts).
  { unfold E. rewrite length_combine, (bs_scr Sh), (bs_lbl Sh). lia. }
  assert (HEs : map fst E = score_vals b).
  { apply map_fst_combine. rewrite (bs_scr Sh), (bs_lbl Sh). reflexivity. }
  assert (HEl : map snd E = edge_label b).
  { apply map_snd_combine. rewrite (bs_scr Sh), (bs_lbl Sh). reflexivity. }
  destruct (@nth_error_exists _ (chunks cnts E) r) as [ch Hch];
    [rewrite chunks_length; assumption |].
  assert (Hitems : batch_items b g = ch).
  { rewrite (batch_items_chunk g Sh). fold E.
    rewrite (@assoc_nth _ (active_ids b) (chunks cnts E) r g);
      [| apply (bs_asc Sh) | rewrite chunks_length; lia | exact Hr].
    rewrite Hch. reflexivity. }
  assert (Hc : nth_error cnts r = Some (length ch)).
  { eapply chunk_length; [| exact Hch]. lia. }
  assert (HchC : length ch <= C).
  { assert (Hall : Forall (fun k => k <= list_max cnts) cnts)
      by (apply list_max_le; lia).
    rewrite Forall_forall in Hall.
    specialize (Hall _ (nth_error_In _ _ Hc)). lia. }
  destruct (@nth_error_empty (S t) (length cnts) C r Hrm)
    as [junk [Hjunk HjunkC]].
  assert (Hsrow : nth_error scr_tmp r
                  = Some (map Fin (map fst ch)
                            ++ repeat NInf (C - length ch))).
  { unfold scr_tmp, scr_rows.
    erewrite nth_error_map2;
      [| apply nth_error_full; assumption
       | rewrite (bs_fin Sh), <- HEs, !chunk_map, Hch; reflexivity].
    rewrite !length_map, skipn_repeat. reflexivity. }
  assert (Hlrow : nth_error lbl_tmp r
                  = Some (map snd ch ++ skipn (length ch) junk)).
  { unfold lbl_tmp, lbl_rows.
    erewrite nth_error_map2;
      [| exact Hjunk | rewrite <- HEl, chunk_map, Hch; reflexivity].
    rewrite length_map. reflexivity. }
  destruct (@tmp_selection B L K C ch junk (Nat.le_max_l _ _) HchC HjunkC)
    as [Hst [Hlt Hsel]].
  eexists. eexists. split; [| split; [| split; [| split; [| split]]]].
  - eapply nth_error_map2; [exact Hsrow |].
    apply map_nth_error. exact Hsrow.
  - eapply nth_error_map2; [exact Hlrow |].
    apply map_nth_error. exact Hsrow.
  - erewrite nth_error_map2;
      [| rewrite <- HEl, !chunk_map, Hch; reflexivity
       | apply nth_error_repeat; assumption].
    rewrite Hitems. change 0%Z with (wrap32 0) at 1.
    rewrite fold_wadd. reflexivity.
  - exact Hst.
  - exact Hlt.
  - rewrite Hitems. exact Hsel.
Qed.

End Step.
End StepFacts.

Module LoopFacts.
Import OrderFacts MergeFacts BatchFacts ScatterFacts GroupFacts StepFacts.

Lemma masked_update_length {A B} (f : A -> B -> A) buf : forall msk T,
  length (masked_update f buf msk T) = length buf.
Proof.
  induction buf as [| x buf IH]; intros [| [] msk] T; simpl;
    try reflexivity.
  - destruct T; simpl; rewrite IH; reflexivity.
  - rewrite IH. reflexivity.
Qed.

Lemma zsum_app l m : zsum (l ++ m) = (zsum l + zsum m)%Z.
Proof. unfold zsum. induction l; simpl; lia. Qed.

Lemma seen_snoc done b g : seen (done ++ [b]) g = seen done g ++ batch_items b g.
Proof.
  unfold seen. rewrite flat_map_app. simpl. rewrite app_nil_r. reflexivity.
Qed.

Section Loop.
Context `{B : Backend}.

Lemma scr_rows_length b cnts C :
  length (scr_rows b cnts C) = length cnts.
Proof.
  unfold scr_rows, full.
  rewrite map2_length, repeat_length, chunks_length. lia.
Qed.

Lemma lbl_rows_length t b cnts C :
  length (lbl_rows t b cnts C) = length cnts.
Proof.
  unfold lbl_rows, torch_empty.
  rewrite map2_length, length_map, length_seq, chunks_length. lia.
Qed.

Lemma merge_lengths K st loc :
  length (scr_buf (merge K st loc)) = length (scr_buf st)
  /\ length (lbl_buf (merge K st loc))
     = Nat.min (length (lbl_buf st)) (length (scr_buf st))
  /\ length (pos_cnt (merge K st loc)) = length (pos_cnt st).
Proof.
  unfold merge. simpl.
  rewrite !map2_length, !length_map, !masked_update_length.
  repeat split. lia.
Qed.

(** One row of the sorted buffers. *)
Lemma sorted_row (scr1 : list (list score)) (lbl1 : list (list Z)) i x y :
  nth_error scr1 i = Some x -> nth_error lbl1 i = Some y ->
  nth_error (map2 (gather NInf) scr1 (map argsort scr1)) i
  = Some (gather NInf x (argsort x))
  /\ nth_error (map2 (gather 0%Z) lbl1 (map argsort scr1)) i
     = Some (gather 0%Z y (argsort x)).
Proof.
  intros Hx Hy. split.
  - eapply nth_error_map2; [exact Hx | apply map_nth_error, Hx].
  - eapply nth_error_map2; [exact Hy | apply map_nth_error, Hx].
Qed.

Context {L : BackendLaws B}.

(** The loop body on a compact batch, row by row. *)
Lemma rank_step_rows gbl K t st b :
  asc gbl -> batch_ok gbl b = true ->
  exists st',
    rank_step gbl K t st b = Some st'
    /\ length (scr_buf st') = length (scr_buf st)
    /\ length (lbl_buf st')
       = Nat.min (length (lbl_buf st)) (length (scr_buf st))
    /\ length (pos_cnt st') = length (pos_cnt st)
    /\ forall i g srow lrow p,
         nth_error gbl i = Some g ->
         nth_error (scr_buf st) i = Some srow ->
         nth_error (lbl_buf st) i = Some lrow ->
         nth_error (pos_cnt st) i = Some p ->
         exists srow' lrow' p',
           nth_error (scr_buf st') i = Some srow'
           /\ nth_error (lbl_buf st') i = Some lrow'
           /\ nth_error (pos_cnt st') i = Some p'
           /\ step_row K b g srow lrow p srow' lrow' p'.
Proof.
  intros Hgbl Hok.
  destruct (batch_ok_shape _ _ Hok) as [cnts Sh].
  assert (Hidlen : length (active_ids b) = length cnts).
  { rewrite (bs_ids Sh), length_firstn. pose proof (bs_nid Sh). lia. }
  unfold rank_step. rewrite (@batch_local_shape B gbl K t b cnts Hgbl Sh).
  eexists. split; [reflexivity |].
  destruct (merge_lengths K st
    {| gbl_msk := gbl_mask gbl (active_ids b);
       scr_top := map2 (gather NInf)
                    (scr_rows b cnts (Nat.max K (list_max cnts)))
                    (map (topk K)
                       (scr_rows b cnts (Nat.max K (list_max cnts))));
       lbl_top := map2 (gather 0%Z)
                    (lbl_rows t b cnts (Nat.max K (list_max cnts)))
                    (map (topk K)
                       (scr_rows b cnts (Nat.max K (list_max cnts))));
       pos_add := map2 (fold_left wadd)
                    (chunks cnts (map wrap32 (edge_label b)))
                    (repeat 0%Z (length cnts)) |}) as [Hl1 [Hl2 Hl3]].
  split; [exact Hl1 |]. split; [exact Hl2 |]. split; [exact Hl3 |].
  clear Hl1 Hl2 Hl3.
  intros i g srow lrow p Hg Hs Hl Hp.
  unfold merge. simpl.
  set (C := Nat.max K (list_max cnts)).
  set (Ts := map2 (gather NInf) (scr_rows b cnts C)
               (map (topk K) (scr_rows b cnts C))).
  set (Tl := map2 (gather 0%Z) (lbl_rows t b cnts C)
               (map (topk K) (scr_rows b cnts C))).
  set (Ta := map2 (fold_left wadd)
               (chunks cnts (map wrap32 (edge_label b)))
               (repeat 0%Z (length cnts))).
  assert (HTs : length Ts = length (active_ids b)).
  { unfold Ts. rewrite map2_length, length_map, scr_rows_length. lia. }
  assert (HTl : length Tl = length (active_ids b)).
  { unfold Tl.
    rewrite map2_length, length_map, scr_rows_length, lbl_rows_length. lia. }
  assert (HTa : length Ta = length (active_ids b)).
  { unfold Ta. rewrite map2_length, chunks_length, repeat_length. lia. }
  pose proof (@masked_update_nth _ _ (fun row t0 => firstn K row ++ t0)
                gbl (active_ids b) (scr_buf st) Ts i g srow
                Hgbl (bs_asc Sh) (bs_incl Sh) HTs Hg Hs) as Hs1.
  pose proof (@masked_update_nth _ _ (fun row t0 => firstn K row ++ t0)
                gbl (active_ids b) (lbl_buf st) Tl i g lrow
                Hgbl (bs_asc Sh) (bs_incl Sh) HTl Hg Hl) as Hl1.
  pose proof (@masked_update_nth _ _ (fun p0 a => wrap32 (p0 + a))
                gbl (active_ids b) (pos_cnt st) Ta i g p
                Hgbl (bs_asc Sh) (bs_incl Sh) HTa Hg Hp) as Hp1.
  destruct (@sorted_row _ _ i _ _ Hs1 Hl1) as [Hs2 Hl2].
  do 3 eexists.
  split; [exact Hs2 |]. split; [exact Hl2 |]. split; [exact Hp1 |].
  destruct (in_dec Z.eq_dec g (active_ids b)) as [Hin | Hnin].
  - right. split; [assumption |].
    destruct (In_nth_error _ _ Hin) as [r Hr].
    destruct (@local_row B L gbl K t b cnts r g Sh Hr) as [st0 [lt0 [Hst [Hlt [Hadd [H1 [H2 H3]]]]]]].
    fold C in Hst, Hlt. fold Ts in Hst. fold Tl in Hlt. fold Ta in Hadd.
    rewrite (@assoc_nth _ (active_ids b) Ts r g (bs_asc Sh) HTs Hr), Hst.
    rewrite (@assoc_nth _ (active_ids b) Tl r g (bs_asc Sh) HTl Hr), Hlt.
    rewrite (@assoc_nth _ (active_ids b) Ta r g (bs_asc Sh) HTa Hr), Hadd.
    exists st0, lt0.
    split; [exact H1 |]. split; [exact H2 |]. split; [exact H3 |].
    split; [reflexivity |]. split; reflexivity.
  - left. rewrite !assoc_notin by assumption.
    split; [assumption |]. split; [| repeat split].
    rewrite (@batch_items_chunk gbl b cnts g Sh), assoc_notin by assumption.
    reflexivity.
Qed.

Lemma desc_repeat n : desc (repeat NInf n).
Proof.
  unfold desc. induction n as [| n IH]; simpl; constructor;
    [assumption |].
  apply Forall_forall. intros x Hx. apply repeat_spec in Hx. subst.
  reflexivity.
Qed.

Lemma row_ok_init K (junk : list Z) :
  length junk = 2 * K -> row_ok K [] (repeat NInf (2 * K)) junk.
Proof.
  intros Hj. constructor.
  - apply repeat_length.
  - assumption.
  - apply desc_repeat.
  - exists [], (combine (repeat NInf (2 * K)) junk). split; [| split].
    + rewrite app_nil_r. reflexivity.
    + apply pads_combine.
    + intros x [].
Qed.

Lemma inv_init gbl K : inv gbl K [] (init_state (length gbl) K).
Proof.
  unfold inv, init_state, full, torch_empty. simpl.
  rewrite !repeat_length, length_map, length_seq.
  repeat split.
  intros i g Hg.
  assert (Hi : i < length gbl) by (apply nth_error_Some; congruence).
  destruct (@nth_error_empty B 0 (length gbl) (K + (K + 0)) i Hi)
    as [junk [Hjunk Hlen]].
  exists (repeat NInf (K + (K + 0))), junk.
  split; [apply nth_error_repeat, Hi |].
  split; [exact Hjunk |].
  split; [apply nth_error_repeat, Hi |].
  apply (@row_ok_init K junk). simpl. exact Hlen.
Qed.

Lemma inv_step gbl K t done st b :
  asc gbl -> batch_ok gbl b = true -> inv gbl K done st ->
  exists st', rank_step gbl K t st b = Some st'
              /\ inv gbl K (done ++ [b]) st'.
Proof.
  intros Hgbl Hok [Hls [Hll [Hlp Hrows]]].
  destruct (@rank_step_rows gbl K t st b Hgbl Hok)
    as [st' [Hstep [Hl1 [Hl2 [Hl3 Hrow]]]]].
  exists st'. split; [assumption |].
  split; [lia |]. split; [lia |]. split; [lia |].
  intros i g Hg.
  destruct (Hrows i g Hg) as [srow [lrow [Hs [Hl [Hp Hok_row]]]]].
  destruct (Hrow i g srow lrow _ Hg Hs Hl Hp)
    as [srow' [lrow' [p' [Hs' [Hl' [Hp' Hcase]]]]]].
  exists srow', lrow'. split; [assumption |]. split; [assumption |].
  rewrite seen_snoc.
  destruct Hcase as [[_ [Hnil [-> [-> ->]]]]
                    | [_ [st0 [lt0 [H1 [H2 [Hsel [-> [-> ->]]]]]]]]].
  - rewrite Hnil, app_nil_r. split; [assumption |].
    apply row_resort, Hok_row.
  - split.
    + rewrite Hp'. f_equal.
      rewrite wrap32_add_l, wrap32_add_r, map_app, zsum_app. reflexivity.
    + apply row_merge; assumption.
Qed.

Lemma inv_loop gbl K loader : forall t done st,
  asc gbl -> Forall (fun b => batch_ok gbl b = true) loader ->
  inv gbl K done st ->
  exists st', rank_loop gbl K t st loader = Some st'
              /\ inv gbl K (done ++ loader) st'.
Proof.
  induction loader as [| b loader IH]; intros t done st Hgbl Hall Hinv.
  - exists st. rewrite app_nil_r. split; [reflexivity | assumption].
  - inversion Hall as [| ? ? Hb Hrest]; subst.
    destruct (@inv_step gbl K t done st b Hgbl Hb Hinv)
      as [st1 [Hstep Hinv1]].
    destruct (IH (S t) (done ++ [b]) st1 Hgbl Hrest Hinv1)
      as [st' [Hloop Hinv']].
    exists st'. simpl. rewrite Hstep.
    rewrite <- app_assoc in Hinv'. split; assumption.
Qed.

(** On a stream of compact batches [rank] succeeds and the invariant
    holds for the whole stream. *)
Lemma rank_state_inv data_src loader K :
  Forall (fun b => batch_ok (registry data_src) b = true) loader ->
  exists st, rank_state data_src loader K = Some st
             /\ inv (registry data_src) K loader st.
Proof.
  intros Hall. unfold rank_state.
  apply (@inv_loop (registry data_src) K loader 0 []
           (init_state (length (registry data_src)) K)).
  - apply unique_asc.
  - assumption.
  - apply inv_init.
Qed.

End Loop.
End LoopFacts.

Module BackendFacts.
Import OrderFacts MergeFacts.

Section InsertionSort.
Variable row : list score.
Variable goes_after : nat -> nat -> bool.
Hypothesis after_le : forall i j,
  goes_after i j = true -> sle (nth i row NInf) (nth j row NInf) = true.
Hypothesis before_ge : forall i j,
  goes_after i j = false -> sle (nth j row NInf) (nth i row NInf) = true.

Let above (a b : nat) : Prop := sle (nth b row NInf) (nth a row NInf) = true.

Lemma insert_by_perm i l : Permutation (insert_by goes_after i l) (i :: l).
Proof.
  induction l as [| j l IH]; simpl; [reflexivity |].
  destruct (goes_after i j); [| reflexivity].
  rewrite IH. apply perm_swap.
Qed.

Lemma insert_by_sorted i l :
  StronglySorted above l -> StronglySorted above (insert_by goes_after i l).
Proof.
  induction l as [| j l IH]; intros Hs; simpl.
  - repeat constructor.
  - apply StronglySorted_inv in Hs. destruct Hs as [Hl Hj].
    destruct (goes_after i j) eqn:E.
    + constructor; [apply IH, Hl |].
      rewrite (insert_by_perm i l). constructor; [| assumption].
      apply after_le, E.
    + pose proof (before_ge E) as Hji.
      constructor; [constructor; assumption |].
      constructor; [assumption |].
      rewrite Forall_forall in *. intros k Hk. unfold above in *.
      eapply sle_trans; [apply Hj, Hk | exact Hji].
Qed.

Lemma fold_insert_perm l :
  Permutation (fold_right (insert_by goes_after) [] l) l.
Proof.
  induction l as [| i l IH]; simpl; [reflexivity |].
  rewrite insert_by_perm, IH. reflexivity.
Qed.

Lemma fold_insert_sorted l :
  StronglySorted above (fold_right (insert_by goes_after) [] l).
Proof.
  induction l as [| i l IH]; simpl; [constructor |].
  apply insert_by_sorted, IH.
Qed.

End InsertionSort.

Lemma desc_gather row idx :
  StronglySorted
    (fun a b => sle (nth b row NInf) (nth a row NInf) = true) idx ->
  desc (gather NInf row idx).
Proof.
  unfold desc, gather. induction 1 as [| a idx _ IH Ha]; simpl;
    constructor; [assumption |].
  rewrite Forall_forall in *. intros x Hx.
  apply in_map_iff in Hx. destruct Hx as [b [<- Hb]]. apply Ha, Hb.
Qed.

Lemma in_firstn {A} n : forall (l : list A) x, In x (firstn n l) -> In x l.
Proof.
  induction n as [| n IH]; intros [| y l] x H; simpl in *;
    try contradiction.
  destruct H as [-> | H]; [left; reflexivity | right; apply IH, H].
Qed.

(** A sort that meets the laws of [argsort], with its first [k] indices
    for [topk], is a lawful backend. *)
Lemma laws_of_sort (srt : list score -> list nat) mem :
  (forall row, Permutation (srt row) (seq 0 (length row))) ->
  (forall row, StronglySorted
                 (fun a b => sle (nth b row NInf) (nth a row NInf) = true)
                 (srt row)) ->
  BackendLaws {| argsort := srt;
                 topk := fun k row => firstn k (srt row);
                 empty_cell := mem |}.
Proof.
  intros Hperm Hsort.
  assert (Hnd : forall row, NoDup (srt row)).
  { intros row. eapply Permutation_NoDup;
      [symmetry; apply Hperm | apply seq_NoDup]. }
  assert (Hlen : forall row, length (srt row) = length row).
  { intros row. rewrite (Permutation_length (Hperm row)). apply length_seq. }
  constructor; simpl.
  - exact Hperm.
  - intros row. apply desc_gather, Hsort.
  - intros k row Hk. rewrite length_firstn, Hlen. lia.
  - intros k row. specialize (Hnd row).
    rewrite <- (firstn_skipn k (srt row)) in Hnd.
    eapply NoDup_app_remove_r, Hnd.
  - intros k row i Hi. apply in_firstn in Hi.
    apply (Permutation_in _ (Hperm row)) in Hi. apply in_seq in Hi. lia.
  - intros k row i j Hi Hj Hnot.
    assert (Hjs : In j (srt row)).
    { apply (Permutation_in _ (Permutation_sym (Hperm row))).
      apply in_seq. lia. }
    rewrite <- (firstn_skipn k (srt row)) in Hjs.
    apply in_app_or in Hjs. destruct Hjs as [Hjs | Hjs]; [contradiction |].
    specialize (Hsort row).
    rewrite <- (firstn_skipn k (srt row)) in Hsort.
    apply strongly_sorted_app in Hsort.
    destruct Hsort as [_ [_ Hcross]]. apply (Hcross i j Hi Hjs).
Qed.

Lemma stable_laws mem : BackendLaws (stable_backend mem).
Proof.
  apply laws_of_sort; intros row; unfold argsort_stable, argsort_by.
  - apply fold_insert_perm.
  - apply fold_insert_sorted; unfold after_stable; intros i j H.
    + apply negb_true_iff in H. apply sle_total, H.
    + apply negb_false_iff in H. exact H.
Qed.

Lemma reverse_laws mem : BackendLaws (reverse_backend mem).
Proof.
  apply laws_of_sort; intros row; unfold argsort_reverse, argsort_by.
  - apply fold_insert_perm.
  - apply fold_insert_sorted; unfold after_reverse; intros i j H.
    + exact H.
    + apply sle_total, H.
Qed.

End BackendFacts.

Module RankFacts.
Import OrderFacts MergeFacts BatchFacts ScatterFacts GroupFacts StepFacts
  LoopFacts ReadoutFacts BackendFacts.

(** The property depends on the items, not on their order. *)
Lemma top_labels_perm K A A' lrow :
  Permutation A A' -> top_labels K A lrow -> top_labels K A' lrow.
Proof.
  intros Hp [sel [others [filler [H1 [H2 [H3 [H4 H5]]]]]]].
  exists sel, others, filler. split; [rewrite H1; assumption |].
  split; [rewrite <- (Permutation_length Hp); assumption |].
  repeat split; assumption.
Qed.

Section Rank.
Context `{B : Backend} {L : BackendLaws B}.

(** C2, amended: let [items g] be the scored items of entity [g] in the
    whole stream, and [loader] any way of handing them out in batches of
    the shape the loop is written for: source indices [0..m-1] in
    contiguous groups, the ids of these nodes ascending and registered,
    one label and one finite score per triple.  Then [rank] returns, for
    every registered entity, a label row whose first [K] columns hold the
    labels of the [K] highest-scored items of [items g], in descending
    order of score (all of them, followed by whatever fills the unused
    slots, when there are fewer than [K]). *)
Theorem rank_top_k data_src (items : Z -> list (Z * Z)) loader K :
  Forall (fun b => batch_ok (registry data_src) b = true) loader ->
  (forall g, Permutation (seen loader g) (items g)) ->
  exists labels counts,
    rank data_src loader K = Some (labels, counts)
    /\ forall i g, nth_error (registry data_src) i = Some g ->
         exists lrow, nth_error labels i = Some lrow
                      /\ top_labels K (items g) lrow.
Proof.
  intros Hall Hitems.
  destruct (@rank_state_inv B L data_src loader K Hall)
    as [st [Hst [_ [_ [_ Hrows]]]]].
  exists (lbl_buf st), (pos_cnt st). split.
  - unfold rank. rewrite Hst. reflexivity.
  - intros i g Hg.
    destruct (Hrows i g Hg) as [srow [lrow [_ [Hl [_ Hok]]]]].
    exists lrow. split; [assumption |].
    eapply top_labels_perm; [apply Hitems |].
    eapply row_ok_top_labels, Hok.
Qed.

(** The label matrix [rank] returns is the whole working buffer: one row
    per registered entity, [2 * K] columns. *)
Lemma rank_label_shape data_src loader K :
  Forall (fun b => batch_ok (registry data_src) b = true) loader ->
  exists labels counts,
    rank data_src loader K = Some (labels, counts)
    /\ length labels = length (registry data_src)
    /\ Forall (fun row => length row = 2 * K) labels.
Proof.
  intros Hall.
  destruct (@rank_state_inv B L data_src loader K Hall)
    as [st [Hst [_ [Hlen [_ Hrows]]]]].
  exists (lbl_buf st), (pos_cnt st). split; [| split].
  - unfold rank. rewrite Hst. reflexivity.
  - exact Hlen.
  - apply Forall_forall. intros row Hin.
    destruct (In_nth_error _ _ Hin) as [i Hi].
    assert (Hlt : i < length (registry data_src)).
    { rewrite <- Hlen. apply nth_error_Some. congruence. }
    destruct (@nth_error_exists _ (registry data_src) i Hlt) as [g Hg].
    destruct (Hrows i g Hg) as [srow [lrow [_ [Hl [_ Hok]]]]].
    assert (row = lrow) by congruence. subst.
    apply (row_lbl_length Hok).
Qed.

End Rank.
End RankFacts.

Module FrameFacts.
Import OrderFacts MergeFacts BatchFacts ScatterFacts GroupFacts StepFacts
  LoopFacts ReadoutFacts BackendFacts RankFacts.

Lemma masked_update_false {A B} (f : A -> B -> A) buf : forall msk T i,
  nth_error msk i = Some false ->
  nth_error (masked_update f buf msk T) i = nth_error buf i.
Proof.
  induction buf as [| x buf IH]; intros [| m0 msk] T [| i] H;
    simpl in *; try discriminate; try reflexivity.
  - injection H as ->. reflexivity.
  - destruct m0; [destruct T |]; simpl; apply IH, H.
Qed.

Lemma gbl_mask_nth gbl U i g :
  nth_error gbl i = Some g ->
  nth_error (gbl_mask gbl U) i = Some (existsb (Z.eqb g) U).
Proof.
  intros H. unfold gbl_mask.
  apply (map_nth_error (fun x => existsb (Z.eqb x) U)), H.
Qed.

Lemma batch_local_mask `{B : Backend} gbl K t b loc :
  batch_local gbl K t b = Some loc ->
  gbl_msk loc = gbl_mask gbl (batch_uids b).
Proof.
  unfold batch_local, batch_uids, unique.
  destruct (index_select (n_id b) (src_idx b)) as [src_ids |];
    [| discriminate].
  destruct (tensor_max _); [| discriminate].
  destruct (index_put _ _ _ _); [| discriminate].
  destruct (index_put _ _ _ _); [| discriminate].
  destruct (scatter_add _ _ _); [| discriminate].
  intros [= <-]. reflexivity.
Qed.

Lemma sle_antisym a b : sle a b = true -> sle b a = true -> a = b.
Proof.
  destruct a, b; simpl; try congruence.
  rewrite !Z.leb_le. intros. f_equal. lia.
Qed.

Lemma desc_perm_eq l1 : forall l2,
  desc l1 -> desc l2 -> Permutation l1 l2 -> l1 = l2.
Proof.
  unfold desc. induction l1 as [| a l1 IH]; intros l2 H1 H2 Hp.
  - apply Permutation_nil in Hp. subst. reflexivity.
  - destruct l2 as [| b l2];
      [apply Permutation_sym, Permutation_nil in Hp; discriminate |].
    apply StronglySorted_inv in H1. destruct H1 as [H1 Ha].
    apply StronglySorted_inv in H2. destruct H2 as [H2 Hb].
    rewrite Forall_forall in Ha, Hb.
    assert (Hab : a = b).
    { assert (Hina : In a (b :: l2))
        by (apply (Permutation_in _ Hp); left; reflexivity).
      assert (Hinb : In b (a :: l1))
        by (apply (Permutation_in _ (Permutation_sym Hp)); left;
            reflexivity).
      destruct Hina as [-> | Hina]; [reflexivity |].
      destruct Hinb as [-> | Hinb]; [reflexivity |].
      apply sle_antisym; [apply Hb, Hina | apply Ha, Hinb]. }
    subst b. f_equal. apply IH; try assumption.
    eapply Permutation_cons_inv, Hp.
Qed.

Lemma nth_error_map2_inv {A B C} (f : A -> B -> C) l : forall m i z,
  nth_error (map2 f l m) i = Some z ->
  exists a b, nth_error l i = Some a /\ nth_error m i = Some b /\ z = f a b.
Proof.
  induction l as [| x l IH]; intros [| y m] [| i] z H; simpl in *;
    try discriminate.
  - injection H as <-. eauto.
  - eauto.
Qed.

Section Frame.
Context `{B : Backend} {L : BackendLaws B}.

(** Sorting a sorted row gives the row back. *)
Lemma resort_sorted srow :
  desc srow -> gather NInf srow (argsort srow) = srow.
Proof.
  intros Hd. apply desc_perm_eq; [apply argsort_desc | assumption |].
  apply gather_perm, argsort_perm.
Qed.

(** What the second sort does to the labels of a sorted row. *)
Lemma relabel_sorted srow lrow :
  desc srow -> length lrow = length srow ->
  let lrow' := gather 0%Z lrow (argsort srow) in
  Permutation (combine srow lrow') (combine srow lrow)
  /\ Permutation lrow' lrow
  /\ (forall j, j < length srow -> untied srow j ->
        nth j lrow' 0%Z = nth j lrow 0%Z)
  /\ (argsort srow = seq 0 (length srow) -> lrow' = lrow).
Proof.
  intros Hd Hlen lrow'.
  pose proof (resort_sorted Hd) as Hsame.
  pose proof (argsort_perm srow) as Hperm.
  pose proof (argsort_length srow) as Hilen.
  split; [| split; [| split]].
  - rewrite <- Hsame at 1. unfold lrow'.
    rewrite combine_gather by lia.
    apply gather_perm. rewrite length_combine, Hlen, Nat.min_id. assumption.
  - apply gather_perm. rewrite Hlen. assumption.
  - intros j Hj Hun. unfold lrow', gather.
    assert (Hnth : forall (A : Type) (row : list A) d,
               nth j (map (fun i => nth i row d) (argsort srow)) d
               = nth (nth j (argsort srow) 0) row d).
    { intros A row d.
      rewrite (nth_indep _ d (nth 0 row d))
        by (rewrite length_map; lia).
      apply (map_nth (fun i => nth i row d)). }
    rewrite Hnth. f_equal. apply Hun.
    + assert (Hin : In (nth j (argsort srow) 0) (argsort srow))
        by (apply nth_In; lia).
      apply (Permutation_in _ Hperm) in Hin. apply in_seq in Hin. lia.
    + rewrite <- Hnth. fold (gather NInf srow (argsort srow)).
      rewrite Hsame. reflexivity.
  - intros Hid. unfold lrow'. rewrite Hid, <- Hlen. apply gather_seq.
Qed.

(** The merge step on a row that the mask does not select. *)
Lemma merge_frame K st loc i srow lrow p :
  nth_error (gbl_msk loc) i = Some false ->
  nth_error (scr_buf st) i = Some srow ->
  nth_error (lbl_buf st) i = Some lrow ->
  nth_error (pos_cnt st) i = Some p ->
  desc srow ->
  nth_error (pos_cnt (merge K st loc)) i = Some p
  /\ nth_error (scr_buf (merge K st loc)) i = Some srow
  /\ nth_error (lbl_buf (merge K st loc)) i
     = Some (gather 0%Z lrow (argsort srow)).
Proof.
  intros Hm Hs Hl Hp Hd. unfold merge. simpl.
  split; [rewrite masked_update_false; assumption |].
  assert (Hs1 : nth_error
                  (masked_update (fun row t => firstn K row ++ t)
                     (scr_buf st) (gbl_msk loc) (scr_top loc)) i
                = Some srow)
    by (rewrite masked_update_false; assumption).
  assert (Hl1 : nth_error
                  (masked_update (fun row t => firstn K row ++ t)
                     (lbl_buf st) (gbl_msk loc) (lbl_top loc)) i
                = Some lrow)
    by (rewrite masked_update_false; assumption).
  destruct (@sorted_row B _ _ i _ _ Hs1 Hl1) as [Hs2 Hl2].
  rewrite Hs2, Hl2, (resort_sorted Hd). split; reflexivity.
Qed.

Lemma sorted_state_init n K : sorted_state (init_state n K).
Proof.
  intros i srow lrow Hs Hl. unfold init_state in Hs, Hl.
  cbn [scr_buf lbl_buf] in Hs, Hl. unfold full in Hs.
  assert (Hi : i < n).
  { assert (Hn : nth_error (repeat (repeat NInf (2 * K)) n) i <> None)
      by congruence.
    apply nth_error_Some in Hn. rewrite repeat_length in Hn. exact Hn. }
  rewrite nth_error_repeat in Hs by assumption. injection Hs as <-.
  destruct (@nth_error_empty B 0 n (2 * K) i Hi) as [junk [Hj Hlen]].
  rewrite Hj in Hl. injection Hl as <-.
  split; [apply desc_repeat | rewrite repeat_length; assumption].
Qed.

Lemma sorted_state_merge K st loc : sorted_state (merge K st loc).
Proof.
  intros i srow lrow Hs Hl. unfold merge in *. simpl in *.
  apply nth_error_map2_inv in Hs. destruct Hs as [x [ix [Hx [Hix ->]]]].
  apply nth_error_map2_inv in Hl. destruct Hl as [y [iy [Hy [Hiy ->]]]].
  rewrite nth_error_map, Hx in Hix, Hiy. simpl in Hix, Hiy.
  injection Hix as <-. injection Hiy as <-.
  split; [apply argsort_desc |].
  rewrite !gather_length. reflexivity.
Qed.

Lemma sorted_state_loop gbl K loader : forall t st st',
  sorted_state st -> rank_loop gbl K t st loader = Some st' ->
  sorted_state st'.
Proof.
  induction loader as [| b loader IH]; intros t st st' Hst Hloop;
    simpl in Hloop.
  - injection Hloop as <-. assumption.
  - unfold rank_step in Hloop.
    destruct (batch_local gbl K t b) as [loc |]; [| discriminate].
    eapply IH; [| exact Hloop]. apply sorted_state_merge.
Qed.

End Frame.
End FrameFacts.

Module ScatterBounds.
Import OrderFacts MergeFacts BatchFacts ScatterFacts GroupFacts StepFacts
  LoopFacts ReadoutFacts BackendFacts RankFacts FrameFacts.


Lemma col_idx_length cnts :
  length (concat (map (seq 0) cnts)) = list_sum cnts.
Proof.
  induction cnts as [| c cnts IH]; simpl; [reflexivity |].
  rewrite length_app, length_seq, IH. reflexivity.
Qed.

Lemma col_idx_bound cnts c :
  In c (concat (map (seq 0) cnts)) -> c < list_max cnts.
Proof.
  intros H. apply in_concat in H. destruct H as [l [Hl Hc]].
  apply in_map_iff in Hl. destruct Hl as [k [<- Hk]].
  apply in_seq in Hc.
  assert (Hall : Forall (fun x => x <= list_max cnts) cnts)
    by (apply list_max_le; lia).
  rewrite Forall_forall in Hall. specialize (Hall k Hk). lia.
Qed.

Lemma insert_count_key x l : In x (map fst (insert_count x l)).
Proof.
  induction l as [| [y c] l IH]; simpl; [left; reflexivity |].
  destruct (x <? y)%Z; [left; reflexivity |].
  destruct (Z.eqb_spec x y) as [-> | _]; simpl; [left; reflexivity |].
  right. exact IH.
Qed.

Lemma insert_count_keeps x l k :
  In k (map fst l) -> In k (map fst (insert_count x l)).
Proof.
  induction l as [| [y c] l IH]; simpl; [contradiction |].
  destruct (x <? y)%Z; [simpl; auto |].
  destruct (Z.eqb_spec x y) as [-> | _]; simpl; [auto |].
  intros [H | H]; auto.
Qed.

(** [unique] has the elements of its argument. *)
Lemma unique_in l k : In k (unique l) <-> In k l.
Proof.
  unfold unique, unique_counts. induction l as [| x l IH]; simpl;
    [tauto |].
  split.
  - intros H. apply insert_count_keys in H. destruct H as [-> | H];
      [left; reflexivity | right; apply IH, H].
  - intros [<- | H]; [apply insert_count_key |].
    apply insert_count_keeps, IH, H.
Qed.

Lemma asc_nodup l : asc l -> NoDup l.
Proof.
  unfold asc. induction 1 as [| x l _ IH Hx]; constructor; [| assumption].
  intros Hin. rewrite Forall_forall in Hx. specialize (Hx x Hin). lia.
Qed.



End ScatterBounds.

Module FrameTheorems.
Import OrderFacts MergeFacts BatchFacts ScatterFacts GroupFacts StepFacts
  LoopFacts ReadoutFacts BackendFacts RankFacts FrameFacts Examples.

Section Theorems.
Context `{B : Backend} {L : BackendLaws B}.

(** C8, amended: a batch leaves the count and the score row of every
    entity outside its active set as they are; the label row is gathered
    again by the argsort of the score row, so each label stays with its
    score, stays in its column wherever the score of the column is not
    tied, and the whole row stays as it is when argsort keeps the order
    of equal scores. *)
Theorem step_frame gbl K done t st b st' i g srow lrow p :
  rank_loop gbl K 0 (init_state (length gbl) K) done = Some st ->
  rank_step gbl K t st b = Some st' ->
  nth_error gbl i = Some g -> ~ In g (batch_uids b) ->
  nth_error (scr_buf st) i = Some srow ->
  nth_error (lbl_buf st) i = Some lrow ->
  nth_error (pos_cnt st) i = Some p ->
  nth_error (pos_cnt st') i = Some p
  /\ nth_error (scr_buf st') i = Some srow
  /\ exists lrow',
       nth_error (lbl_buf st') i = Some lrow'
       /\ Permutation (combine srow lrow') (combine srow lrow)
       /\ (forall j, j < length srow -> untied srow j ->
             nth j lrow' 0%Z = nth j lrow 0%Z)
       /\ (keeps_sorted -> lrow' = lrow).
Proof.
  intros Hreach Hstep Hg Hout Hs Hl Hp.
  pose proof (@sorted_state_loop B L gbl K done 0 _ st
                (sorted_state_init _ _) Hreach) as Hsorted.
  destruct (Hsorted i srow lrow Hs Hl) as [Hd Hlen].
  unfold rank_step in Hstep.
  destruct (batch_local gbl K t b) as [loc |] eqn:Hloc; [| discriminate].
  injection Hstep as <-.
  assert (Hm : nth_error (gbl_msk loc) i = Some false).
  { rewrite (@batch_local_mask B gbl K t b loc Hloc),
        (@gbl_mask_nth gbl (batch_uids b) i g Hg).
    rewrite existsb_eqb_notin by assumption. reflexivity. }
  destruct (@merge_frame B L K st loc i srow lrow p Hm Hs Hl Hp Hd)
    as [Hp' [Hs' Hl']].
  split; [assumption |]. split; [assumption |].
  exists (gather 0%Z lrow (argsort srow)). split; [assumption |].
  destruct (@relabel_sorted B L srow lrow Hd Hlen) as [H1 [_ [H2 H3]]].
  split; [assumption |]. split; [assumption |].
  intros Hk. apply H3, Hk, Hd.
Qed.

(** C9, amended: for a registered entity that is in no batch, the score
    row is all [-inf], the count is 0, and the label row returned is a
    rearrangement of the uninitialised memory [torch.empty] handed out
    for that row (the memory itself when argsort keeps the order of equal
    scores). *)
Theorem never_seen_row data_src loader K st i g :
  rank_state data_src loader K = Some st ->
  nth_error (registry data_src) i = Some g ->
  (forall b, In b loader -> ~ In g (batch_uids b)) ->
  nth_error (scr_buf st) i = Some (repeat NInf (2 * K))
  /\ nth_error (pos_cnt st) i = Some 0%Z
  /\ exists lrow,
       nth_error (lbl_buf st) i = Some lrow
       /\ Permutation lrow (map (empty_cell 0 i) (seq 0 (2 * K)))
       /\ (keeps_sorted -> lrow = map (empty_cell 0 i) (seq 0 (2 * K))).
Proof.
  unfold rank_state. set (gbl := registry data_src).
  set (init := map (empty_cell 0 i) (seq 0 (2 * K))).
  intros Hrun Hg Hout.
  assert (Hi : i < length gbl) by (apply nth_error_Some; congruence).
  assert (Hgen : forall loader t st0 st1,
    (forall b, In b loader -> ~ In g (batch_uids b)) ->
    rank_loop gbl K t st0 loader = Some st1 ->
    (nth_error (scr_buf st0) i = Some (repeat NInf (2 * K))
     /\ nth_error (pos_cnt st0) i = Some 0%Z
     /\ exists lrow, nth_error (lbl_buf st0) i = Some lrow
                     /\ Permutation lrow init
                     /\ (keeps_sorted -> lrow = init)) ->
    (nth_error (scr_buf st1) i = Some (repeat NInf (2 * K))
     /\ nth_error (pos_cnt st1) i = Some 0%Z
     /\ exists lrow, nth_error (lbl_buf st1) i = Some lrow
                     /\ Permutation lrow init
                     /\ (keeps_sorted -> lrow = init))).
  { clear Hrun Hout loader st.
    induction loader as [| b loader IH]; intros t st0 st1 Hout Hloop Hrow;
      simpl in Hloop.
    - injection Hloop as <-. assumption.
    - unfold rank_step in Hloop.
      destruct (batch_local gbl K t b) as [loc |] eqn:Hloc;
        [| discriminate].
      apply (IH (S t) (merge K st0 loc) st1);
        [intros b' Hb'; apply Hout; right; assumption | assumption |].
      destruct Hrow as [Hs [Hp [lrow [Hl [Hperm Hk]]]]].
      assert (Hm : nth_error (gbl_msk loc) i = Some false).
      { rewrite (@batch_local_mask B gbl K t b loc Hloc),
        (@gbl_mask_nth gbl (batch_uids b) i g Hg).
        rewrite existsb_eqb_notin
          by (apply Hout; left; reflexivity).
        reflexivity. }
      pose proof (desc_repeat (2 * K)) as Hd.
      destruct (@merge_frame B L K st0 loc i _ lrow _ Hm Hs Hl Hp Hd)
        as [Hp' [Hs' Hl']].
      assert (Hlen : length lrow = length (repeat NInf (2 * K))).
      { rewrite (Permutation_length Hperm). unfold init.
        rewrite length_map, length_seq, repeat_length. reflexivity. }
      destruct (@relabel_sorted B L _ lrow Hd Hlen) as [_ [H1 [_ H3]]].
      split; [assumption |]. split; [assumption |].
      eexists. split; [exact Hl' |]. split.
      + rewrite H1. assumption.
      + intros Hks. rewrite H3 by (apply Hks, Hd). apply Hk, Hks. }
  apply (Hgen loader 0 _ st Hout Hrun).
  unfold init_state, full, torch_empty. cbn [scr_buf lbl_buf pos_cnt].
  split; [apply nth_error_repeat, Hi |].
  split; [apply nth_error_repeat, Hi |].
  exists init. split; [| split; [reflexivity | reflexivity]].
  unfold init.
  rewrite (map_nth_error
             (fun i0 => map (fun j => empty_cell 0 i0 j) (seq 0 (2 * K)))
             i (seq 0 (length gbl)) (d := i)).
  - reflexivity.
  - rewrite nth_error_seq. apply Nat.ltb_lt in Hi. rewrite Hi. reflexivity.
Qed.

End Theorems.

(** C8, as stated, fails for an argsort that does not keep the order of
    equal scores: entity 1 holds two items of score 5 with the labels 0
    and 1; a batch of entity 2 alone swaps them. *)
Lemma frame_labels_move :
  let B := reverse_backend zero_mem in
  let st := {| scr_buf := [[Fin 5; Fin 5]; [NInf; NInf]];
               lbl_buf := [[0; 1]; [0; 0]];
               pos_cnt := [1; 0] |}%Z in
  BackendLaws B
  /\ rank_loop [1; 2]%Z 1 0 (init_state 2 1) [tie_1; tie_2] = Some st
  /\ ~ In 1%Z (batch_uids other)
  /\ exists st', rank_step [1; 2]%Z 1 2 st other = Some st'
                 /\ nth_error (lbl_buf st) 0 = Some [0; 1]%Z
                 /\ nth_error (lbl_buf st') 0 = Some [1; 0]%Z.
Proof.
  intros B st. split; [apply reverse_laws |].
  split; [reflexivity |]. split.
  - simpl. intros [H | []]. discriminate.
  - eexists. split; [reflexivity |]. split; reflexivity.
Qed.

Lemma step_frame_witness :
  let B := stable_backend zero_mem in
  let st' := {| scr_buf := [[Fin 5; Fin 5]; [Fin 3; NInf]];
                lbl_buf := [[1; 0]; [1; 0]];
                pos_cnt := [1; 1] |}%Z in
  nth_error (pos_cnt st') 0 = Some 1%Z
  /\ nth_error (scr_buf st') 0 = Some [Fin 5; Fin 5]
  /\ exists lrow',
       nth_error (lbl_buf st') 0 = Some lrow'
       /\ Permutation (combine [Fin 5; Fin 5] lrow')
            (combine [Fin 5; Fin 5] [1; 0]%Z)
       /\ (forall j, j < length [Fin 5; Fin 5] -> untied [Fin 5; Fin 5] j ->
             nth j lrow' 0%Z = nth j [1; 0]%Z 0%Z)
       /\ (keeps_sorted -> lrow' = [1; 0]%Z).
Proof.
  intros B st'.
  apply (@step_frame B (stable_laws zero_mem) [1; 2]%Z 1 [tie_1; tie_2] 2
           {| scr_buf := [[Fin 5; Fin 5]; [NInf; NInf]];
              lbl_buf := [[1; 0]; [0; 0]];
              pos_cnt := [1; 0] |}%Z
           other st' 0 1%Z).
  - reflexivity.
  - reflexivity.
  - reflexivity.
  - simpl. intros [H | []]. discriminate.
  - reflexivity.
  - reflexivity.
  - reflexivity.
Defined.

(** C9, as stated, fails: the labels returned for an entity that is in
    no batch are whatever the memory held; with zeros there the row is
    all zero, with a one there it shows a hit. *)
Lemma never_seen_labels_arbitrary :
  (forall b, In b [other] -> ~ In 1%Z (batch_uids b))
  /\ @rank (stable_backend zero_mem) [1; 2]%Z [other] 1
     = Some ([[0; 0]; [1; 0]], [0; 1])%Z
  /\ @rank (stable_backend one_mem) [1; 2]%Z [other] 1
     = Some ([[1; 0]; [1; 1]], [0; 1])%Z.
Proof.
  split; [| split; reflexivity].
  intros b [<- | []]. simpl. intros [H | []]. discriminate.
Qed.

Lemma never_seen_row_witness :
  let B := stable_backend one_mem in
  let st := {| scr_buf := [[NInf; NInf]; [Fin 3; NInf]];
               lbl_buf := [[1; 0]; [1; 1]];
               pos_cnt := [0; 1] |}%Z in
  nth_error (scr_buf st) 0 = Some (repeat NInf (2 * 1))
  /\ nth_error (pos_cnt st) 0 = Some 0%Z
  /\ exists lrow,
       nth_error (lbl_buf st) 0 = Some lrow
       /\ Permutation lrow (map (empty_cell 0 0) (seq 0 (2 * 1)))
       /\ (keeps_sorted -> lrow = map (empty_cell 0 0) (seq 0 (2 * 1))).
Proof.
  intros B st.
  apply (@never_seen_row B (stable_laws one_mem) [1; 2]%Z [other] 1 st 0
           1%Z).
  - reflexivity.
  - reflexivity.
  - intros b [<- | []]. simpl. intros [H | []]. discriminate.
Defined.

End FrameTheorems.

Module RankExamples.
Import OrderFacts MergeFacts BatchFacts ScatterFacts GroupFacts StepFacts
  LoopFacts ReadoutFacts BackendFacts RankFacts FrameFacts ScatterBounds
  Examples.

(** C1: on the scenario of the specification with [K = 3] the matrix
    returned has six columns: the three labels of the top-3, the label of
    the fourth item, and two cells of uninitialised memory. *)
Theorem rank_returns_working_buffer :
  @rank (stable_backend seven_mem) [5; 5; 5; 5]%Z [scenario_1; scenario_2] 3
  = Some ([[1; 0; 1; 1; 7; 7]], [3])%Z
  /\ length [1; 0; 1; 1; 7; 7]%Z = 2 * 3
  /\ length [1; 0; 1; 1; 7; 7]%Z <> 3.
Proof. split; [reflexivity |]. split; [reflexivity | discriminate]. Qed.

Lemma rank_top_k_witness :
  exists labels counts,
    @rank (stable_backend seven_mem) [5; 5; 5; 5]%Z
      [scenario_1; scenario_2] 3 = Some (labels, counts)
    /\ forall i g, nth_error (registry [5; 5; 5; 5]%Z) i = Some g ->
         exists lrow, nth_error labels i = Some lrow
                      /\ top_labels 3 (seen [scenario_1; scenario_2] g) lrow.
Proof.
  apply (@rank_top_k (stable_backend seven_mem) (stable_laws seven_mem)
           [5; 5; 5; 5]%Z (seen [scenario_1; scenario_2])
           [scenario_1; scenario_2] 3).
  - constructor; [reflexivity |]. constructor; [reflexivity |]. constructor.
  - intros g. reflexivity.
Defined.

(** A row index can also leave the temporary matrix: a batch whose
    only source index is 1 has one active row, and the loop body
    raises. *)
Lemma sparse_batch_raises :
  batch_ok [7; 9]%Z sparse = false
  /\ @rank (stable_backend zero_mem) [7; 9]%Z [sparse] 1 = None.
Proof. split; reflexivity. Qed.

End RankExamples.


(** ** Facts about the reducer *)
Module ReducerFacts.
Import Ranker Reducer TensorFacts Examples.

Lemma nan_add_l a b : is_nan a -> is_nan (PrimFloat.add a b).
Proof.
  unfold is_nan. intros Ha. rewrite FloatAxioms.add_spec, Ha. reflexivity.
Qed.

Lemma nan_add_r a b : is_nan b -> is_nan (PrimFloat.add a b).
Proof.
  unfold is_nan. intros Hb. rewrite FloatAxioms.add_spec, Hb.
  destruct (FloatOps.Prim2SF a) as [| [] | |]; reflexivity.
Qed.

Lemma nan_div_l a b : is_nan a -> is_nan (PrimFloat.div a b).
Proof.
  unfold is_nan. intros Ha. rewrite FloatAxioms.div_spec, Ha. reflexivity.
Qed.

Lemma nan_fold_acc l : forall acc, is_nan acc -> is_nan (fold_left PrimFloat.add l acc).
Proof.
  induction l as [| x l IH]; intros acc Hacc; simpl; [assumption |].
  apply IH, nan_add_l, Hacc.
Qed.

Lemma nan_fold l : forall acc, Exists is_nan l -> is_nan (fold_left PrimFloat.add l acc).
Proof.
  induction l as [| x l IH]; intros acc Hex; inversion Hex; subst; simpl.
  - apply nan_fold_acc, nan_add_r. assumption.
  - apply IH. assumption.
Qed.

Lemma nan_mean l : Exists is_nan l -> is_nan (mean l).
Proof. intros H. apply nan_div_l, nan_fold, H. Qed.

Lemma fsum_zeros row : Forall (eq 0%Z) row -> fsum (map of_Z row) = PrimFloat.zero.
Proof.
  unfold fsum. induction 1 as [| x row Hx _ IH]; simpl; [reflexivity |].
  subst x. exact IH.
Qed.

Lemma zero_div_zero_nan : is_nan (PrimFloat.div PrimFloat.zero PrimFloat.zero).
Proof. reflexivity. Qed.

Lemma nth_error_Exists {A} (P : A -> Prop) l i x :
  nth_error l i = Some x -> P x -> Exists P l.
Proof.
  intros Hi Hx. apply Exists_exists. exists x. split; [| assumption].
  eapply nth_error_In, Hi.
Qed.

(** An entity without positives whose label row sums to zero gets
    [0 / 0] from [recall_score]. *)
Lemma recall_zero_total_nan score total i row :
  nth_error score i = Some row -> nth_error total i = Some 0%Z ->
  Forall (eq 0%Z) row ->
  exists x, nth_error (recall_score score total) i = Some x /\ is_nan x.
Proof.
  intros Hrow Htot Hz. eexists. split.
  - unfold recall_score. eapply nth_error_map2; eassumption.
  - rewrite (fsum_zeros Hz). exact zero_div_zero_nan.
Qed.

(** C5, as stated, fails: [recall_score] carries out the division for an
    entity with [pos_counts = 0] and [composite] averages the quotient, so
    the scalar it returns is not a number. *)
Lemma recall_undefined_leaks :
  let B := stable_backend (fun _ _ _ => 0%Z) in
  rank [5%Z] [no_positive_batch] 1 = Some ([[0%Z; 0%Z]], [0%Z])
  /\ recall_score [[0%Z; 0%Z]] [0%Z]
     = [PrimFloat.div PrimFloat.zero PrimFloat.zero]
  /\ exists x, composite [5%Z] [no_positive_batch] 1 [recall_score] = Some [x]
               /\ is_nan x.
Proof.
  intros B. split; [reflexivity |]. split; [reflexivity |].
  eexists. split; reflexivity.
Qed.

(** C5, amended: [recall_score] divides unchecked, so an entity with
    [pos_counts = 0] and an all-zero label row yields the IEEE-754
    not-a-number, and the mean taken by [composite] includes it: the scalar
    returned for [recall_score] is not a number either. *)
Theorem recall_nan_reaches_composite `{Backend} data_src loader at_k
  labels counts i row :
  rank data_src loader at_k = Some (labels, counts) ->
  nth_error labels i = Some row ->
  nth_error counts i = Some 0%Z ->
  Forall (eq 0%Z) row ->
  (exists x, nth_error (recall_score labels counts) i = Some x /\ is_nan x)
  /\ exists y, composite data_src loader at_k [recall_score] = Some [y]
               /\ is_nan y.
Proof.
  intros Hrank Hrow Hcnt Hz.
  destruct (@recall_zero_total_nan labels counts i row Hrow Hcnt Hz)
    as [x [Hx Hnan]].
  split; [exists x; auto |].
  unfold composite. rewrite Hrank. eexists. split; [reflexivity |].
  apply nan_mean. eapply nth_error_Exists; eassumption.
Qed.

Lemma recall_nan_reaches_composite_witness :
  exists y, @composite (stable_backend (fun _ _ _ => 0%Z))
              [5%Z] [no_positive_batch] 1 [recall_score] = Some [y]
            /\ is_nan y.
Proof.
  apply (@recall_nan_reaches_composite (stable_backend (fun _ _ _ => 0%Z))
           [5%Z] [no_positive_batch] 1 [[0%Z; 0%Z]] [0%Z] 0 [0%Z; 0%Z]).
  - reflexivity.
  - reflexivity.
  - reflexivity.
  - repeat constructor.
Defined.

End ReducerFacts.

(** ** Facts about the discounted gain *)
Module GainFacts.
Import Reals Lra Gain TensorFacts.
Local Open Scope R_scope.

Lemma ln2_pos : 0 < ln 2.
Proof. rewrite <- ln_1. apply ln_increasing; lra. Qed.

Lemma log2_2 : log2 2 = 1.
Proof. unfold log2. field. pose proof ln2_pos. lra. Qed.

Lemma log2_ge_1 x : 2 <= x -> 1 <= log2 x.
Proof.
  intros Hx. unfold log2. pose proof ln2_pos as Hp.
  assert (Hle : ln 2 <= ln x).
  { destruct Hx as [Hlt | <-]; [left; apply ln_increasing; lra | right; reflexivity]. }
  apply Rmult_le_reg_r with (ln 2); [assumption |].
  unfold Rdiv. rewrite Rmult_assoc, Rinv_l by lra. lra.
Qed.

Lemma log2_3_gt_1 : 1 < log2 3.
Proof.
  unfold log2. pose proof ln2_pos as Hp.
  assert (Hlt : ln 2 < ln 3) by (apply ln_increasing; lra).
  apply Rmult_lt_reg_r with (ln 2); [assumption |].
  unfold Rdiv. rewrite Rmult_assoc, Rinv_l by lra. lra.
Qed.

Lemma coef_ge_1 r : 1 <= log2 (INR r + 2).
Proof. apply log2_ge_1. pose proof (pos_INR r). lra. Qed.

Lemma ndcg_coefs_length count : length (ndcg_coefs count) = count.
Proof. unfold ndcg_coefs. rewrite length_map, length_seq. reflexivity. Qed.

(** What the code computes for one entity with the default coefficients. *)
Lemma ndcg_score_single row p :
  ndcg_score [row] (TotalTensor [p]) None
  = Some [gain_sum (ndcg_coefs (length row)) row
          / norm_sum (length row) (ndcg_coefs (length row)) p].
Proof.
  unfold ndcg_score, expand_coefs. rewrite ndcg_coefs_length, Nat.eqb_refl.
  reflexivity.
Qed.

Lemma coefs_2 : ndcg_coefs 2 = [1; log2 3].
Proof.
  unfold ndcg_coefs. simpl map.
  replace (0 + 2) with 2 by lra. replace (1 + 2) with 3 by lra.
  rewrite log2_2. reflexivity.
Qed.

Lemma coefs_3 : ndcg_coefs 3 = [1; log2 3; log2 4].
Proof.
  unfold ndcg_coefs. simpl map.
  replace (0 + 2) with 2 by lra. replace (1 + 2) with 3 by lra.
  replace (1 + 1 + 2) with 4 by lra.
  rewrite log2_2. reflexivity.
Qed.

(** Two positives in the two slots of a row, counted as two. *)
Lemma ndcg_two_ones :
  exists v, ndcg_score [[1; 1]] (TotalTensor [2%Z]) None = Some [v]
            /\ v = (1 / 1 + (1 / log2 3 + 0)) / (1 + (log2 3 + 0))
            /\ v < 1.
Proof.
  pose proof log2_3_gt_1 as H3.
  eexists. split; [apply ndcg_score_single |].
  simpl length. rewrite coefs_2.
  split; [reflexivity |].
  unfold gain_sum, norm_sum. simpl.
  apply Rmult_lt_reg_r with (1 + (log2 3 + 0)); [lra |].
  unfold Rdiv at 1. rewrite Rmult_assoc, Rinv_l by lra.
  assert (1 / log2 3 < 1).
  { apply Rmult_lt_reg_r with (log2 3); [lra |].
    unfold Rdiv. rewrite Rmult_assoc, Rinv_l by lra. lra. }
  lra.
Qed.

Lemma ndcg_formula_two_ones : ndcg_formula 2 [1; 1] 2 = 1.
Proof.
  pose proof log2_3_gt_1 as H3.
  unfold ndcg_formula. simpl.
  replace (0 + 2) with 2 by lra. replace (1 + 2) with 3 by lra.
  rewrite log2_2. field. split; lra.
Qed.

(** C3: on two positives ranked first and second the code returns less
    than 1, where the formula of the specification gives 1: the code sums
    [log2(r+2)] in the normaliser, the formula [1/log2(r+2)]. *)
Theorem ndcg_score_not_formula :
  exists v, ndcg_score [[1; 1]] (TotalTensor [2%Z]) None = Some [v]
            /\ v = (1 / 1 + (1 / log2 3 + 0)) / (1 + (log2 3 + 0))
            /\ v < 1
            /\ ndcg_formula 2 [1; 1] 2 = 1.
Proof.
  destruct ndcg_two_ones as [v [Hv [Heq Hlt]]].
  exists v. repeat split; try assumption. apply ndcg_formula_two_ones.
Qed.

Lemma map2_app {A B C} (f : A -> B -> C) l1 : forall m1 l2 m2,
  length l1 = length m1 ->
  map2 f (l1 ++ l2) (m1 ++ m2) = map2 f l1 m1 ++ map2 f l2 m2.
Proof.
  induction l1 as [| a l1 IH]; intros [| b m1] l2 m2 Hlen;
    simpl in *; try discriminate; [reflexivity |].
  f_equal. apply IH. lia.
Qed.

Lemma rsum_app l m : rsum (l ++ m) = rsum l + rsum m.
Proof. unfold rsum. induction l; simpl; lra. Qed.

Lemma ndcg_coefs_S K :
  ndcg_coefs (S K) = ndcg_coefs K ++ [log2 (INR K + 2)].
Proof. unfold ndcg_coefs. rewrite seq_S, map_app. reflexivity. Qed.

(** The masked sum of the coefficients is at least the number of ranks
    below the threshold. *)
Lemma masked_sum_lower K : forall m, (0 <= m)%Z ->
  IZR (Z.min m (Z.of_nat K))
  <= rsum (map2 (fun r c => if (Z.of_nat r <? m)%Z then c else 0)
             (seq 0 K) (ndcg_coefs K)).
Proof.
  induction K as [| K IH]; intros m Hm.
  - simpl. rewrite Z.min_r by lia. lra.
  - rewrite seq_S, ndcg_coefs_S, map2_app, rsum_app
      by (rewrite length_seq, ndcg_coefs_length; reflexivity).
    specialize (IH m Hm). change (0 + K)%nat with K. simpl map2. simpl rsum.
    pose proof (coef_ge_1 K) as Hc.
    destruct (Z.ltb_spec (Z.of_nat K) m) as [Hlt | Hge].
    + rewrite Z.min_r in IH by lia.
      assert (Hle : (Z.min m (Z.of_nat (S K)) <= Z.of_nat K + 1)%Z) by lia.
      apply IZR_le in Hle. rewrite plus_IZR in Hle. lra.
    + rewrite Z.min_l in * by lia. lra.
Qed.

Lemma binary_sum_nonneg row : binary row -> 0 <= rsum row.
Proof. induction 1 as [| x l [-> | ->] _ IH]; simpl in *; lra. Qed.

Lemma gain_sum_bounds coefs : forall row,
  Forall (fun c => 1 <= c) coefs -> binary row ->
  0 <= gain_sum coefs row <= rsum row.
Proof.
  unfold gain_sum, binary.
  induction coefs as [| c coefs IH]; intros row Hc Hb.
  - destruct row; simpl.
    + lra.
    + split; [lra |]. apply (binary_sum_nonneg Hb).
  - destruct row as [| x row]; simpl; [lra |].
    inversion Hc as [| ? ? Hc1 Hc']; subst.
    inversion Hb as [| ? ? Hx Hb']; subst.
    specialize (IH row Hc' Hb').
    assert (0 <= x / c <= x).
    { destruct Hx as [-> | ->].
      - unfold Rdiv. rewrite Rmult_0_l. lra.
      - split.
        + apply Rlt_le, Rdiv_lt_0_compat; lra.
        + apply Rmult_le_reg_r with c; [lra |].
          unfold Rdiv. rewrite Rmult_assoc, Rinv_l by lra. lra. }
    lra.
Qed.

Lemma binary_sum_le_length row : binary row -> rsum row <= INR (length row).
Proof.
  induction 1 as [| x row [-> | ->] _ IH].
  - simpl. lra.
  - change (length (0 :: row)) with (S (length row)). rewrite S_INR.
    simpl. lra.
  - change (length (1 :: row)) with (S (length row)). rewrite S_INR.
    simpl. lra.
Qed.

Lemma ndcg_coefs_ge_1 K : Forall (fun c => 1 <= c) (ndcg_coefs K).
Proof.
  unfold ndcg_coefs. apply Forall_forall. intros c Hin.
  apply in_map_iff in Hin. destruct Hin as [r [<- _]]. apply coef_ge_1.
Qed.

(** The value the code computes for a row whose ones do not outnumber the
    positives counted for the entity. *)
Lemma ndcg_row_unit_interval row p :
  (0 < length row)%nat -> (0 < p)%Z -> binary row -> rsum row <= IZR p ->
  let cs := ndcg_coefs (length row) in
  0 <= gain_sum cs row / norm_sum (length row) cs p <= 1.
Proof.
  intros HK Hp Hb Hones cs.
  pose proof (gain_sum_bounds (ndcg_coefs_ge_1 (length row)) Hb) as [Hg0 Hg1].
  pose proof (binary_sum_le_length Hb) as Hlen.
  assert (Hnorm : IZR (Z.min p (Z.of_nat (length row)))
                  <= norm_sum (length row) cs p).
  { unfold norm_sum.
    pose proof (@masked_sum_lower (length row)
                  (Z.min p (Z.of_nat (length row)))) as Hm.
    replace (Z.min (Z.min p (Z.of_nat (length row))) (Z.of_nat (length row)))
      with (Z.min p (Z.of_nat (length row))) in Hm by lia.
    apply Hm. lia. }
  assert (Hmin1 : 1 <= IZR (Z.min p (Z.of_nat (length row))))
    by (apply IZR_le; lia).
  assert (Hones' : rsum row <= IZR (Z.min p (Z.of_nat (length row)))).
  { destruct (Z.min_spec p (Z.of_nat (length row))) as [[_ ->] | [_ ->]].
    - assumption.
    - rewrite <- INR_IZR_INZ. assumption. }
  fold cs in Hg0, Hg1.
  set (g := gain_sum cs row) in *. set (n := norm_sum (length row) cs p) in *.
  split.
  - unfold Rdiv. apply Rmult_le_pos; [assumption |].
    apply Rlt_le, Rinv_0_lt_compat. lra.
  - apply Rmult_le_reg_r with n; [lra |].
    unfold Rdiv. rewrite Rmult_assoc, Rinv_l by lra. lra.
Qed.

Lemma columns_of_row (score : matrix R) K i row :
  Forall (fun r => length r = K) score -> nth_error score i = Some row ->
  columns score = K /\ length row = K.
Proof.
  intros Hall Hi. split.
  - destruct score as [| r0 score]; [destruct i; discriminate |].
    inversion Hall; subst. reflexivity.
  - rewrite Forall_forall in Hall. apply Hall. eapply nth_error_In, Hi.
Qed.

(** X20: for an entity with a positive total, binary labels and no more
    ones in its row than the total, the value of [ndcg_score] lies in
    the unit interval. *)
Theorem ndcg_score_unit_interval score total K i row p :
  (0 < K)%nat -> Forall (fun r => length r = K) score ->
  length total = length score ->
  nth_error score i = Some row -> nth_error total i = Some p ->
  (0 < p)%Z -> binary row -> rsum row <= IZR p ->
  exists res v, ndcg_score score (TotalTensor total) None = Some res
                /\ nth_error res i = Some v /\ 0 <= v <= 1.
Proof.
  intros HK Hall Hlen Hrow Hp Hpos Hb Hones.
  destruct (columns_of_row _ Hall Hrow) as [Hcols HrowK].
  unfold ndcg_score, expand_coefs, bcast2.
  rewrite Hcols, ndcg_coefs_length, Nat.eqb_refl, !length_map, Hlen,
    Nat.eqb_refl.
  eexists. eexists. split; [reflexivity |]. split.
  - eapply nth_error_map2; apply map_nth_error; eassumption.
  - rewrite <- HrowK. apply ndcg_row_unit_interval; try assumption. lia.
Qed.

Lemma ndcg_score_unit_interval_witness :
  exists res v, ndcg_score [[1; 0]] (TotalTensor [1%Z]) None = Some res
                /\ nth_error res 0 = Some v /\ 0 <= v <= 1.
Proof.
  apply (@ndcg_score_unit_interval [[1; 0]] [1%Z] 2 0 [1; 0] 1%Z).
  - lia.
  - repeat constructor.
  - reflexivity.
  - reflexivity.
  - reflexivity.
  - lia.
  - constructor; [right; reflexivity |].
    constructor; [left; reflexivity | constructor].
  - simpl. lra.
Defined.

Lemma expand_coefs_length count coefs cs :
  expand_coefs count coefs = Some cs -> length cs = count.
Proof.
  unfold expand_coefs. destruct (Nat.eqb_spec (length coefs) count) as [He | ].
  - intros [= <-]. assumption.
  - destruct coefs as [| c [| ? ?]]; try discriminate.
    intros [= <-]. apply repeat_length.
Qed.

End GainFacts.


(** ** Where the ranker raises, and the shape of what it returns *)
Module FailureFacts.
Import TensorFacts OrderFacts MergeFacts BatchFacts ScatterFacts GroupFacts StepFacts
  LoopFacts ReadoutFacts BackendFacts RankFacts FrameFacts ScatterBounds
  Examples.

Lemma upd_length {A} (l : list A) : forall i x, length (upd i x l) = length l.
Proof.
  induction l as [| y l IH]; intros [| i] x; simpl; try reflexivity.
  rewrite IH. reflexivity.
Qed.

Lemma set2_length {A} (M : matrix A) r c v M' :
  set2 M r c v = Some M' -> length M' = length M.
Proof.
  unfold set2. destruct (nth_error M r) as [row |]; [| discriminate].
  destruct (c <? length row); [| discriminate].
  intros [= <-]. apply upd_length.
Qed.

Lemma set2_row_out {A} (M : matrix A) r c v :
  length M <= r -> set2 M r c v = None.
Proof.
  intros H. unfold set2. apply nth_error_None in H. rewrite H. reflexivity.
Qed.

(** A write to a row that the matrix does not have raises, whatever the
    other writes are. *)
Lemma index_put_row_out {A} rows : forall (M : matrix A) cols vals r,
  In r rows -> length M <= r -> index_put M rows cols vals = None.
Proof.
  induction rows as [| r0 rows IH]; intros M cols vals r Hin Hlen;
    [contradiction |].
  destruct cols as [| c cols]; [reflexivity |].
  destruct vals as [| v vals]; [reflexivity |].
  simpl. destruct (set2 M r0 c v) as [M' |] eqn:E; [| reflexivity].
  destruct Hin as [-> | Hin].
  - rewrite set2_row_out in E by assumption. discriminate.
  - apply (IH M' cols vals r Hin). rewrite (set2_length _ _ _ _ E).
    assumption.
Qed.

Lemma index_select_out {A} (t : list A) idx i :
  In i idx -> length t <= i -> index_select t idx = None.
Proof.
  induction idx as [| j idx IH]; intros Hin Hlen; [contradiction |].
  simpl. destruct Hin as [-> | Hin].
  - apply nth_error_None in Hlen. rewrite Hlen. reflexivity.
  - rewrite (IH Hin Hlen). destruct (nth_error t j); reflexivity.
Qed.

Section Failures.
Context `{B : Backend}.

(** A batch on which the batch-local part raises makes the whole run
    raise, wherever it stands in the loader. *)
Lemma rank_fails_at data_src loader K b :
  In b loader ->
  (forall t, batch_local (registry data_src) K t b = None) ->
  rank data_src loader K = None.
Proof.
  intros Hin Hb. unfold rank, rank_state.
  generalize (init_state (length (registry data_src)) K). generalize 0.
  induction loader as [| b0 loader IH]; intros t st; [contradiction |].
  simpl. unfold rank_step at 1.
  destruct Hin as [-> | Hin].
  - rewrite Hb. reflexivity.
  - destruct (batch_local (registry data_src) K t b0) as [loc |];
      [| reflexivity].
    apply (IH Hin).
Qed.

Lemma batch_local_empty gbl K t b :
  src_idx b = [] -> batch_local gbl K t b = None.
Proof. intros H. unfold batch_local. rewrite H. reflexivity. Qed.

(** X1: A batch without triples makes [rank] raise: [uid_cnt.max()] has
    nothing to take the maximum of. *)
Theorem rank_empty_batch data_src loader K b :
  In b loader -> src_idx b = [] -> rank data_src loader K = None.
Proof.
  intros Hin He. eapply rank_fails_at; [exact Hin |].
  intros t. apply batch_local_empty, He.
Qed.

(** X2: A source index that [n_id] does not have makes [rank] raise. *)
Theorem rank_index_outside_n_id data_src loader K b i :
  In b loader -> In i (src_idx b) -> length (n_id b) <= i ->
  rank data_src loader K = None.
Proof.
  intros Hin Hi Hlen. eapply rank_fails_at; [exact Hin |].
  intros t. unfold batch_local.
  rewrite (@index_select_out _ (n_id b) (src_idx b) i Hi Hlen). reflexivity.
Qed.

Lemma batch_local_row_out gbl K t b r :
  In r (src_idx b) ->
  mask_sum (gbl_mask gbl (batch_uids b)) <= r ->
  batch_local gbl K t b = None.
Proof.
  intros Hr Hlen. unfold batch_local, batch_uids, unique in *.
  destruct (index_select (n_id b) (src_idx b)) as [src_ids |];
    [| reflexivity].
  destruct (tensor_max _) as [mx |]; [| reflexivity].
  rewrite (@index_put_row_out _ (src_idx b) _ _ _ r Hr).
  - reflexivity.
  - unfold full. rewrite repeat_length. exact Hlen.
Qed.

(** X3: A source index that is not below the number of registered entities
    of the batch makes [rank] raise: the temporary matrices have one row
    per such entity. *)
Theorem rank_row_outside_tmp data_src loader K b r :
  In b loader -> In r (src_idx b) ->
  mask_sum (gbl_mask (registry data_src) (batch_uids b)) <= r ->
  rank data_src loader K = None.
Proof.
  intros Hin Hr Hlen. eapply rank_fails_at; [exact Hin |].
  intros t. eapply batch_local_row_out; eassumption.
Qed.

End Failures.

Lemma mask_sum_filter gbl U :
  mask_sum (gbl_mask gbl U)
  = length (filter (fun g => existsb (Z.eqb g) U) gbl).
Proof.
  unfold mask_sum, gbl_mask. induction gbl as [| g gbl IH]; simpl;
    [reflexivity |].
  destruct (existsb (Z.eqb g) U); simpl; rewrite IH; reflexivity.
Qed.

(** An id of the batch that the registry lacks costs a row. *)
Lemma mask_sum_lt gbl U g :
  NoDup gbl -> NoDup U -> In g U -> ~ In g gbl ->
  mask_sum (gbl_mask gbl U) < length U.
Proof.
  intros HG HU Hg Hn. rewrite mask_sum_filter.
  set (F := filter (fun x => existsb (Z.eqb x) U) gbl).
  assert (HF : NoDup (g :: F)).
  { constructor; [| apply NoDup_filter, HG].
    intros Hin. apply filter_In in Hin. tauto. }
  assert (Hincl : incl (g :: F) U).
  { intros x [<- | Hx]; [assumption |].
    apply filter_In in Hx. apply existsb_eqb_in. tauto. }
  pose proof (NoDup_incl_length HF Hincl) as Hle. simpl in Hle. lia.
Qed.

Lemma list_max_in l : l <> [] -> In (list_max l) l.
Proof.
  induction l as [| x l IH]; intros H; [contradiction |].
  destruct l as [| y l]; [left; simpl; lia |].
  change (list_max (x :: y :: l)) with (Nat.max x (list_max (y :: l))).
  destruct (Nat.max_spec x (list_max (y :: l))) as [[_ ->] | [_ ->]].
  - right. apply IH. discriminate.
  - left. reflexivity.
Qed.

(** The active set of a compact batch with ascending ids. *)
Lemma batch_uids_compact b :
  compact_grouped (src_idx b) = true ->
  active_count b <= length (n_id b) ->
  ascending (active_ids b) = true ->
  batch_uids b = active_ids b /\ length (active_ids b) = active_count b.
Proof.
  intros Hc Hn Ha.
  destruct (compact_spread _ Hc) as [cnts [Hpos [Hne [Hidx Hmax]]]].
  assert (Hcnt : active_count b = length cnts) by exact Hmax.
  assert (Hlen : length (active_ids b) = length cnts).
  { unfold active_ids. rewrite length_firstn. lia. }
  split; [| lia].
  unfold batch_uids, unique.
  rewrite Hidx, index_select_spread by lia.
  unfold active_ids in *. rewrite Hcnt in *.
  rewrite (unique_counts_spread (@ascending_asc _ Ha) Hpos Hlen).
  apply map_fst_combine. assumption.
Qed.

(** X4: A compact batch that holds an entity the registry does not know
    makes [rank] raise: the mask selects fewer rows than the batch has
    entities, and the last source index falls outside. *)
Theorem rank_unregistered_entity `{B : Backend} data_src loader K b g :
  In b loader ->
  compact_grouped (src_idx b) = true ->
  active_count b <= length (n_id b) ->
  ascending (active_ids b) = true ->
  In g (active_ids b) -> ~ In g (registry data_src) ->
  rank data_src loader K = None.
Proof.
  intros Hin Hc Hn Ha Hg Hreg.
  destruct (@batch_uids_compact b Hc Hn Ha) as [Hu Hlen].
  assert (Hne : src_idx b <> [])
    by (destruct (src_idx b); [discriminate | discriminate]).
  eapply rank_fails_at; [exact Hin |]. intros t.
  apply (@batch_local_row_out B _ K t b (list_max (src_idx b))
           (list_max_in Hne)).
  rewrite Hu.
  pose proof (@mask_sum_lt (registry data_src) (active_ids b) g
                (asc_nodup (unique_asc data_src))
                (asc_nodup (@ascending_asc _ Ha)) Hg Hreg) as Hlt.
  rewrite Hlen in Hlt. unfold active_count in Hlt. lia.
Qed.

End FailureFacts.

Module ShapeFacts.
Import TensorFacts OrderFacts MergeFacts BatchFacts ScatterFacts GroupFacts StepFacts
  LoopFacts ReadoutFacts BackendFacts RankFacts FrameFacts ScatterBounds
  FailureFacts Examples.

Lemma upd_forall {A} (P : A -> Prop) (l : list A) : forall i x,
  Forall P l -> P x -> Forall P (upd i x l).
Proof.
  induction l as [| y l IH]; intros [| i] x Hl Hx; simpl;
    try assumption; inversion Hl; subst; constructor; auto.
Qed.

Lemma set2_width {A} (M : matrix A) r c v M' C :
  Forall (fun row => length row = C) M ->
  set2 M r c v = Some M' ->
  Forall (fun row => length row = C) M'.
Proof.
  intros HM. unfold set2.
  destruct (nth_error M r) as [row |] eqn:Hr; [| discriminate].
  destruct (c <? length row); [| discriminate].
  intros [= <-]. apply upd_forall; [assumption |].
  rewrite upd_length. rewrite Forall_forall in HM.
  apply HM. eapply nth_error_In, Hr.
Qed.

(** The indexed write keeps the shape of the matrix. *)
Lemma index_put_shape {A} rows : forall (M : matrix A) cols vals M' C,
  Forall (fun row => length row = C) M ->
  index_put M rows cols vals = Some M' ->
  length M' = length M /\ Forall (fun row => length row = C) M'.
Proof.
  induction rows as [| r rows IH]; intros M cols vals M' C HM H.
  - destruct cols, vals; try discriminate. injection H as <-. auto.
  - destruct cols as [| c cols]; [discriminate |].
    destruct vals as [| v vals]; [discriminate |].
    simpl in H. destruct (set2 M r c v) as [M1 |] eqn:E; [| discriminate].
    destruct (IH M1 cols vals M' C (@set2_width _ _ _ _ _ _ _ HM E) H)
      as [H1 H2].
    split; [| assumption]. rewrite H1. eapply set2_length, E.
Qed.

Lemma masked_update_forall {A B} (P : A -> Prop) (Q : B -> Prop)
  (f : A -> B -> A) buf : forall msk T,
  Forall P buf -> Forall Q T ->
  (forall row t, P row -> Q t -> P (f row t)) ->
  Forall P (masked_update f buf msk T).
Proof.
  induction buf as [| x buf IH]; intros msk T Hb HT Hf; [constructor |].
  inversion Hb; subst.
  destruct msk as [| [] msk]; simpl; try assumption.
  - destruct T as [| t T]; constructor; auto.
    + inversion HT; subst. auto.
    + inversion HT; subst. auto.
  - constructor; auto.
Qed.

Lemma map2_map_same {A B C} (f : A -> B -> C) (g : A -> B) l :
  map2 f l (map g l) = map (fun x => f x (g x)) l.
Proof. induction l as [| x l IH]; simpl; [| rewrite IH]; reflexivity. Qed.

Lemma map2_forall {A B C} (P : C -> Prop) (f : A -> B -> C) l : forall m,
  (forall a b, In a l -> In b m -> P (f a b)) -> Forall P (map2 f l m).
Proof.
  induction l as [| a l IH]; intros [| b m] H; simpl; constructor.
  - apply H; left; reflexivity.
  - apply IH. intros a' b' Ha Hb. apply H; right; assumption.
Qed.

Lemma full_width {A} r c (x : A) :
  Forall (fun row => length row = c) (full r c x).
Proof.
  unfold full. apply Forall_forall. intros row H.
  apply repeat_spec in H. subst. apply repeat_length.
Qed.

Section Shapes.
Context `{B : Backend} {L : BackendLaws B}.

Lemma empty_width n r c :
  Forall (fun row => length row = c) (torch_empty n r c).
Proof.
  unfold torch_empty. apply Forall_forall. intros row H.
  apply in_map_iff in H. destruct H as [i [<- _]].
  rewrite length_map, length_seq. reflexivity.
Qed.

(** The batch-local top-k has [K] columns. *)
Lemma batch_local_width gbl K t b loc :
  batch_local gbl K t b = Some loc ->
  Forall (fun row => length row = K) (scr_top loc).
Proof.
  unfold batch_local.
  destruct (index_select (n_id b) (src_idx b)) as [src_ids |];
    [| discriminate].
  destruct (tensor_max _) as [mx |]; [| discriminate].
  destruct (index_put (full _ _ _) _ _ _) as [scr_tmp |] eqn:Es;
    [| discriminate].
  destruct (index_put (torch_empty _ _ _) _ _ _) as [lbl_tmp |];
    [| discriminate].
  destruct (scatter_add _ _ _); [| discriminate].
  intros [= <-]. simpl.
  destruct (@index_put_shape _ _ _ _ _ _ _ (full_width _ _ _) Es) as [_ Hw].
  rewrite map2_map_same. apply Forall_forall. intros row Hrow.
  apply in_map_iff in Hrow. destruct Hrow as [x [<- Hx]].
  rewrite gather_length. apply topk_length.
  rewrite Forall_forall in Hw. rewrite (Hw x Hx). lia.
Qed.

(** The merge keeps the number of rows and the width [2 * K] of the
    score buffer. *)
Lemma merge_width K st loc :
  Forall (fun row => length row = K) (scr_top loc) ->
  Forall (fun row => length row = 2 * K) (scr_buf st) ->
  Forall (fun row => length row = 2 * K) (scr_buf (merge K st loc)).
Proof.
  intros Htop Hbuf. unfold merge. simpl.
  rewrite map2_map_same. apply Forall_forall. intros row Hrow.
  apply in_map_iff in Hrow. destruct Hrow as [x [<- Hx]].
  rewrite gather_length, argsort_length.
  assert (Hall : Forall (fun row => length row = K + (K + 0))
                   (masked_update (fun row t => firstn K row ++ t)
                      (scr_buf st) (gbl_msk loc) (scr_top loc))).
  { apply masked_update_forall with (Q := fun t => length t = K);
      try assumption.
    intros r t Hr Ht. rewrite length_app, length_firstn, Hr, Ht. lia. }
  rewrite Forall_forall in Hall. apply Hall, Hx.
Qed.

Lemma desc_merge K st loc : Forall desc (scr_buf (merge K st loc)).
Proof.
  unfold merge. simpl. rewrite map2_map_same.
  apply Forall_forall. intros row Hrow.
  apply in_map_iff in Hrow. destruct Hrow as [x [<- _]].
  apply argsort_desc.
Qed.

(** The shape of the buffers after any run that does not raise. *)
Lemma loop_shape gbl K loader : forall t st st',
  rank_loop gbl K t st loader = Some st' ->
  length (scr_buf st) = length gbl -> length (lbl_buf st) = length gbl ->
  length (pos_cnt st) = length gbl ->
  Forall (fun row => length row = 2 * K) (scr_buf st) ->
  length (scr_buf st') = length gbl /\ length (lbl_buf st') = length gbl
  /\ length (pos_cnt st') = length gbl
  /\ Forall (fun row => length row = 2 * K) (scr_buf st').
Proof.
  induction loader as [| b loader IH]; intros t st st' Hloop H1 H2 H3 H4;
    simpl in Hloop.
  - injection Hloop as <-. auto.
  - unfold rank_step in Hloop.
    destruct (batch_local gbl K t b) as [loc |] eqn:Hloc; [| discriminate].
    destruct (merge_lengths K st loc) as [M1 [M2 M3]].
    apply (IH (S t) (merge K st loc) st' Hloop); try lia.
    apply merge_width; [eapply batch_local_width, Hloc | assumption].
Qed.

(** X5: Whenever [rank] returns, it returns one label row and one count per
    registered entity, and every label row has [2 * K] columns. *)
Theorem rank_shape data_src loader K labels counts :
  rank data_src loader K = Some (labels, counts) ->
  length labels = length (registry data_src)
  /\ length counts = length (registry data_src)
  /\ Forall (fun row => length row = 2 * K) labels.
Proof.
  unfold rank. destruct (rank_state data_src loader K) as [st |] eqn:Hst;
    [| discriminate].
  intros [= <- <-]. unfold rank_state in Hst.
  set (gbl := registry data_src) in *.
  destruct (@loop_shape gbl K loader 0 _ st Hst) as [H1 [H2 [H3 H4]]].
  - unfold init_state, full. simpl. apply repeat_length.
  - unfold init_state, torch_empty. simpl.
    rewrite length_map, length_seq. reflexivity.
  - unfold init_state. simpl. apply repeat_length.
  - apply full_width.
  - split; [assumption |]. split; [assumption |].
    pose proof (@sorted_state_loop B L gbl K loader 0 _ st
                  (sorted_state_init _ _) Hst) as Hsorted.
    apply Forall_forall. intros lrow Hin.
    destruct (In_nth_error _ _ Hin) as [i Hi].
    assert (Hlt : i < length (scr_buf st)).
    { rewrite H1, <- H2. apply nth_error_Some. congruence. }
    destruct (@nth_error_exists _ (scr_buf st) i Hlt) as [srow Hs].
    destruct (Hsorted i srow lrow Hs Hi) as [_ Hlen].
    rewrite Hlen. rewrite Forall_forall in H4.
    apply H4. eapply nth_error_In, Hs.
Qed.

(** X6: After any run that does not raise, every row of the score buffer is
    in descending order. *)
Theorem rank_rows_descending data_src loader K st :
  rank_state data_src loader K = Some st -> Forall desc (scr_buf st).
Proof.
  unfold rank_state.
  assert (Hinit : Forall desc
            (scr_buf (init_state (length (registry data_src)) K))).
  { unfold init_state, full. simpl. apply Forall_forall. intros row H.
    apply repeat_spec in H. subst. apply desc_repeat. }
  revert Hinit.
  generalize (init_state (length (registry data_src)) K). generalize 0.
  induction loader as [| b loader IH]; intros t st0 Hd Hloop;
    simpl in Hloop.
  - injection Hloop as <-. assumption.
  - unfold rank_step in Hloop.
    destruct (batch_local (registry data_src) K t b) as [loc |];
      [| discriminate].
    apply (IH (S t) (merge K st0 loc) (desc_merge K st0 loc) Hloop).
Qed.

End Shapes.
End ShapeFacts.

(** ** What the counts and the best labels depend on *)
Module StreamFacts.
Import TensorFacts OrderFacts MergeFacts BatchFacts ScatterFacts GroupFacts StepFacts
  LoopFacts ReadoutFacts BackendFacts RankFacts FrameFacts ScatterBounds
  FailureFacts ShapeFacts Examples.

Lemma zsum_perm l m : Permutation l m -> zsum l = zsum m.
Proof.
  unfold zsum. induction 1; simpl; lia.
Qed.

Lemma list_ext {A} (l : list A) : forall m,
  length l = length m -> (forall i, nth_error l i = nth_error m i) -> l = m.
Proof.
  induction l as [| x l IH]; intros [| y m] Hlen H; simpl in Hlen;
    try discriminate; [reflexivity |].
  pose proof (H 0) as H0. simpl in H0. injection H0 as ->.
  f_equal. apply IH; [lia |]. intros i. apply (H (S i)).
Qed.

(** X7: The registry of [rank]: every source id of the data once, in
    ascending order. *)
Theorem registry_entities data_src :
  asc (registry data_src) /\ NoDup (registry data_src)
  /\ forall g, In g (registry data_src) <-> In g data_src.
Proof.
  split; [apply unique_asc |]. split; [apply asc_nodup, unique_asc |].
  intros g. apply unique_in.
Qed.

Section Streams.
Context `{B : Backend} {L : BackendLaws B}.

Lemma counts_of_stream data_src loader K :
  Forall (fun b => batch_ok (registry data_src) b = true) loader ->
  exists labels counts,
    rank data_src loader K = Some (labels, counts)
    /\ length counts = length (registry data_src)
    /\ forall i g, nth_error (registry data_src) i = Some g ->
         nth_error counts i
         = Some (wrap32 (zsum (map snd (seen loader g)))).
Proof.
  intros Hall.
  destruct (@rank_state_inv B L data_src loader K Hall)
    as [st [Hst [_ [_ [Hlen Hrows]]]]].
  exists (lbl_buf st), (pos_cnt st). split; [| split].
  - unfold rank. rewrite Hst. reflexivity.
  - exact Hlen.
  - intros i g Hg.
    destruct (Hrows i g Hg) as [srow [lrow [_ [_ [Hp _]]]]]. exact Hp.
Qed.

End Streams.

(** X9: The counts depend on the triples of each entity, not on how the
    stream is cut into batches, in which order the batches come, or
    which lawful backend sorts. *)
Theorem rank_counts_batching (B1 B2 : Backend) (L1 : BackendLaws B1)
  (L2 : BackendLaws B2) data_src loader1 loader2 K1 K2 :
  Forall (fun b => batch_ok (registry data_src) b = true) loader1 ->
  Forall (fun b => batch_ok (registry data_src) b = true) loader2 ->
  (forall g, Permutation (seen loader1 g) (seen loader2 g)) ->
  exists labels1 labels2 counts,
    @rank B1 data_src loader1 K1 = Some (labels1, counts)
    /\ @rank B2 data_src loader2 K2 = Some (labels2, counts).
Proof.
  intros H1 H2 Hperm.
  destruct (@counts_of_stream B1 L1 data_src loader1 K1 H1)
    as [l1 [c1 [Hr1 [Hlen1 Hc1]]]].
  destruct (@counts_of_stream B2 L2 data_src loader2 K2 H2)
    as [l2 [c2 [Hr2 [Hlen2 Hc2]]]].
  assert (Heq : c1 = c2).
  { apply list_ext; [lia |]. intros i.
    destruct (nth_error (registry data_src) i) as [g |] eqn:Hg.
    - rewrite (Hc1 i g Hg), (Hc2 i g Hg). do 2 f_equal.
      apply zsum_perm, Permutation_map, Hperm.
    - apply nth_error_None in Hg.
      rewrite (proj2 (nth_error_None c1 i)) by lia.
      rewrite (proj2 (nth_error_None c2 i)) by lia. reflexivity. }
  subst c2. exists l1, l2, c1. split; assumption.
Qed.


(** *** Streams without ties *)

Lemma key_inj (A : list (Z * Z)) x y :
  NoDup (map fst A) -> In x A -> In y A -> fst x = fst y -> x = y.
Proof.
  induction A as [| a A IH]; intros Hnd Hx Hy Heq; [contradiction |].
  simpl in Hnd. inversion Hnd as [| ? ? Hna Hnd']; subst.
  destruct Hx as [-> | Hx], Hy as [-> | Hy]; auto.
  - exfalso. apply Hna. rewrite Heq. apply in_map, Hy.
  - exfalso. apply Hna. rewrite <- Heq. apply in_map, Hx.
Qed.

Lemma item_eq_dec (x y : Z * Z) : {x = y} + {x <> y}.
Proof. decide equality; apply Z.eq_dec. Qed.

(** With pairwise distinct scores a selection of the best [n] items
    holds every item of any other one. *)
Lemma best_incl (A S1 O1 S2 O2 : list (Z * Z)) :
  NoDup (map fst A) ->
  Permutation (S1 ++ O1) A -> Permutation (S2 ++ O2) A ->
  length S1 = length S2 ->
  (forall x, In x O1 -> forall y, In y S1 -> (fst x <= fst y)%Z) ->
  (forall x, In x O2 -> forall y, In y S2 -> (fst x <= fst y)%Z) ->
  incl S1 S2.
Proof.
  intros Hnd H1 H2 Hlen Hb1 Hb2 x Hx.
  destruct (in_dec item_eq_dec x S2) as [Hin | Hnot]; [assumption |].
  exfalso.
  assert (HxA : In x A)
    by (apply (Permutation_in _ H1), in_or_app; left; assumption).
  assert (HxO : In x O2).
  { apply (Permutation_in _ (Permutation_sym H2)) in HxA.
    apply in_app_or in HxA. tauto. }
  assert (HndA : NoDup A) by (eapply NoDup_map_inv, Hnd).
  assert (HndS : NoDup S2).
  { apply (Permutation_NoDup (Permutation_sym H2)) in HndA.
    eapply NoDup_app_remove_r, HndA. }
  assert (Hincl : incl (x :: S2) S1).
  { intros y [<- | Hy]; [assumption |].
    assert (HyA : In y A)
      by (apply (Permutation_in _ H2), in_or_app; left; assumption).
    apply (Permutation_in _ (Permutation_sym H1)) in HyA.
    apply in_app_or in HyA. destruct HyA as [Hy1 | HyO]; [assumption |].
    exfalso.
    pose proof (Hb2 x HxO y Hy) as Hle1.
    pose proof (Hb1 y HyO x Hx) as Hle2.
    assert (x = y).
    { apply (@key_inj A x y Hnd); [assumption | | lia].
      apply (Permutation_in _ H2), in_or_app. left. assumption. }
    subst y. contradiction. }
  assert (Hnd2 : NoDup (x :: S2)) by (constructor; assumption).
  pose proof (NoDup_incl_length Hnd2 Hincl) as Hle. simpl in Hle. lia.
Qed.

Lemma sorted_perm_eq (S1 : list (Z * Z)) : forall S2,
  StronglySorted (fun a b => (fst b <= fst a)%Z) S1 ->
  StronglySorted (fun a b => (fst b <= fst a)%Z) S2 ->
  Permutation S1 S2 ->
  (forall x y, In x S1 -> In y S1 -> fst x = fst y -> x = y) ->
  S1 = S2.
Proof.
  induction S1 as [| a S1 IH]; intros S2 Hs1 Hs2 Hp Hinj.
  - apply Permutation_nil in Hp. subst. reflexivity.
  - destruct S2 as [| b S2];
      [apply Permutation_sym, Permutation_nil in Hp; discriminate |].
    apply StronglySorted_inv in Hs1. destruct Hs1 as [Hs1 Ha].
    apply StronglySorted_inv in Hs2. destruct Hs2 as [Hs2 Hb].
    rewrite Forall_forall in Ha, Hb.
    assert (Hab : a = b).
    { assert (Hina : In a (b :: S2))
        by (apply (Permutation_in _ Hp); left; reflexivity).
      assert (Hinb : In b (a :: S1))
        by (apply (Permutation_in _ (Permutation_sym Hp)); left;
            reflexivity).
      destruct Hina as [-> | Hina]; [reflexivity |].
      destruct Hinb as [-> | Hinb]; [reflexivity |].
      apply Hinj; [left; reflexivity | right; assumption |].
      pose proof (Hb a Hina). pose proof (Ha b Hinb). lia. }
    subst b. f_equal. apply IH; try assumption.
    + eapply Permutation_cons_inv, Hp.
    + intros x y Hx Hy. apply Hinj; right; assumption.
Qed.

(** With pairwise distinct scores the labels of the best items are
    determined. *)
Lemma top_labels_unique K (A : list (Z * Z)) l1 l2 :
  NoDup (map fst A) -> top_labels K A l1 -> top_labels K A l2 ->
  firstn (Nat.min K (length A)) l1 = firstn (Nat.min K (length A)) l2.
Proof.
  intros Hnd [S1 [O1 [F1 [P1 [N1 [D1 [B1 E1]]]]]]]
             [S2 [O2 [F2 [P2 [N2 [D2 [B2 E2]]]]]]].
  assert (HndA : NoDup A) by (eapply NoDup_map_inv, Hnd).
  assert (Hnd1 : NoDup S1).
  { apply (Permutation_NoDup (Permutation_sym P1)) in HndA.
    eapply NoDup_app_remove_r, HndA. }
  assert (Hnd2 : NoDup S2).
  { apply (Permutation_NoDup (Permutation_sym P2)) in HndA.
    eapply NoDup_app_remove_r, HndA. }
  assert (Hperm : Permutation S1 S2).
  { apply NoDup_Permutation; try assumption. intros x. split.
    - apply (@best_incl A S1 O1 S2 O2 Hnd P1 P2);
        [lia | assumption | assumption].
    - apply (@best_incl A S2 O2 S1 O1 Hnd P2 P1);
        [lia | assumption | assumption]. }
  assert (Heq : S1 = S2).
  { apply sorted_perm_eq; try assumption.
    intros x y Hx Hy. apply (@key_inj A x y Hnd);
      apply (Permutation_in _ P1), in_or_app; left; assumption. }
  subst S2.
  assert (Hfirst : forall l F,
            firstn K l = map snd S1 ++ F ->
            firstn (Nat.min K (length A)) l = map snd S1).
  { intros l F HE.
    replace (Nat.min K (length A))
      with (Nat.min (Nat.min K (length A)) K) by lia.
    rewrite <- firstn_firstn, HE, <- N1, <- (length_map snd S1).
    rewrite firstn_app, Nat.sub_diag, firstn_all. simpl.
    apply app_nil_r. }
  rewrite (Hfirst l1 F1 E1), (Hfirst l2 F2 E2). reflexivity.
Qed.

(** X10: For an entity whose scores are pairwise distinct, the labels of its
    best [K] items come out the same from every batching of the stream
    and every lawful backend. *)
Theorem rank_top_k_unique (B1 B2 : Backend) (L1 : BackendLaws B1)
  (L2 : BackendLaws B2) data_src loader1 loader2 K :
  Forall (fun b => batch_ok (registry data_src) b = true) loader1 ->
  Forall (fun b => batch_ok (registry data_src) b = true) loader2 ->
  exists labels1 counts1 labels2 counts2,
    @rank B1 data_src loader1 K = Some (labels1, counts1)
    /\ @rank B2 data_src loader2 K = Some (labels2, counts2)
    /\ forall i g, nth_error (registry data_src) i = Some g ->
         Permutation (seen loader1 g) (seen loader2 g) ->
         NoDup (map fst (seen loader1 g)) ->
         exists row1 row2,
           nth_error labels1 i = Some row1
           /\ nth_error labels2 i = Some row2
           /\ firstn (Nat.min K (length (seen loader1 g))) row1
              = firstn (Nat.min K (length (seen loader1 g))) row2.
Proof.
  intros H1 H2.
  destruct (@rank_state_inv B1 L1 data_src loader1 K H1)
    as [st1 [Hst1 [_ [_ [_ Hrows1]]]]].
  destruct (@rank_state_inv B2 L2 data_src loader2 K H2)
    as [st2 [Hst2 [_ [_ [_ Hrows2]]]]].
  exists (lbl_buf st1), (pos_cnt st1), (lbl_buf st2), (pos_cnt st2).
  split; [unfold rank; rewrite Hst1; reflexivity |].
  split; [unfold rank; rewrite Hst2; reflexivity |].
  intros i g Hg Hperm Hnd.
  destruct (Hrows1 i g Hg) as [s1 [r1 [_ [Hr1 [_ Hok1]]]]].
  destruct (Hrows2 i g Hg) as [s2 [r2 [_ [Hr2 [_ Hok2]]]]].
  exists r1, r2. split; [assumption |]. split; [assumption |].
  apply top_labels_unique; [assumption | |].
  - eapply row_ok_top_labels, Hok1.
  - eapply top_labels_perm; [apply Permutation_sym, Hperm |].
    eapply row_ok_top_labels, Hok2.
Qed.

End StreamFacts.

(** ** The value tensors, and the reducer at the edges *)
Module ValueFacts.
Import TensorFacts OrderFacts MergeFacts BatchFacts ScatterFacts GroupFacts StepFacts
  LoopFacts ReadoutFacts BackendFacts RankFacts FrameFacts ScatterBounds
  FailureFacts ShapeFacts Examples.

(** The indexed write takes one column index and one value per row
    index. *)
Lemma index_put_lengths {A} rows : forall (M : matrix A) cols vals M',
  index_put M rows cols vals = Some M' ->
  length cols = length rows /\ length vals = length rows.
Proof.
  induction rows as [| r rows IH]; intros M cols vals M' H.
  - destruct cols, vals; try discriminate. auto.
  - destruct cols as [| c cols]; [discriminate |].
    destruct vals as [| v vals]; [discriminate |].
    simpl in H. destruct (set2 M r c v) as [M1 |]; [| discriminate].
    destruct (IH M1 cols vals M' H) as [H1 H2]. simpl. lia.
Qed.

Lemma broadcast_length {A} n (vals : list A) :
  length (broadcast n vals) = n -> length vals = n \/ length vals = 1.
Proof.
  destruct vals as [| v [| w vals]]; simpl; intros H; auto.
Qed.

(** [scatter_add] reads one source element per index. *)
Lemma scatter_add_src idx : forall acc src r,
  scatter_add acc idx src = Some r -> length idx <= length src.
Proof.
  induction idx as [| i idx IH]; intros acc src r H; simpl; [lia |].
  simpl in H. destruct src as [| v src]; [discriminate |].
  destruct (i <? length acc); [| discriminate].
  apply IH in H. simpl. lia.
Qed.

Lemma wrap32_range z : (- 2 ^ 31 <= wrap32 z < 2 ^ 31)%Z.
Proof.
  unfold wrap32.
  pose proof (Z.mod_pos_bound (z + 2 ^ 31) (2 ^ 32) eq_refl). lia.
Qed.

Section Values.
Context `{B : Backend}.

(** What the batch-local part needs of the value tensors. *)
Lemma batch_local_values gbl K t b loc :
  batch_local gbl K t b = Some loc ->
  length (edge_label b) = length (src_idx b)
  /\ (length (edge_score b) = length (src_idx b)
      \/ length (edge_score b) = 1).
Proof.
  intros Hloc.
  assert (Hne : length (src_idx b) <> 0).
  { intros H0. apply length_zero_iff_nil in H0.
    rewrite (batch_local_empty gbl K t b H0) in Hloc. discriminate. }
  revert Hloc. unfold batch_local.
  destruct (index_select (n_id b) (src_idx b)) as [src_ids |];
    [| discriminate].
  destruct (tensor_max _) as [mx |] eqn:Hmax; [| discriminate].
  destruct (index_put (full _ _ _) _ _ _) as [scr_tmp |] eqn:Es;
    [| discriminate].
  destruct (index_put (torch_empty _ _ _) _ _ _) as [lbl_tmp |] eqn:El;
    [| discriminate].
  destruct (scatter_add _ _ _) as [add |] eqn:Ea; [| discriminate].
  intros _.
  apply index_put_lengths in Es, El. destruct Es as [_ Es], El as [_ El].
  apply broadcast_length in Es, El.
  apply scatter_add_src in Ea. rewrite length_map in Ea.
  split; [| assumption].
  destruct El as [El | El]; [assumption | lia].
Qed.

(** X11: A batch whose label tensor has not one element per triple makes
    [rank] raise: a single label would be broadcast by the indexed
    write, but [scatter_add] reads one source element per index. *)
Theorem rank_label_length_mismatch data_src loader K b :
  In b loader -> length (edge_label b) <> length (src_idx b) ->
  rank data_src loader K = None.
Proof.
  intros Hin Hne. eapply rank_fails_at; [exact Hin |]. intros t.
  destruct (batch_local (registry data_src) K t b) as [loc |] eqn:E;
    [| reflexivity].
  apply batch_local_values in E. tauto.
Qed.

(** X12: A batch whose score tensor has neither one element per triple nor
    a single element makes [rank] raise. *)
Theorem rank_score_length_mismatch data_src loader K b :
  In b loader -> length (edge_score b) <> length (src_idx b) ->
  length (edge_score b) <> 1 ->
  rank data_src loader K = None.
Proof.
  intros Hin Hne H1. eapply rank_fails_at; [exact Hin |]. intros t.
  destruct (batch_local (registry data_src) K t b) as [loc |] eqn:E;
    [| reflexivity].
  apply batch_local_values in E. tauto.
Qed.

(** X13: The counts stay 32-bit integers: every run that returns gives
    counts in the range of [torch.int], whatever the labels are. *)
Theorem rank_counts_int32 data_src loader K labels counts :
  rank data_src loader K = Some (labels, counts) ->
  Forall (fun c => (- 2 ^ 31 <= c < 2 ^ 31)%Z) counts.
Proof.
  unfold rank. destruct (rank_state data_src loader K) as [st |] eqn:Hst;
    [| discriminate].
  intros [= _ <-]. unfold rank_state in Hst.
  assert (Hinit : Forall (fun c => (- 2 ^ 31 <= c < 2 ^ 31)%Z)
            (pos_cnt (init_state (length (registry data_src)) K))).
  { unfold init_state. simpl. apply Forall_forall. intros c Hc.
    apply repeat_spec in Hc. subst. lia. }
  revert Hinit Hst.
  generalize (init_state (length (registry data_src)) K). generalize 0.
  induction loader as [| b loader IH]; intros t st0 Hd Hloop;
    simpl in Hloop.
  - injection Hloop as <-. assumption.
  - unfold rank_step in Hloop.
    destruct (batch_local (registry data_src) K t b) as [loc |];
      [| discriminate].
    apply (IH (S t) (merge K st0 loc)); [| assumption].
    unfold merge. simpl.
    apply masked_update_forall with (Q := fun _ => True);
      [assumption | | intros; apply wrap32_range].
    apply Forall_forall. intros; exact I.
Qed.

(** With no entity in the data, every batch makes the loop raise. *)
Lemma rank_no_entities b loader K : rank [] (b :: loader) K = None.
Proof.
  apply (@rank_fails_at B [] (b :: loader) K b); [left; reflexivity |].
  intros t. destruct (src_idx b) as [| r rest] eqn:E.
  - apply batch_local_empty, E.
  - apply (@batch_local_row_out B _ K t b r).
    + rewrite E. left. reflexivity.
    + change (registry []) with (@nil Z). apply Nat.le_0_l.
Qed.

End Values.
End ValueFacts.

Module CompositeFacts.
Import TensorFacts OrderFacts MergeFacts BatchFacts ScatterFacts GroupFacts StepFacts
  LoopFacts ReadoutFacts BackendFacts RankFacts FrameFacts ScatterBounds
  FailureFacts ShapeFacts ValueFacts Reducer ReducerFacts Examples.

(** X15: Data without a single entity: an empty loader gives the mean of
    an empty vector, which is not a number; any batch at all makes the
    run raise. *)
Theorem composite_no_entities `{B : Backend} loader at_k :
  match loader with
  | [] => exists x, composite [] [] at_k [recall_score] = Some [x]
                    /\ is_nan x
  | _ :: _ => forall score_fns, composite [] loader at_k score_fns = None
  end.
Proof.
  destruct loader as [| b loader].
  - eexists. split; reflexivity.
  - intros fns. unfold composite. rewrite rank_no_entities. reflexivity.
Qed.

End CompositeFacts.

(** ** The counts, on batches with aligned rows *)
Module CountFacts.
Import TensorFacts OrderFacts MergeFacts BatchFacts ScatterFacts GroupFacts
  StepFacts LoopFacts ReadoutFacts BackendFacts RankFacts FrameFacts
  ScatterBounds FailureFacts ShapeFacts.

(** *** Writes that stay inside the matrix *)

Lemma set2_ok {A} (M : matrix A) r c v C :
  r < length M -> Forall (fun row => length row = C) M -> c < C ->
  exists M', set2 M r c v = Some M'.
Proof.
  intros Hr HM Hc. unfold set2.
  destruct (nth_error M r) as [row |] eqn:E;
    [| apply nth_error_None in E; lia].
  rewrite Forall_forall in HM.
  rewrite (HM row (nth_error_In _ _ E)).
  apply Nat.ltb_lt in Hc. rewrite Hc. eauto.
Qed.

(** An indexed write whose indices are all inside the matrix does not
    raise. *)
Lemma index_put_ok {A} rows : forall (M : matrix A) cols vals C,
  length cols = length rows -> length vals = length rows ->
  Forall (fun r => r < length M) rows -> Forall (fun c => c < C) cols ->
  Forall (fun row => length row = C) M ->
  exists M', index_put M rows cols vals = Some M'.
Proof.
  induction rows as [| r rows IH]; intros M cols vals C Hc Hv Hr Hcs HM.
  - destruct cols, vals; try discriminate. simpl. eauto.
  - destruct cols as [| c cols]; [discriminate |].
    destruct vals as [| v vals]; [discriminate |].
    inversion Hr as [| ? ? Hr0 Hr']; subst.
    inversion Hcs as [| ? ? Hc0 Hcs']; subst.
    destruct (@set2_ok _ M r c v C Hr0 HM Hc0) as [M1 H1].
    simpl. rewrite H1.
    apply (IH M1 cols vals C); simpl in *; try lia.
    + rewrite (set2_length _ _ _ _ H1). assumption.
    + assumption.
    + eapply set2_width; eassumption.
Qed.

Lemma broadcast_fits {A} n (vals : list A) :
  length vals = n \/ length vals = 1 -> length (broadcast n vals) = n.
Proof.
  destruct vals as [| v [| w vals]]; simpl; intros [H | H];
    try discriminate; try assumption.
  - subst. reflexivity.
  - apply repeat_length.
Qed.

(** *** What [scatter_add] leaves in each cell *)

Lemma nth_upd_same {A} (l : list A) : forall i x d,
  i < length l -> nth i (upd i x l) d = x.
Proof.
  induction l as [| y l IH]; intros [| i] x d H; simpl in *; try lia.
  - reflexivity.
  - apply IH. lia.
Qed.

Lemma nth_upd_other {A} (l : list A) : forall i k x d,
  k <> i -> nth k (upd i x l) d = nth k l d.
Proof.
  induction l as [| y l IH]; intros [| i] [| k] x d H; simpl;
    try reflexivity; try contradiction.
  apply IH. congruence.
Qed.

Lemma picked_map {V W} (f : V -> W) k idx : forall src,
  picked k idx (map f src) = map f (picked k idx src).
Proof.
  unfold picked. induction idx as [| i idx IH]; intros [| v src]; simpl;
    try reflexivity.
  destruct (i =? k); simpl; rewrite IH; reflexivity.
Qed.

Lemma scatter_add_spec idx : forall acc src,
  length idx <= length src -> Forall (fun i => i < length acc) idx ->
  exists out,
    scatter_add acc idx src = Some out
    /\ length out = length acc
    /\ forall k, k < length acc ->
         nth k out 0%Z = fold_left wadd (picked k idx src) (nth k acc 0%Z).
Proof.
  induction idx as [| i idx IH]; intros acc src Hlen Hin.
  - exists acc. simpl. auto.
  - destruct src as [| v src]; [simpl in Hlen; lia |].
    inversion Hin as [| ? ? Hi Hin']; subst.
    simpl. apply Nat.ltb_lt in Hi. rewrite Hi. apply Nat.ltb_lt in Hi.
    destruct (IH (upd i (wrap32 (nth i acc 0%Z + v)) acc) src)
      as [out [Ho [Hl Hk]]].
    + simpl in Hlen. lia.
    + rewrite upd_length. assumption.
    + exists out. split; [assumption |].
      rewrite upd_length in Hl, Hk. split; [assumption |].
      intros k Hklt. rewrite (Hk k Hklt). unfold picked. simpl.
      destruct (Nat.eqb_spec i k) as [-> | Hne]; simpl.
      * rewrite nth_upd_same by assumption. reflexivity.
      * rewrite nth_upd_other by congruence. reflexivity.
Qed.

(** The triples that go to row [r] are those of the entity at [r],
    when the ids of the rows are distinct. *)
Lemma picked_by_id {V} (f : nat -> Z) r idx : forall (src : list V),
  (forall i, In i idx -> f i = f r -> i = r) ->
  map snd (filter (fun t => (fst t =? f r)%Z) (combine (map f idx) src))
  = picked r idx src.
Proof.
  unfold picked. induction idx as [| i idx IH]; intros [| v src] Hinj;
    simpl; try reflexivity.
  specialize (IH src (fun j Hj => Hinj j (or_intror Hj))).
  destruct (Z.eqb_spec (f i) (f r)) as [He | Hne];
    destruct (Nat.eqb_spec i r) as [Hi | Hi]; simpl; rewrite ?IH;
    try reflexivity.
  - exfalso. apply Hi, Hinj; [left; reflexivity | assumption].
  - subst i. contradiction.
Qed.

(** *** Sorted lists with the same elements *)

Lemma asc_ext l : forall l',
  asc l -> asc l' -> (forall x, In x l <-> In x l') -> l = l'.
Proof.
  unfold asc. induction l as [| a l IH]; intros [| b l'] Hl Hl' Hx.
  - reflexivity.
  - exfalso. apply (proj2 (Hx b)). left. reflexivity.
  - exfalso. apply (proj1 (Hx a)). left. reflexivity.
  - apply StronglySorted_inv in Hl, Hl'.
    destruct Hl as [Hl Ha], Hl' as [Hl' Hb].
    rewrite Forall_forall in Ha, Hb.
    assert (Hab : a = b).
    { destruct (proj1 (Hx a) (or_introl eq_refl)) as [-> | Ha'];
        [reflexivity |].
      destruct (proj2 (Hx b) (or_introl eq_refl)) as [-> | Hb'];
        [reflexivity |].
      pose proof (Ha b Hb'). pose proof (Hb a Ha'). lia. }
    subst b. f_equal. apply IH; try assumption.
    intros x. split; intros H.
    + destruct (proj1 (Hx x) (or_intror H)) as [<- | H']; [| assumption].
      pose proof (Ha a H). lia.
    + destruct (proj2 (Hx x) (or_intror H)) as [<- | H']; [| assumption].
      pose proof (Hb a H). lia.
Qed.

Lemma insert_count_sum x l :
  list_sum (map snd (insert_count x l)) = S (list_sum (map snd l)).
Proof.
  induction l as [| [y c] l IH]; simpl; [reflexivity |].
  destruct (x <? y)%Z; simpl; [reflexivity |].
  destruct (x =? y)%Z; simpl; [reflexivity |]. rewrite IH. lia.
Qed.

(** The counts of [unique] add up to the number of elements. *)
Lemma unique_counts_sum l :
  list_sum (map snd (unique_counts l)) = length l.
Proof.
  unfold unique_counts. induction l as [| x l IH]; simpl; [reflexivity |].
  rewrite insert_count_sum, IH. reflexivity.
Qed.

Lemma list_max_ge l x : In x l -> x <= list_max l.
Proof.
  intros H. assert (Hall : Forall (fun k => k <= list_max l) l)
    by (apply list_max_le; lia).
  rewrite Forall_forall in Hall. apply Hall, H.
Qed.

Lemma covers_spec l :
  covers l = true ->
  l <> [] /\ forall r, r <= list_max l -> In r l.
Proof.
  unfold covers. destruct l as [| x l]; [discriminate |].
  intros H. split; [discriminate |]. intros r Hr.
  rewrite forallb_forall in H.
  assert (Hin : In r (seq 0 (S (list_max (x :: l)))))
    by (apply in_seq; lia).
  specialize (H r Hin). apply existsb_exists in H.
  destruct H as [y [Hy He]]. apply Nat.eqb_eq in He. subst. assumption.
Qed.

(** What [rows_ok] says of a batch. *)
Lemma rows_ok_facts gbl b :
  rows_ok gbl b = true ->
  src_idx b <> []
  /\ (forall r, In r (src_idx b) <-> r < active_count b)
  /\ active_count b <= length (n_id b)
  /\ asc (active_ids b) /\ incl (active_ids b) gbl
  /\ length (active_ids b) = active_count b
  /\ (length (edge_score b) = length (src_idx b)
      \/ length (edge_score b) = 1)
  /\ length (edge_label b) = length (src_idx b).
Proof.
  unfold rows_ok. rewrite !andb_true_iff, orb_true_iff, !Nat.eqb_eq.
  intros [[[[[Hc Hn] Ha] Hi] Hs] Hl].
  apply covers_spec in Hc. destruct Hc as [Hne Hcov].
  apply Nat.leb_le in Hn.
  split; [assumption |]. split.
  { intros r. unfold active_count. split.
    - intros Hr. apply list_max_ge in Hr. lia.
    - intros Hr. apply Hcov. lia. }
  split; [assumption |]. split; [apply ascending_asc, Ha |].
  split.
  { intros g Hg. rewrite forallb_forall in Hi.
    apply existsb_eqb_in, Hi, Hg. }
  split; [unfold active_ids; rewrite length_firstn; lia |].
  split; assumption.
Qed.

(** On such a batch the ids looked up are those of the first [m] nodes,
    and [unique] returns these in their order. *)
Lemma aligned_ids gbl b :
  rows_ok gbl b = true ->
  index_select (n_id b) (src_idx b)
  = Some (map (fun r => nth r (n_id b) 0%Z) (src_idx b))
  /\ unique (map (fun r => nth r (n_id b) 0%Z) (src_idx b)) = active_ids b.
Proof.
  intros Hok.
  destruct (rows_ok_facts _ _ Hok) as [Hne [Hcov [Hn [Ha [Hi [Hm _]]]]]].
  split.
  - apply index_select_map. apply Forall_forall. intros r Hr.
    apply Hcov in Hr. lia.
  - apply asc_ext; [apply unique_asc | assumption |].
    intros x. rewrite unique_in, in_map_iff. unfold active_ids. split.
    + intros [r [<- Hr]]. apply Hcov in Hr.
      rewrite <- (firstn_skipn (active_count b) (n_id b)) at 1.
      rewrite app_nth1 by (rewrite length_firstn; lia).
      apply nth_In. rewrite length_firstn. lia.
    + intros Hx. destruct (In_nth _ _ 0%Z Hx) as [r [Hr Hnth]].
      rewrite length_firstn in Hr. exists r. split.
      * rewrite <- Hnth.
        rewrite <- (firstn_skipn (active_count b) (n_id b)) at 1.
        rewrite app_nth1 by (rewrite length_firstn; lia). reflexivity.
      * apply Hcov. lia.
Qed.

Lemma nth_active_ids b r :
  r < active_count b -> active_count b <= length (n_id b) ->
  nth_error (active_ids b) r = Some (nth r (n_id b) 0%Z).
Proof.
  intros Hr Hn. unfold active_ids.
  rewrite <- (firstn_skipn (active_count b) (n_id b)) at 2.
  rewrite app_nth1 by (rewrite length_firstn; lia).
  apply nth_error_nth'. rewrite length_firstn. lia.
Qed.

Section Counts.
Context `{B : Backend}.

(** On a batch whose rows are aligned the batch-local part does not
    raise, its mask selects the entities of the batch, and row [r] of
    the positives it adds is the 32-bit sum of the labels of the [r]-th
    entity. *)
Lemma batch_local_aligned gbl K t b :
  asc gbl -> rows_ok gbl b = true ->
  exists loc,
    batch_local gbl K t b = Some loc
    /\ gbl_msk loc = gbl_mask gbl (active_ids b)
    /\ length (pos_add loc) = length (active_ids b)
    /\ forall r g, nth_error (active_ids b) r = Some g ->
         nth_error (pos_add loc) r
         = Some (wrap32 (zsum (batch_labels b g))).
Proof.
  intros Hgbl Hok.
  destruct (rows_ok_facts _ _ Hok)
    as [Hne [Hcov [Hn [Ha [Hi [Hm [Hs Hl]]]]]]].
  destruct (aligned_ids _ _ Hok) as [Hsel Huniq].
  set (f := fun r => nth r (n_id b) 0%Z) in *.
  set (src_ids := map f (src_idx b)) in *.
  set (m := active_count b) in *.
  assert (Hcnt : list_sum (map snd (unique_counts src_ids))
                 = length (src_idx b)).
  { rewrite unique_counts_sum. unfold src_ids. apply length_map. }
  assert (Hucne : map snd (unique_counts src_ids) <> []).
  { intros H0. apply (f_equal (@length nat)) in H0.
    rewrite length_map in H0.
    assert (length (unique src_ids) = 0)
      by (unfold unique; rewrite length_map; exact H0).
    rewrite Huniq, Hm in H. unfold m, active_count in H. lia. }
  assert (Hrows : Forall (fun r => r < m) (src_idx b)).
  { apply Forall_forall. intros r Hr. apply Hcov, Hr. }
  unfold batch_local. rewrite Hsel. cbv zeta.
  rewrite (tensor_max_nonempty Hucne).
  change (map fst (unique_counts src_ids)) with (unique src_ids).
  rewrite Huniq, (mask_sum_incl Hgbl Ha Hi), Hm.
  set (C := Nat.max K (list_max (map snd (unique_counts src_ids)))).
  set (col_idx := concat (map (seq 0) (map snd (unique_counts src_ids)))).
  assert (Hcols : Forall (fun c => c < C) col_idx).
  { apply Forall_forall. intros c Hc. apply col_idx_bound in Hc.
    unfold C. lia. }
  assert (Hclen : length col_idx = length (src_idx b))
    by (unfold col_idx; rewrite col_idx_length; exact Hcnt).
  destruct (@index_put_ok score (src_idx b) (full m C NInf) col_idx
              (broadcast (length (src_idx b)) (edge_score b)) C)
    as [M1 H1]; try assumption.
  { apply broadcast_fits. assumption. }
  { unfold full. rewrite repeat_length. assumption. }
  { apply full_width. }
  destruct (@index_put_ok Z (src_idx b) (torch_empty (S t) m C) col_idx
              (broadcast (length (src_idx b)) (edge_label b)) C)
    as [M2 H2]; try assumption.
  { apply broadcast_fits. left. assumption. }
  { unfold torch_empty. rewrite length_map, length_seq. assumption. }
  { apply empty_width. }
  destruct (@scatter_add_spec (src_idx b) (repeat 0%Z m)
              (map wrap32 (edge_label b)))
    as [out [Ho [Holen Hout]]].
  { rewrite length_map. lia. }
  { rewrite repeat_length. assumption. }
  rewrite H1, H2, Ho. rewrite repeat_length in Holen, Hout.
  eexists. split; [reflexivity |]. simpl.
  split; [reflexivity |]. split; [lia |].
  intros r g Hr.
  assert (Hrm : r < m).
  { rewrite <- Hm. apply nth_error_Some. congruence. }
  rewrite (@nth_active_ids b r Hrm Hn) in Hr. injection Hr as <-.
  rewrite (nth_error_nth' out 0%Z) by lia. f_equal.
  rewrite (Hout r Hrm), nth_repeat, picked_map.
  change 0%Z with (wrap32 0) at 1. rewrite fold_wadd. f_equal.
  unfold batch_labels. rewrite Hsel. fold f. fold src_ids. unfold src_ids.
  rewrite Z.add_0_l. f_equal. symmetry.
  apply (@picked_by_id Z f r (src_idx b) (edge_label b)).
  intros i Hin He. apply Hcov in Hin. fold m in Hin.
  pose proof (asc_nodup Ha) as Hnd.
  apply (proj1 (NoDup_nth (active_ids b) 0%Z) Hnd); try lia.
  pose proof (@nth_active_ids b i Hin Hn) as Hi1.
  pose proof (@nth_active_ids b r Hrm Hn) as Hr1.
  apply (nth_error_nth _ _ 0%Z) in Hi1, Hr1. rewrite Hi1, Hr1. exact He.
Qed.

Lemma seen_labels_snoc done b g :
  seen_labels (done ++ [b]) g = seen_labels done g ++ batch_labels b g.
Proof.
  unfold seen_labels. rewrite flat_map_app. simpl. rewrite app_nil_r.
  reflexivity.
Qed.

(** An entity that is not in the batch has no label in it. *)
Lemma batch_labels_inactive gbl b g :
  rows_ok gbl b = true -> ~ In g (active_ids b) -> batch_labels b g = [].
Proof.
  intros Hok Hg. destruct (aligned_ids _ _ Hok) as [Hsel Huniq].
  unfold batch_labels. rewrite Hsel. rewrite filter_none; [reflexivity |].
  intros [id l] Hin. simpl. apply in_combine_l in Hin.
  apply unique_in in Hin. rewrite Huniq in Hin.
  destruct (Z.eqb_spec id g) as [-> | _]; [contradiction | reflexivity].
Qed.

(** One batch with aligned rows keeps the counts right. *)
Lemma counts_step gbl K t done st b :
  asc gbl -> rows_ok gbl b = true ->
  length (pos_cnt st) = length gbl ->
  (forall i g, nth_error gbl i = Some g ->
     nth_error (pos_cnt st) i
     = Some (wrap32 (zsum (seen_labels done g)))) ->
  exists st',
    rank_step gbl K t st b = Some st'
    /\ length (pos_cnt st') = length gbl
    /\ forall i g, nth_error gbl i = Some g ->
         nth_error (pos_cnt st') i
         = Some (wrap32 (zsum (seen_labels (done ++ [b]) g))).
Proof.
  intros Hgbl Hok Hlen Hcnt.
  destruct (@batch_local_aligned gbl K t b Hgbl Hok)
    as [loc [Hloc [Hmsk [Hadd Hrow]]]].
  destruct (rows_ok_facts _ _ Hok) as [_ [_ [_ [Ha [Hi _]]]]].
  unfold rank_step. rewrite Hloc. eexists. split; [reflexivity |].
  split.
  { rewrite (proj2 (proj2 (merge_lengths K st loc))). assumption. }
  intros i g Hg. unfold merge. cbn [pos_cnt]. rewrite Hmsk.
  rewrite (@masked_update_nth _ _ (fun p a => wrap32 (p + a)) gbl
             (active_ids b) (pos_cnt st) (pos_add loc) i g
             (wrap32 (zsum (seen_labels done g)))
             Hgbl Ha Hi Hadd Hg (Hcnt i g Hg)).
  rewrite seen_labels_snoc, zsum_app. f_equal.
  destruct (in_dec Z.eq_dec g (active_ids b)) as [Hin | Hnot].
  - destruct (In_nth_error _ _ Hin) as [r Hr].
    rewrite (@assoc_nth _ (active_ids b) (pos_add loc) r g Ha Hadd Hr), (Hrow r g Hr).
    rewrite wrap32_add_l, wrap32_add_r. reflexivity.
  - rewrite (@assoc_notin _ g (active_ids b) (pos_add loc) Hnot), (@batch_labels_inactive gbl b g Hok Hnot).
    simpl. rewrite Z.add_0_r. reflexivity.
Qed.

Lemma counts_loop gbl K loader : forall t done st,
  asc gbl -> Forall (fun b => rows_ok gbl b = true) loader ->
  length (pos_cnt st) = length gbl ->
  (forall i g, nth_error gbl i = Some g ->
     nth_error (pos_cnt st) i
     = Some (wrap32 (zsum (seen_labels done g)))) ->
  exists st',
    rank_loop gbl K t st loader = Some st'
    /\ length (pos_cnt st') = length gbl
    /\ forall i g, nth_error gbl i = Some g ->
         nth_error (pos_cnt st') i
         = Some (wrap32 (zsum (seen_labels (done ++ loader) g))).
Proof.
  induction loader as [| b loader IH]; intros t done st Hgbl Hall Hlen Hcnt.
  - exists st. rewrite app_nil_r. auto.
  - inversion Hall as [| ? ? Hb Hrest]; subst.
    destruct (@counts_step gbl K t done st b Hgbl Hb Hlen Hcnt)
      as [st1 [Hstep [Hlen1 Hcnt1]]].
    destruct (IH (S t) (done ++ [b]) st1 Hgbl Hrest Hlen1 Hcnt1)
      as [st' [Hloop [Hlen' Hcnt']]].
    exists st'. simpl. rewrite Hstep.
    rewrite <- app_assoc in Hcnt'. auto.
Qed.

(** On a stream of batches with aligned rows [rank] returns, and the
    count of an entity is the 32-bit sum of the labels of its triples. *)
Lemma counts_of_aligned data_src loader K :
  Forall (fun b => rows_ok (registry data_src) b = true) loader ->
  exists labels counts,
    rank data_src loader K = Some (labels, counts)
    /\ length counts = length (registry data_src)
    /\ forall i g, nth_error (registry data_src) i = Some g ->
         nth_error counts i
         = Some (wrap32 (zsum (seen_labels loader g))).
Proof.
  intros Hall.
  destruct (@counts_loop (registry data_src) K loader 0 []
              (init_state (length (registry data_src)) K))
    as [st [Hloop [Hlen Hcnt]]].
  - apply unique_asc.
  - assumption.
  - unfold init_state. simpl. apply repeat_length.
  - intros i g Hg. unfold init_state. simpl.
    rewrite nth_error_repeat
      by (apply nth_error_Some; congruence).
    reflexivity.
  - exists (lbl_buf st), (pos_cnt st).
    unfold rank, rank_state. rewrite Hloop. auto.
Qed.

End Counts.

Lemma zsum_binary_labels (l : list Z) :
  Forall (fun x => x = 0%Z \/ x = 1%Z) l ->
  zsum l = Z.of_nat (length (filter (Z.eqb 1) l)).
Proof.
  induction 1 as [| x l Hx _ IH]; [reflexivity |].
  unfold zsum in *. destruct Hx as [-> | ->]; cbn [fold_right filter Z.eqb];
    [| cbn [length Pos.eqb]; rewrite Nat2Z.inj_succ]; rewrite IH; lia.
Qed.

Lemma batch_labels_in b g l :
  In l (batch_labels b g) -> In l (edge_label b).
Proof.
  unfold batch_labels.
  destruct (index_select (n_id b) (src_idx b)); [| contradiction].
  intros H. apply in_map_iff in H. destruct H as [[id l'] [<- H]].
  apply filter_In in H. destruct H as [H _].
  eapply in_combine_r, H.
Qed.

Lemma seen_labels_in loader g l :
  In l (seen_labels loader g) ->
  exists b, In b loader /\ In l (edge_label b).
Proof.
  unfold seen_labels. intros H. apply in_flat_map in H.
  destruct H as [b [Hb Hl]]. exists b. split; [assumption |].
  eapply batch_labels_in, Hl.
Qed.



Section CountTheorems.
Context `{B : Backend}.

(** C4, amended: on a stream whose batches have aligned rows (source
    index [r] stands for the [r]-th smallest id of the batch, and that
    id is registered) and binary labels, the count returned for an
    entity is the number of its triples with label 1 in the whole
    stream, as long as that number fits the 32-bit counter. *)
Theorem rank_pos_counts data_src loader K :
  Forall (fun b => rows_ok (registry data_src) b = true) loader ->
  Forall binary_labels loader ->
  exists labels counts,
    rank data_src loader K = Some (labels, counts)
    /\ forall i g, nth_error (registry data_src) i = Some g ->
         (Z.of_nat (positives loader g) < 2 ^ 31)%Z ->
         nth_error counts i = Some (Z.of_nat (positives loader g)).
Proof.
  intros Hall Hbin.
  destruct (@counts_of_aligned B data_src loader K Hall) as [l [c [Hr [_ Hc]]]].
  exists l, c. split; [assumption |].
  intros i g Hg Hfit. rewrite (Hc i g Hg). f_equal.
  unfold positives in *. rewrite zsum_binary_labels.
  - apply wrap32_small. lia.
  - apply Forall_forall. intros x Hx.
    destruct (seen_labels_in _ _ _ Hx) as [b [Hb Hl]].
    rewrite Forall_forall in Hbin. specialize (Hbin b Hb).
    unfold binary_labels in Hbin. rewrite Forall_forall in Hbin.
    apply Hbin, Hl.
Qed.

(** X8: On a stream whose batches have aligned rows and whose labels
    are within the range of a 32-bit integer, the count of an entity is
    the sum of the labels of all its triples in 32-bit two's-complement
    arithmetic: the labels need not be 0 or 1, and the sum may wrap. *)
Theorem rank_counts_wrap data_src loader K :
  Forall (fun b => rows_ok (registry data_src) b = true) loader ->
  Forall int32_labels loader ->
  exists labels counts,
    rank data_src loader K = Some (labels, counts)
    /\ forall i g, nth_error (registry data_src) i = Some g ->
         nth_error counts i
         = Some (wrap32 (zsum (seen_labels loader g))).
Proof.
  intros Hall _.
  destruct (@counts_of_aligned B data_src loader K Hall)
    as [l [c [Hr [_ Hc]]]].
  exists l, c. split; assumption.
Qed.

End CountTheorems.
End CountFacts.

(** ** Which batches have aligned rows, and what is written *)
Module AlignFacts.
Import TensorFacts OrderFacts MergeFacts BatchFacts ScatterFacts GroupFacts
  StepFacts LoopFacts ReadoutFacts BackendFacts RankFacts FrameFacts
  ScatterBounds FailureFacts ShapeFacts StreamFacts CountFacts.






Section Writes.
Context `{B : Backend}.



End Writes.
End AlignFacts.

(** ** The shape of the discounted gain *)
Module GainShapes.
Import Reals Lra Gain TensorFacts GainFacts.
Local Open Scope R_scope.

Lemma log2_increasing x y : 0 < x -> x < y -> log2 x < log2 y.
Proof.
  intros Hx Hxy. unfold log2. pose proof ln2_pos as Hp.
  apply Rmult_lt_compat_r; [apply Rinv_0_lt_compat; assumption |].
  apply ln_increasing; assumption.
Qed.

Lemma coefs_from_sorted n : forall a,
  StronglySorted Rlt (map (fun r => log2 (INR r + 2)) (seq a n)).
Proof.
  induction n as [| n IH]; intros a; simpl; constructor; [apply IH |].
  apply Forall_forall. intros x Hx. apply in_map_iff in Hx.
  destruct Hx as [r [<- Hr]]. apply in_seq in Hr.
  apply log2_increasing.
  - pose proof (pos_INR a). lra.
  - apply Rplus_lt_compat_r, lt_INR. lia.
Qed.

(** X16: The discount factors start at 1 and grow strictly with the rank. *)
Theorem ndcg_coefs_increasing count :
  StronglySorted Rlt (ndcg_coefs count) /\ hd 1 (ndcg_coefs count) = 1.
Proof.
  split; [apply coefs_from_sorted |].
  destruct count as [| count]; [reflexivity |].
  unfold ndcg_coefs. simpl. replace (0 + 2) with 2 by lra. apply log2_2.
Qed.

(** The masked sum is the sum of a prefix. *)
Lemma masked_sum_prefix m cs : forall a,
  rsum (map2 (fun r c => if (Z.of_nat r <? m)%Z then c else 0)
          (seq a (length cs)) cs)
  = rsum (firstn (Z.to_nat m - a) cs).
Proof.
  induction cs as [| c cs IH]; intros a.
  - rewrite firstn_nil. reflexivity.
  - simpl length. simpl seq. simpl map2. simpl rsum. rewrite IH.
    destruct (Z.ltb_spec (Z.of_nat a) m) as [Hlt | Hge].
    + replace (Z.to_nat m - a)%nat with (S (Z.to_nat m - S a)) by lia.
      reflexivity.
    + replace (Z.to_nat m - a)%nat with 0%nat by lia.
      replace (Z.to_nat m - S a)%nat with 0%nat by lia.
      simpl. lra.
Qed.

(** The normaliser of the code, in closed form: the sum of the first
    [total] coefficients. *)
Lemma norm_sum_prefix count cs p :
  length cs = count -> norm_sum count cs p = rsum (firstn (Z.to_nat p) cs).
Proof.
  intros Hlen. unfold norm_sum. subst count.
  rewrite masked_sum_prefix, Nat.sub_0_r.
  replace (Z.to_nat (Z.min p (Z.of_nat (length cs))))
    with (Nat.min (Z.to_nat p) (length cs)) by lia.
  rewrite <- firstn_firstn, firstn_all. reflexivity.
Qed.

Lemma map2_map_map {A A' B B' C} (f : A' -> B' -> C) (g : A -> A')
  (h : B -> B') l : forall m,
  map2 f (map g l) (map h m) = map2 (fun a b => f (g a) (h b)) l m.
Proof.
  induction l as [| a l IH]; intros [| b m]; simpl; try reflexivity.
  rewrite IH. reflexivity.
Qed.

Lemma map2_ext_in {A B C} (f g : A -> B -> C) l : forall m,
  (forall a b, In a l -> In b m -> f a b = g a b) ->
  map2 f l m = map2 g l m.
Proof.
  induction l as [| a l IH]; intros [| b m] H; simpl; try reflexivity.
  rewrite H by (left; reflexivity). f_equal.
  apply IH. intros a' b' Ha Hb. apply H; right; assumption.
Qed.

(** X17: What [ndcg_score] computes with the default coefficients for
    entities with a positive total, entity by entity: the labels divided
    by the discount factors and summed, over the sum of the first
    [total] discount factors themselves, which is positive. *)
Theorem ndcg_score_closed_form score total K :
  (0 < K)%nat -> Forall (fun p => (0 < p)%Z) total ->
  Forall (fun r => length r = K) score -> length total = length score ->
  ndcg_score score (TotalTensor total) None
  = Some (map2 (fun row p =>
                  rsum (map2 Rdiv row (ndcg_coefs K))
                  / rsum (firstn (Z.to_nat p) (ndcg_coefs K)))
            score total).
Proof.
  intros _ _ Hall Hlen.
  destruct score as [| row0 score].
  - destruct total; [reflexivity | discriminate].
  - assert (Hcols : columns (row0 :: score) = K)
      by (inversion Hall; subst; reflexivity).
    unfold ndcg_score, expand_coefs, bcast2.
    rewrite Hcols, ndcg_coefs_length, Nat.eqb_refl, !length_map, Hlen,
      Nat.eqb_refl.
    f_equal. rewrite map2_map_map. apply map2_ext_in.
    intros row p _ _. unfold gain_sum.
    rewrite norm_sum_prefix by apply ndcg_coefs_length. reflexivity.
Qed.

(** X18: With the default coefficients the normaliser of an entity vanishes
    exactly when its total is not positive. *)
Theorem ndcg_norm_zero_iff K p :
  (0 < K)%nat -> norm_sum K (ndcg_coefs K) p = 0 <-> (p <= 0)%Z.
Proof.
  intros HK. split.
  - intros Hz. destruct (Z_le_gt_dec p 0) as [Hle | Hgt]; [assumption |].
    exfalso.
    pose proof (@masked_sum_lower K (Z.min p (Z.of_nat K))) as Hm.
    replace (Z.min (Z.min p (Z.of_nat K)) (Z.of_nat K))
      with (Z.min p (Z.of_nat K)) in Hm by lia.
    unfold norm_sum in Hz. rewrite Hz in Hm.
    assert (H1 : (1 <= Z.min p (Z.of_nat K))%Z) by lia.
    apply IZR_le in H1. specialize (Hm ltac:(lia)). lra.
  - intros Hle. rewrite norm_sum_prefix by apply ndcg_coefs_length.
    replace (Z.to_nat p) with 0%nat by lia. reflexivity.
Qed.

Lemma bcast2_none {A B C} (f : A -> B -> C) l m :
  bcast2 f l m = None
  <-> length l <> length m /\ length l <> 1%nat /\ length m <> 1%nat.
Proof.
  unfold bcast2.
  destruct (Nat.eqb_spec (length l) (length m)) as [He | Hne].
  - split; [discriminate | tauto].
  - destruct l as [| a [| a' l]], m as [| b [| b' m]]; simpl in *;
      split; try discriminate; try tauto; try (intros _; lia);
      try (intros [_ [H1 H2]]; lia).
Qed.

Lemma expand_coefs_none count cs :
  expand_coefs count cs = None
  <-> length cs <> count /\ length cs <> 1%nat.
Proof.
  unfold expand_coefs.
  destruct (Nat.eqb_spec (length cs) count) as [He | Hne].
  - split; [discriminate | tauto].
  - destruct cs as [| c [| c' cs]]; simpl in *;
      split; try discriminate; try tauto; try (intros _; lia);
      try (intros [_ H1]; lia).
Qed.

(** X19: When [ndcg_score] raises: exactly when the coefficients given have
    neither one element per column nor a single element, or the totals
    cannot be broadcast against the rows.  An integer total stands for
    [count] totals, so it needs as many rows as columns, or one of
    either. *)
Theorem ndcg_score_raises score total coefs :
  score <> [] ->
  let count := columns score in
  let totals := match total with
                | TotalInt _ => count
                | TotalTensor t => length t
                end in
  ndcg_score score total coefs = None
  <-> (exists c, coefs = Some c /\ length c <> count /\ length c <> 1%nat)
      \/ (totals <> length score /\ totals <> 1%nat
          /\ length score <> 1%nat).
Proof.
  intros _ count totals. unfold ndcg_score. fold count.
  set (cs := match coefs with Some c => c | None => ndcg_coefs count end).
  set (tt := match total with
             | TotalInt _ => repeat (Z.of_nat count) count
             | TotalTensor t => t
             end).
  assert (Htt : length tt = totals).
  { unfold tt, totals. destruct total; [apply repeat_length | reflexivity]. }
  destruct (expand_coefs count cs) as [cs' |] eqn:E.
  - rewrite bcast2_none, !length_map, Htt. split.
    + intros [H1 [H2 H3]]. right. repeat split; congruence.
    + intros [[c [Hc [H1 H2]]] | [H1 [H2 H3]]].
      * exfalso. subst coefs. unfold cs in E.
        assert (expand_coefs count c = None)
          by (apply expand_coefs_none; tauto).
        congruence.
      * repeat split; congruence.
  - split; [| reflexivity]. intros _. left.
    apply expand_coefs_none in E. destruct E as [H1 H2].
    destruct coefs as [c |].
    + exists c. auto.
    + exfalso. apply H1. apply ndcg_coefs_length.
Qed.

End GainShapes.

(** ** The normaliser at an ideal ranking, and at an integer total *)
Module NormaliserFacts.
Import Reals Lra Gain TensorFacts GainFacts GainShapes.
Local Open Scope R_scope.

(** *** An ideal ranking *)

Lemma rsum_zeros_div cs : forall n,
  rsum (map2 Rdiv (repeat 0 n) cs) = 0.
Proof.
  induction cs as [| c cs IH]; intros [| n]; simpl; try reflexivity.
  rewrite IH. unfold Rdiv. lra.
Qed.

Lemma map2_ones_div cs : forall n,
  length cs = n ->
  map2 Rdiv (repeat 1 n) cs = map (fun c => 1 / c) cs.
Proof.
  induction cs as [| c cs IH]; intros [| n] H; simpl in *;
    try discriminate; [reflexivity |].
  rewrite IH by lia. reflexivity.
Qed.

Lemma ndcg_coefs_app p q :
  ndcg_coefs (p + q)
  = ndcg_coefs p ++ map (fun r => log2 (INR r + 2)) (seq p q).
Proof. unfold ndcg_coefs. rewrite seq_app, map_app. reflexivity. Qed.

(** The discounted sum of [p] ones is below [p] from the second one
    on, and the sum of the first [p] discount factors is at least [p]. *)
Lemma ones_gain_upper p :
  (2 <= p)%nat ->
  rsum (map (fun c => 1 / c) (ndcg_coefs p)) <= INR p - (1 - 1 / log2 3).
Proof.
  induction p as [| p IH]; intros Hp; [lia |].
  destruct (Nat.eq_dec p 1) as [-> | Hne].
  - rewrite coefs_2. simpl. unfold Rdiv. rewrite Rinv_1. lra.
  - rewrite ndcg_coefs_S, map_app, rsum_app, S_INR. simpl.
    specialize (IH ltac:(lia)).
    pose proof (coef_ge_1 p) as Hc.
    assert (1 / log2 (INR p + 2) <= 1).
    { apply Rmult_le_reg_r with (log2 (INR p + 2)); [lra |].
      unfold Rdiv. rewrite Rmult_assoc, Rinv_l by lra. lra. }
    lra.
Qed.

Lemma ones_gain_nonneg p :
  0 <= rsum (map (fun c => 1 / c) (ndcg_coefs p)).
Proof.
  induction p as [| p IH]; [simpl; lra |].
  rewrite ndcg_coefs_S, map_app, rsum_app. simpl.
  pose proof (coef_ge_1 p) as Hc.
  assert (0 < 1 / log2 (INR p + 2)) by (apply Rdiv_lt_0_compat; lra).
  lra.
Qed.

Lemma ones_gain_pos p :
  (1 <= p)%nat -> 0 < rsum (map (fun c => 1 / c) (ndcg_coefs p)).
Proof.
  destruct p as [| p]; intros Hp; [lia |].
  rewrite ndcg_coefs_S, map_app, rsum_app. simpl.
  pose proof (coef_ge_1 p) as Hc.
  pose proof (ones_gain_nonneg p) as Hn.
  assert (0 < 1 / log2 (INR p + 2)) by (apply Rdiv_lt_0_compat; lra).
  lra.
Qed.

Lemma coefs_sum_lower p : INR p <= rsum (ndcg_coefs p).
Proof.
  induction p as [| p IH]; [simpl; lra |].
  rewrite ndcg_coefs_S, rsum_app, S_INR. simpl.
  pose proof (coef_ge_1 p). lra.
Qed.

Lemma rsum_zero_terms (f : nat -> R) l :
  (forall r, In r l -> f r = 0) -> rsum (map f l) = 0.
Proof.
  induction l as [| x l IH]; intros H; simpl; [reflexivity |].
  rewrite (H x) by (left; reflexivity).
  rewrite IH by (intros r Hr; apply H; right; assumption). lra.
Qed.

(** C6: for an ideal ranking with at least two positives, all of them
    in the highest-ranked slots, the code returns less than 1, where the
    formula of the specification gives exactly 1: the normaliser of the
    code is the sum of the discount factors, not of their inverses. *)
Theorem ndcg_ideal_ranking_below_one K p :
  (2 <= p <= K)%nat ->
  let row := repeat 1 p ++ repeat 0 (K - p) in
  exists v,
    ndcg_score [row] (TotalTensor [Z.of_nat p]) None = Some [v]
    /\ v = rsum (map (fun c => 1 / c) (ndcg_coefs p)) / rsum (ndcg_coefs p)
    /\ 0 < v < 1
    /\ ndcg_formula K row (Z.of_nat p) = 1.
Proof.
  intros Hp row.
  assert (Hlen : length row = K).
  { unfold row. rewrite length_app, !repeat_length. lia. }
  assert (HK : K = (p + (K - p))%nat) by lia.
  pose proof (ones_gain_upper (proj1 Hp)) as Hup.
  pose proof (@ones_gain_pos p ltac:(lia)) as Hpos.
  pose proof (coefs_sum_lower p) as Hlow.
  pose proof log2_3_gt_1 as H3.
  assert (Hd : 0 < 1 - 1 / log2 3).
  { assert (1 / log2 3 < 1); [| lra].
    apply Rmult_lt_reg_r with (log2 3); [lra |].
    unfold Rdiv. rewrite Rmult_assoc, Rinv_l by lra. lra. }
  assert (HINR : 2 <= INR p).
  { replace 2 with (INR 2) by (simpl; lra). apply le_INR. lia. }
  eexists. split; [apply ndcg_score_single |].
  rewrite Hlen.
  assert (Hgain : gain_sum (ndcg_coefs K) row
                  = rsum (map (fun c => 1 / c) (ndcg_coefs p))).
  { unfold gain_sum, row.
    replace (ndcg_coefs K) with (ndcg_coefs (p + (K - p)))
      by (f_equal; lia).
    rewrite ndcg_coefs_app.
    rewrite map2_app by (rewrite repeat_length, ndcg_coefs_length; reflexivity).
    rewrite rsum_app, rsum_zeros_div.
    rewrite map2_ones_div by apply ndcg_coefs_length. lra. }
  assert (Hnorm : norm_sum K (ndcg_coefs K) (Z.of_nat p)
                  = rsum (ndcg_coefs p)).
  { rewrite norm_sum_prefix by apply ndcg_coefs_length.
    rewrite Nat2Z.id.
    replace (ndcg_coefs K) with (ndcg_coefs (p + (K - p)))
      by (f_equal; lia).
    rewrite ndcg_coefs_app.
    rewrite firstn_app, ndcg_coefs_length, Nat.sub_diag, firstn_all2
      by (rewrite ndcg_coefs_length; lia).
    simpl. rewrite app_nil_r. reflexivity. }
  rewrite Hgain, Hnorm. split; [reflexivity |]. split.
  - split.
    + apply Rdiv_lt_0_compat; lra.
    + apply Rmult_lt_reg_r with (rsum (ndcg_coefs p)); [lra |].
      unfold Rdiv. rewrite Rmult_assoc, Rinv_l by lra. lra.
  - unfold ndcg_formula. rewrite Nat2Z.id, Nat.min_l by lia.
    assert (Hnum : rsum (map (fun r => nth r row 0 / log2 (INR r + 2))
                           (seq 0 K))
                   = rsum (map (fun r => 1 / log2 (INR r + 2)) (seq 0 p))).
    { replace (seq 0 K) with (seq 0 (p + (K - p))) by (f_equal; lia).
      rewrite seq_app, map_app, rsum_app.
      rewrite (@rsum_zero_terms _ (seq (0 + p) (K - p))).
      - rewrite Rplus_0_r. f_equal. apply map_ext_in.
        intros r Hr. apply in_seq in Hr. unfold row.
        rewrite app_nth1 by (rewrite repeat_length; lia).
        rewrite nth_repeat_lt by lia. reflexivity.
      - intros r Hr. apply in_seq in Hr. unfold row.
        rewrite app_nth2 by (rewrite repeat_length; lia).
        rewrite nth_repeat. unfold Rdiv. lra. }
    rewrite Hnum.
    assert (Heq : rsum (map (fun r => 1 / log2 (INR r + 2)) (seq 0 p))
                  = rsum (map (fun c => 1 / c) (ndcg_coefs p))).
    { unfold ndcg_coefs. rewrite map_map. reflexivity. }
    rewrite Heq. unfold Rdiv at 1. apply Rinv_r. lra.
Qed.

Lemma ndcg_ideal_ranking_below_one_witness :
  exists v,
    ndcg_score [[1; 1; 0]] (TotalTensor [2%Z]) None = Some [v]
    /\ v = rsum (map (fun c => 1 / c) (ndcg_coefs 2)) / rsum (ndcg_coefs 2)
    /\ 0 < v < 1
    /\ ndcg_formula 3 [1; 1; 0] 2 = 1.
Proof. apply (@ndcg_ideal_ranking_below_one 3 2). lia. Defined.

(** *** An integer for the total *)

Lemma norm_sum_full count cs :
  length cs = count -> norm_sum count cs (Z.of_nat count) = rsum cs.
Proof.
  intros H. rewrite norm_sum_prefix by assumption.
  rewrite Nat2Z.id, <- H, firstn_all. reflexivity.
Qed.

Lemma rsum_pos cs :
  cs <> [] -> Forall (fun c => 0 < c) cs -> 0 < rsum cs.
Proof.
  intros Hne Hall. induction Hall as [| c cs Hc Hall IH];
    [contradiction |].
  simpl. destruct cs as [| c' cs]; [simpl; lra |].
  specialize (IH ltac:(discriminate)). lra.
Qed.

(** C10: with an integer for [total] every entity is normalised by the
    sum of all the coefficients, the normaliser of an entity with [count]
    positives, whatever the integer is: the result is the gain of each
    row over that sum (broadcast as PyTorch broadcasts, when the matrix
    is not square). *)
Theorem ndcg_score_int_total score n coefs cs :
  let count := columns score in
  score <> [] -> (0 < count)%nat ->
  Forall (fun row => length row = count) score ->
  expand_coefs count
    (match coefs with Some c => c | None => ndcg_coefs count end) = Some cs ->
  Forall (fun c => 0 < c) cs ->
  ndcg_score score (TotalInt n) coefs
  = bcast2 Rdiv (map (gain_sum cs) score) (repeat (rsum cs) count)
  /\ ndcg_score score (TotalInt n) coefs
     = ndcg_score score (TotalTensor (repeat (Z.of_nat count) count)) coefs
  /\ norm_sum count cs (Z.of_nat count) = rsum cs
  /\ 0 < rsum cs
  /\ (length score = count ->
      ndcg_score score (TotalInt n) coefs
      = Some (map (fun row => gain_sum cs row / rsum cs) score)).
Proof.
  intros count Hne Hcount Hrows Hcs Hpos.
  pose proof (expand_coefs_length _ _ Hcs) as Hlen.
  assert (Hfull : norm_sum count cs (Z.of_nat count) = rsum cs)
    by (apply norm_sum_full; assumption).
  assert (Hres : ndcg_score score (TotalInt n) coefs
                 = bcast2 Rdiv (map (gain_sum cs) score)
                     (repeat (rsum cs) count)).
  { unfold ndcg_score. fold count. rewrite Hcs, map_repeat, Hfull.
    reflexivity. }
  split; [exact Hres |]. split; [reflexivity |].
  split; [exact Hfull |]. split.
  { apply rsum_pos; [| assumption]. intros ->. simpl in Hlen. lia. }
  intros Hsq. rewrite Hres. unfold bcast2.
  rewrite length_map, repeat_length, Hsq, Nat.eqb_refl. f_equal.
  rewrite <- Hsq. clear. induction score as [| row score IH];
    [reflexivity |].
  simpl. rewrite IH. reflexivity.
Qed.

Lemma ndcg_score_int_total_witness :
  ndcg_score [[1; 0]; [0; 1]] (TotalInt 7) None
  = Some (map (fun row => gain_sum (ndcg_coefs 2) row / rsum (ndcg_coefs 2))
            [[1; 0]; [0; 1]]).
Proof.
  apply (@ndcg_score_int_total [[1; 0]; [0; 1]] 7%Z None (ndcg_coefs 2)).
  - discriminate.
  - simpl. lia.
  - repeat constructor.
  - reflexivity.
  - apply Forall_forall. intros c Hc.
    pose proof (ndcg_coefs_ge_1 2) as H. rewrite Forall_forall in H.
    specialize (H c Hc). lra.
  - reflexivity.
Defined.

End NormaliserFacts.

(** ** Runs at the edges *)
Module EdgeRuns.
Import TensorFacts OrderFacts MergeFacts BatchFacts ScatterFacts GroupFacts StepFacts
  LoopFacts ReadoutFacts BackendFacts RankFacts FrameFacts ScatterBounds
  FailureFacts ShapeFacts StreamFacts ValueFacts Examples EdgeExamples.

Lemma rank_empty_batch_witness :
  @rank (stable_backend zero_mem) [5; 5]%Z [scenario_1; hollow] 3 = None.
Proof.
  apply (@rank_empty_batch (stable_backend zero_mem) [5; 5]%Z
           [scenario_1; hollow] 3 hollow).
  - right. left. reflexivity.
  - reflexivity.
Defined.

Lemma rank_index_outside_n_id_witness :
  @rank (stable_backend zero_mem) [5; 5]%Z [stray] 1 = None.
Proof.
  apply (@rank_index_outside_n_id (stable_backend zero_mem) [5; 5]%Z
           [stray] 1 stray 1).
  - left. reflexivity.
  - right. left. reflexivity.
  - simpl. lia.
Defined.

Lemma rank_row_outside_tmp_witness :
  @rank (stable_backend zero_mem) [7; 9]%Z [sparse] 1 = None.
Proof.
  apply (@rank_row_outside_tmp (stable_backend zero_mem) [7; 9]%Z
           [sparse] 1 sparse 1).
  - left. reflexivity.
  - left. reflexivity.
  - vm_compute. lia.
Defined.

Lemma rank_unregistered_entity_witness :
  @rank (stable_backend zero_mem) [5; 5]%Z [scenario_1; other] 3 = None.
Proof.
  apply (@rank_unregistered_entity (stable_backend zero_mem) [5; 5]%Z
           [scenario_1; other] 3 other 2%Z).
  - right. left. reflexivity.
  - reflexivity.
  - vm_compute. apply le_n.
  - reflexivity.
  - left. reflexivity.
  - vm_compute. intros [H | []]. discriminate.
Defined.

Lemma rank_shape_witness :
  length [[1; 0; 1; 1; 7; 7]]%Z = length (registry [5; 5; 5; 5]%Z)
  /\ length [3%Z] = length (registry [5; 5; 5; 5]%Z)
  /\ Forall (fun row => length row = 2 * 3) [[1; 0; 1; 1; 7; 7]]%Z.
Proof.
  apply (@rank_shape (stable_backend seven_mem) (stable_laws seven_mem)
           [5; 5; 5; 5]%Z [scenario_1; scenario_2] 3).
  reflexivity.
Defined.

Lemma rank_rows_descending_witness :
  exists st,
    @rank_state (stable_backend seven_mem) [5; 5; 5; 5]%Z
      [scenario_1; scenario_2] 3 = Some st
    /\ Forall desc (scr_buf st).
Proof.
  eexists. split; [reflexivity |].
  apply (@rank_rows_descending (stable_backend seven_mem)
           (stable_laws seven_mem) [5; 5; 5; 5]%Z
           [scenario_1; scenario_2] 3).
  reflexivity.
Defined.

Lemma rank_counts_batching_witness :
  exists labels1 labels2 counts,
    @rank (stable_backend seven_mem) [5; 5; 5; 5]%Z
      [scenario_1; scenario_2] 3 = Some (labels1, counts)
    /\ @rank (reverse_backend zero_mem) [5; 5; 5; 5]%Z
         [scenario_2; scenario_1] 1 = Some (labels2, counts).
Proof.
  apply (@rank_counts_batching (stable_backend seven_mem)
           (reverse_backend zero_mem) (stable_laws seven_mem)
           (reverse_laws zero_mem) [5; 5; 5; 5]%Z
           [scenario_1; scenario_2] [scenario_2; scenario_1] 3 1).
  - constructor; [reflexivity |]. constructor; [reflexivity |]. constructor.
  - constructor; [reflexivity |]. constructor; [reflexivity |]. constructor.
  - intros g. unfold seen. cbn [flat_map]. rewrite !app_nil_r.
    apply Permutation_app_comm.
Defined.

Lemma rank_top_k_unique_witness :
  exists labels1 counts1 labels2 counts2,
    @rank (stable_backend seven_mem) [5; 5; 5; 5]%Z
      [scenario_1; scenario_2] 3 = Some (labels1, counts1)
    /\ @rank (reverse_backend zero_mem) [5; 5; 5; 5]%Z
         [scenario_2; scenario_1] 3 = Some (labels2, counts2)
    /\ forall i g, nth_error (registry [5; 5; 5; 5]%Z) i = Some g ->
         Permutation (seen [scenario_1; scenario_2] g)
           (seen [scenario_2; scenario_1] g) ->
         NoDup (map fst (seen [scenario_1; scenario_2] g)) ->
         exists row1 row2,
           nth_error labels1 i = Some row1
           /\ nth_error labels2 i = Some row2
           /\ firstn (Nat.min 3 (length (seen [scenario_1; scenario_2] g)))
                row1
              = firstn (Nat.min 3 (length (seen [scenario_1; scenario_2] g)))
                  row2.
Proof.
  apply (@rank_top_k_unique (stable_backend seven_mem)
           (reverse_backend zero_mem) (stable_laws seven_mem)
           (reverse_laws zero_mem) [5; 5; 5; 5]%Z
           [scenario_1; scenario_2] [scenario_2; scenario_1] 3).
  - constructor; [reflexivity |]. constructor; [reflexivity |]. constructor.
  - constructor; [reflexivity |]. constructor; [reflexivity |]. constructor.
Defined.

Lemma rank_label_length_mismatch_witness :
  @rank (stable_backend zero_mem) [5; 5]%Z [short_labels] 2 = None.
Proof.
  apply (@rank_label_length_mismatch (stable_backend zero_mem) [5; 5]%Z
           [short_labels] 2 short_labels).
  - left. reflexivity.
  - simpl. lia.
Defined.

Lemma rank_score_length_mismatch_witness :
  @rank (stable_backend zero_mem) [5; 5; 5]%Z [short_scores] 2 = None.
Proof.
  apply (@rank_score_length_mismatch (stable_backend zero_mem) [5; 5; 5]%Z
           [short_scores] 2 short_scores).
  - left. reflexivity.
  - simpl. lia.
  - simpl. lia.
Defined.

Lemma rank_counts_int32_witness :
  Forall (fun c => (- 2 ^ 31 <= c < 2 ^ 31)%Z) [3%Z].
Proof.
  apply (@rank_counts_int32 (stable_backend seven_mem) [5; 5; 5; 5]%Z
           [scenario_1; scenario_2] 3 [[1; 0; 1; 1; 7; 7]]%Z [3%Z]).
  reflexivity.
Defined.

End EdgeRuns.

(** ** Runs on batches that are not of the expected shape *)
Module AlignedRuns.
Import TensorFacts OrderFacts MergeFacts BatchFacts ScatterFacts GroupFacts
  StepFacts LoopFacts ReadoutFacts BackendFacts RankFacts FrameFacts
  ScatterBounds FailureFacts ShapeFacts StreamFacts CountFacts AlignFacts
  Examples EdgeExamples.

(** C2, as stated, fails: a batch whose node ids are not ascending is
    accepted, and the label of the item of entity 8 lands in the row of
    entity 3, whose only item has label 0. *)
Lemma rank_crossed_labels :
  registry [8; 3]%Z = [3; 8]%Z
  /\ @rank (stable_backend seven_mem) [8; 3]%Z [crossed] 1
     = Some ([[1; 7]; [0; 7]], [1; 0])%Z
  /\ seen [crossed] 3%Z = [(4, 0)]%Z
  /\ ~ top_labels 1 (seen [crossed] 3%Z) [1; 7]%Z.
Proof.
  split; [reflexivity |]. split; [reflexivity |]. split; [reflexivity |].
  change (seen [crossed] 3%Z) with [(4, 0)%Z].
  intros [sel [others [filler [Hp [Hn [_ [_ He]]]]]]].
  simpl in Hn. destruct sel as [| x [| y sel]]; try discriminate.
  simpl in He. injection He as He _.
  assert (Hx : In x [(4, 0)%Z])
    by (apply (Permutation_in _ Hp); left; reflexivity).
  destruct Hx as [<- | []]. discriminate.
Qed.

(** Nor does the claim hold for a score of [-inf], which ties with the
    filling of the buffer: the first column of the only row holds what
    the memory held, the label of the item comes second. *)
Lemma rank_minus_inf_score :
  @rank (stable_backend seven_mem) [5]%Z [minus_inf] 1
  = Some ([[7; 1]], [1])%Z
  /\ batch_ok (registry [5]%Z) minus_inf = false.
Proof. split; reflexivity. Qed.

(** C4, as stated, fails on the same batch: the positive of entity 8 is
    counted for entity 3, and entity 8 is left with none. *)
Lemma rank_crossed_counts :
  registry [8; 3]%Z = [3; 8]%Z
  /\ @rank (stable_backend seven_mem) [8; 3]%Z [crossed] 1
     = Some ([[1; 7]; [0; 7]], [1; 0])%Z
  /\ positives [crossed] 3%Z = 0
  /\ positives [crossed] 8%Z = 1.
Proof. repeat split; reflexivity. Qed.

Lemma rank_pos_counts_witness :
  exists labels counts,
    @rank (stable_backend seven_mem) [5; 6; 5]%Z [ungrouped; scenario_1] 2
    = Some (labels, counts)
    /\ forall i g, nth_error (registry [5; 6; 5]%Z) i = Some g ->
         (Z.of_nat (positives [ungrouped; scenario_1] g) < 2 ^ 31)%Z ->
         nth_error counts i
         = Some (Z.of_nat (positives [ungrouped; scenario_1] g)).
Proof.
  apply (@rank_pos_counts (stable_backend seven_mem) [5; 6; 5]%Z
           [ungrouped; scenario_1] 2).
  - constructor; [reflexivity |]. constructor; [reflexivity |]. constructor.
  - constructor.
    + constructor; [right; reflexivity |].
      constructor; [left; reflexivity |].
      constructor; [left; reflexivity | constructor].
    + constructor; [| constructor].
      constructor; [right; reflexivity |].
      constructor; [left; reflexivity | constructor].
Defined.



Lemma rank_counts_wrap_witness :
  exists labels counts,
    @rank (stable_backend seven_mem) [5]%Z [heavy] 1 = Some (labels, counts)
    /\ forall i g, nth_error (registry [5]%Z) i = Some g ->
         nth_error counts i
         = Some (wrap32 (zsum (seen_labels [heavy] g))).
Proof.
  apply (@rank_counts_wrap (stable_backend seven_mem) [5]%Z [heavy] 1).
  - constructor; [reflexivity | constructor].
  - constructor; [| constructor].
    constructor; [lia |]. constructor; [lia | constructor].
Defined.

(** On that stream the counter wraps: the labels add up to [2^31]. *)
Lemma heavy_count_wraps :
  @rank (stable_backend seven_mem) [5]%Z [heavy] 1
  = Some ([[2147483520; 7]], [-2147483648])%Z.
Proof. reflexivity. Qed.

End AlignedRuns.

Module GainRuns.
Import Reals Lra Gain TensorFacts GainFacts GainShapes.
Local Open Scope R_scope.

Lemma ndcg_score_closed_form_witness :
  ndcg_score [[1; 0]] (TotalTensor [1%Z]) None
  = Some (map2 (fun row p =>
                  rsum (map2 Rdiv row (ndcg_coefs 2))
                  / rsum (firstn (Z.to_nat p) (ndcg_coefs 2)))
            [[1; 0]] [1%Z]).
Proof.
  apply (@ndcg_score_closed_form [[1; 0]] [1%Z] 2).
  - lia.
  - constructor; [lia | constructor].
  - repeat constructor.
  - reflexivity.
Defined.

Lemma ndcg_norm_zero_iff_witness :
  norm_sum 2 (ndcg_coefs 2) 0 = 0 <-> (0 <= 0)%Z.
Proof. apply (@ndcg_norm_zero_iff 2 0%Z). lia. Defined.

Lemma ndcg_score_raises_witness :
  ndcg_score [[1; 0]; [0; 1]; [1; 1]] (TotalInt 5) None = None.
Proof.
  apply (@ndcg_score_raises [[1; 0]; [0; 1]; [1; 1]] (TotalInt 5) None).
  - discriminate.
  - right. simpl. repeat split; lia.
Defined.

End GainRuns.
